(** * TriX matchmaking server: a shallow embedding of [matchmaking-server.js]

    The server keeps four JavaScript [Map]s (waiting pool, match table,
    connection registry, pre-stake tracker) and reacts to socket events and
    two timers.  Each handler is embedded as a function from the state (and
    the values the environment supplies: the fresh uuid, [Date.now()]) to the
    new state and the list of outward effects it performs, in program order.

    The model and its properties are stated for any type of stake values
    (section [Server]); the scenarios at the end run the server on concrete
    messages. *)

From Stdlib Require Import ZArith String Ascii List Bool Lia.
From stdpp Require Import base list strings.

Open Scope string_scope.
Open Scope list_scope.

(** ** JavaScript [Map]: an insertion-ordered association list

    [for (const [k, v] of m.entries())] visits the keys in insertion order and
    several handlers stop at the first hit, so order is part of the model.
    [set] on a present key keeps its position, on an absent key appends. *)

Section JsMap.
Context {K V : Type} `{EqDecision K}.

Fixpoint map_get (k : K) (m : list (K * V)) : option V :=
  match m with
  | [] => None
  | (k', v) :: m' => if decide (k = k') then Some v else map_get k m'
  end.

Definition map_has (k : K) (m : list (K * V)) : bool :=
  match map_get k m with Some _ => true | None => false end.

Fixpoint map_set (k : K) (v : V) (m : list (K * V)) : list (K * V) :=
  match m with
  | [] => [(k, v)]
  | (k', v') :: m' =>
      if decide (k = k') then (k', v) :: m' else (k', v') :: map_set k v m'
  end.

Fixpoint map_delete (k : K) (m : list (K * V)) : list (K * V) :=
  match m with
  | [] => []
  | (k', v') :: m' =>
      if decide (k = k') then m' else (k', v') :: map_delete k m'
  end.

End JsMap.

(** [m.keys()], in insertion order. *)
Abbreviation map_keys m := (m.*1) (only parsing).

(** ** Game logic functions *)

Definition winConditions : list (list nat) :=
  [ [0; 1; 2]; [3; 4; 5]; [6; 7; 8];   (* rows *)
    [0; 3; 6]; [1; 4; 7]; [2; 5; 8];   (* columns *)
    [0; 4; 8]; [2; 4; 6] ]%nat.        (* diagonals *)

(** [board[index] === symbol]; a read past the end is [undefined], which is
    not equal to any string. *)
Definition cell_is (board : list string) (symbol : string) (index : nat) : bool :=
  bool_decide (board !! index = Some symbol).

Definition checkWin (board : list string) (symbol : string) : bool :=
  existsb (fun condition => forallb (cell_is board symbol) condition)
          winConditions.

Definition checkDraw (board : list string) : bool :=
  forallb (fun cell => negb (bool_decide (cell = ""))) board.

(** [board[index]] for the integer [row * 3 + col] a client sends. *)
Definition board_at (board : list string) (index : Z) : option string :=
  if (index <? 0)%Z then None else board !! Z.to_nat index.

(** ** The rules engine: [checkWin] and [checkDraw] *)

Module Rules.

(** The cell in row [r], column [c] of the 3×3 grid holds [marker]. *)
Definition holds (board : list string) (marker : string) (r c : nat) : Prop :=
  board !! (3 * r + c)%nat = Some marker.

Definition row_line (board : list string) (marker : string) : Prop :=
  ∃ r, (r < 3)%nat ∧ ∀ c, (c < 3)%nat → holds board marker r c.

Definition column_line (board : list string) (marker : string) : Prop :=
  ∃ c, (c < 3)%nat ∧ ∀ r, (r < 3)%nat → holds board marker r c.

Definition diagonal_line (board : list string) (marker : string) : Prop :=
  (∀ i, (i < 3)%nat → holds board marker i i)
  ∨ (∀ i, (i < 3)%nat → holds board marker i (2 - i)).

(** One of the 8 lines is fully occupied by [marker]. *)
Definition has_line (board : list string) (marker : string) : Prop :=
  row_line board marker ∨ column_line board marker ∨ diagonal_line board marker.

Definition occupied (board : list string) (i : nat) : Prop :=
  ∃ s, board !! i = Some s ∧ s ≠ "".

Lemma checkWin_unfold board s :
  checkWin board s = true ↔
    (board !! 0%nat = Some s ∧ board !! 1%nat = Some s ∧ board !! 2%nat = Some s)
    ∨ (board !! 3%nat = Some s ∧ board !! 4%nat = Some s ∧ board !! 5%nat = Some s)
    ∨ (board !! 6%nat = Some s ∧ board !! 7%nat = Some s ∧ board !! 8%nat = Some s)
    ∨ (board !! 0%nat = Some s ∧ board !! 3%nat = Some s ∧ board !! 6%nat = Some s)
    ∨ (board !! 1%nat = Some s ∧ board !! 4%nat = Some s ∧ board !! 7%nat = Some s)
    ∨ (board !! 2%nat = Some s ∧ board !! 5%nat = Some s ∧ board !! 8%nat = Some s)
    ∨ (board !! 0%nat = Some s ∧ board !! 4%nat = Some s ∧ board !! 8%nat = Some s)
    ∨ (board !! 2%nat = Some s ∧ board !! 4%nat = Some s ∧ board !! 6%nat = Some s).
Proof.
  unfold checkWin, winConditions, cell_is. cbn [existsb forallb].
  rewrite !orb_true_iff, !andb_true_iff, !bool_decide_eq_true.
  intuition discriminate.
Qed.

Lemma three_cases (P : nat → Prop) :
  (∀ i, (i < 3)%nat → P i) ↔ P 0%nat ∧ P 1%nat ∧ P 2%nat.
Proof.
  split.
  - intros HP. split_and!; apply HP; lia.
  - intros (H0 & H1 & H2) i Hi.
    destruct i as [|[|[|i]]]; [done | done | done | lia].
Qed.

Lemma has_line_unfold board s :
  has_line board s ↔
    (board !! 0%nat = Some s ∧ board !! 1%nat = Some s ∧ board !! 2%nat = Some s)
    ∨ (board !! 3%nat = Some s ∧ board !! 4%nat = Some s ∧ board !! 5%nat = Some s)
    ∨ (board !! 6%nat = Some s ∧ board !! 7%nat = Some s ∧ board !! 8%nat = Some s)
    ∨ (board !! 0%nat = Some s ∧ board !! 3%nat = Some s ∧ board !! 6%nat = Some s)
    ∨ (board !! 1%nat = Some s ∧ board !! 4%nat = Some s ∧ board !! 7%nat = Some s)
    ∨ (board !! 2%nat = Some s ∧ board !! 5%nat = Some s ∧ board !! 8%nat = Some s)
    ∨ (board !! 0%nat = Some s ∧ board !! 4%nat = Some s ∧ board !! 8%nat = Some s)
    ∨ (board !! 2%nat = Some s ∧ board !! 4%nat = Some s ∧ board !! 6%nat = Some s).
Proof.
  unfold has_line, row_line, column_line, diagonal_line, holds.
  split.
  - intros [(r & Hr & Hl) | [(c & Hc & Hl) | [Hl | Hl]]];
      apply three_cases in Hl; simpl in Hl.
    + destruct r as [|[|[|r]]]; simpl in Hl; [tauto | tauto | tauto | lia].
    + destruct c as [|[|[|c]]]; simpl in Hl; [tauto | tauto | tauto | lia].
    + tauto.
    + tauto.
  - intros [H | [H | [H | [H | [H | [H | [H | H]]]]]]].
    + left. exists 0%nat. split; [lia|]. by apply three_cases.
    + left. exists 1%nat. split; [lia|]. by apply three_cases.
    + left. exists 2%nat. split; [lia|]. by apply three_cases.
    + right; left. exists 0%nat. split; [lia|]. by apply three_cases.
    + right; left. exists 1%nat. split; [lia|]. by apply three_cases.
    + right; left. exists 2%nat. split; [lia|]. by apply three_cases.
    + right; right; left. by apply three_cases.
    + right; right; right. by apply three_cases.
Qed.

Lemma checkWin_has_line board marker :
  checkWin board marker = true ↔ has_line board marker.
Proof. by rewrite checkWin_unfold, has_line_unfold. Qed.

Lemma checkDraw_Forall board :
  checkDraw board = true ↔ Forall (λ cell, cell ≠ "") board.
Proof.
  unfold checkDraw. induction board as [|cell board IH]; simpl.
  - split; [constructor | done].
  - rewrite andb_true_iff, negb_true_iff, bool_decide_eq_false, IH,
      Forall_cons. done.
Qed.

Lemma checkDraw_occupied board :
  length board = 9%nat →
  checkDraw board = true ↔ ∀ i, (i < 9)%nat → occupied board i.
Proof.
  intros Hlen. rewrite checkDraw_Forall, Forall_lookup. unfold occupied. split.
  - intros Hall i Hi.
    destruct (lookup_lt_is_Some_2 board i) as [s Hs]; [lia|]. eauto.
  - intros Hall i s Hs.
    destruct (Hall i) as (s' & Hs' & Hne).
    + apply lookup_lt_Some in Hs. lia.
    + congruence.
Qed.

(** A full board with three X in the top row. *)
Definition full_with_line : list string :=
  ["X"; "X"; "X"; "O"; "O"; "X"; "O"; "X"; "O"].

(** C8, as stated, fails: [checkDraw] does not look at lines, so it answers
    true on a full board on which X has a line. *)
Lemma checkDraw_true_despite_win :
  ¬ (∀ board, length board = 9%nat →
       checkDraw board = true ↔
         (∀ i, (i < 9)%nat → occupied board i)
         ∧ ∀ marker, checkWin board marker = false).
Proof.
  intros Hclaim.
  destruct (Hclaim full_with_line eq_refl) as [Hdraw _].
  destruct (Hdraw eq_refl) as [_ Hnowin].
  specialize (Hnowin "X"). vm_compute in Hnowin. discriminate.
Qed.

End Rules.

(** ** Completions

    How a call ends: it returns a value, or it throws an error with a
    message. *)

Inductive Completion (A : Type) :=
| Normal (a : A)
| Throw (message : string).
Arguments Normal {A} a.
Arguments Throw {A} message.

(** ** Stakes

    A client puts its stake into the join message as it likes: the shipped
    clients send the string read from an input field, or the number
    [parseFloat] makes of it.  The server never computes with the value: it
    uses it as a key of the waiting pool (a [Map] compares keys by
    SameValueZero, so the string 100 and the number 100 are different keys)
    and it calls [parseInt] on it.  The server is therefore modelled over any
    type of stake values with a decidable equality and any function
    [parseInt] on it; what [parseInt] returns is again such a value. *)

Class JsStake (Stake : Type) := {
  stake_eq_dec :: EqDecision Stake;
  parseInt : Stake → Stake
}.

Section Server.
Context `{JsStake Stake}.

(** ** Data *)

Definition Address := string.
Definition SocketId := string.
Definition MatchId := string.

(** The queued join request: the client's [{address, stake}] with the
    [socketId] the handler writes into it. *)
Record PlayerData := mkPlayerData {
  address : Address;
  stake : Stake;
  socketId : SocketId
}.

(** An entry of the pre-stake tracker; [ps_stake] holds [parseInt(stake)]. *)
Record PreStake := mkPreStake {
  ps_stake : Stake;
  timestamp : Z;
  ps_socketId : SocketId;
  confirmed : bool;
  ps_blockchainMatchId : option string
}.

Inductive MatchStatus := CREATED | STAKED | COMPLETED.
Inductive EndReason := NORMAL | FORFEIT | DISCONNECT.

Record Move := mkMove { mv_row : Z; mv_col : Z; mv_symbol : string }.

Record Match := mkMatch {
  matchId : MatchId;
  player1 : Address;
  player2 : Address;
  m_stake : Stake;
  status : MatchStatus;
  board : list string;
  currentPlayer : string;
  gameActive : bool;
  player1Staked : bool;
  player2Staked : bool;
  blockchainMatchId : option string;
  moves : list Move;
  player1SocketId : SocketId;
  player2SocketId : SocketId;
  result : option string;
  endReason : option EndReason
}.

#[global] Instance MatchStatus_eq_dec : EqDecision MatchStatus.
Proof. solve_decision. Defined.
#[global] Instance EndReason_eq_dec : EqDecision EndReason.
Proof. solve_decision. Defined.
#[global] Instance Move_eq_dec : EqDecision Move.
Proof. solve_decision. Defined.
#[global] Instance PlayerData_eq_dec : EqDecision PlayerData.
Proof. solve_decision. Defined.
#[global] Instance PreStake_eq_dec : EqDecision PreStake.
Proof. solve_decision. Defined.
#[global] Instance Match_eq_dec : EqDecision Match.
Proof. solve_decision. Defined.

(** Field assignments on a match object. *)
Definition set_blockchainMatchId (x : option string) (m : Match) : Match :=
  mkMatch (matchId m) (player1 m) (player2 m) (m_stake m) (status m) (board m)
    (currentPlayer m) (gameActive m) (player1Staked m) (player2Staked m) x
    (moves m) (player1SocketId m) (player2SocketId m) (result m) (endReason m).

Definition set_player1Staked (x : bool) (m : Match) : Match :=
  mkMatch (matchId m) (player1 m) (player2 m) (m_stake m) (status m) (board m)
    (currentPlayer m) (gameActive m) x (player2Staked m) (blockchainMatchId m)
    (moves m) (player1SocketId m) (player2SocketId m) (result m) (endReason m).

Definition set_player2Staked (x : bool) (m : Match) : Match :=
  mkMatch (matchId m) (player1 m) (player2 m) (m_stake m) (status m) (board m)
    (currentPlayer m) (gameActive m) (player1Staked m) x (blockchainMatchId m)
    (moves m) (player1SocketId m) (player2SocketId m) (result m) (endReason m).

(** [match.status = s; match.gameActive = a] *)
Definition set_status_active (s : MatchStatus) (a : bool) (m : Match) : Match :=
  mkMatch (matchId m) (player1 m) (player2 m) (m_stake m) s (board m)
    (currentPlayer m) a (player1Staked m) (player2Staked m) (blockchainMatchId m)
    (moves m) (player1SocketId m) (player2SocketId m) (result m) (endReason m).

(** [match.board[index] = symbol; match.moves.push(mv)] *)
Definition set_board_moves (b : list string) (mvs : list Move) (m : Match) : Match :=
  mkMatch (matchId m) (player1 m) (player2 m) (m_stake m) (status m) b
    (currentPlayer m) (gameActive m) (player1Staked m) (player2Staked m)
    (blockchainMatchId m) mvs (player1SocketId m) (player2SocketId m)
    (result m) (endReason m).

Definition set_currentPlayer (x : string) (m : Match) : Match :=
  mkMatch (matchId m) (player1 m) (player2 m) (m_stake m) (status m) (board m)
    x (gameActive m) (player1Staked m) (player2Staked m) (blockchainMatchId m)
    (moves m) (player1SocketId m) (player2SocketId m) (result m) (endReason m).

(** The four assignments at the top of [endGame]. *)
Definition set_completed (res : string) (reason : EndReason) (m : Match) : Match :=
  mkMatch (matchId m) (player1 m) (player2 m) (m_stake m) COMPLETED (board m)
    (currentPlayer m) false (player1Staked m) (player2Staked m)
    (blockchainMatchId m) (moves m) (player1SocketId m) (player2SocketId m)
    (Some res) (Some reason).

(** Game state: the four global maps. *)
Record State := mkState {
  waitingPlayers : list (Stake * list PlayerData);
  activeMatches : list (MatchId * Match);
  playerSessions : list (SocketId * unit);
  preStakedPlayers : list (Address * PreStake)
}.

Definition initial : State := mkState [] [] [] [].

Definition PRE_STAKE_TIMEOUT : Z := 5 * 60 * 1000.
Definition SWEEP_INTERVAL : Z := 30000.
Definition RETENTION : Z := 60000.

(** ** Outward effects

    Server-to-client messages, by event name. *)
Inductive ServerMsg :=
| matchFound (matchData : Match)
| matchmakingStatus (st : string) (message : string)
| gameStart (mid : MatchId) (symbol : string) (isFirst : bool)
| moveMade (row col : Z) (symbol nextPlayer : string)
| gameEnd (winner : string) (winnerAddress : option Address)
          (reason : EndReason) (finalBoard : list string)
| matchCreatedOnChain (mid : MatchId) (bcMatchId : option string)
                      (createdBy : option string).

(** What a handler does to the outside world.  [Emit], [Broadcast] and
    [SetTimeout] are the calls the server makes ([socket.emit],
    [socket.broadcast.emit], [setTimeout] of the eviction closure); console
    logging is left out.  [RequestSettlement] and [RequestPreStakeRefund] are
    the two calls of the ledger interface; they are part of the vocabulary so
    that their presence or absence in a handler's output can be stated. *)
Inductive Effect :=
| Emit (to : SocketId) (msg : ServerMsg)
| Broadcast (from : SocketId) (msg : ServerMsg)
| SetTimeout (delay : Z) (evict : MatchId)
| RequestSettlement (mid : MatchId) (stakeAmount : Stake) (a b : Address)
                    (winner : option Address)
| RequestPreStakeRefund (participant : Address) (amount : Stake).

Definition is_ledger_request (e : Effect) : bool :=
  match e with
  | RequestSettlement _ _ _ _ _ | RequestPreStakeRefund _ _ => true
  | _ => false
  end.

(** [sock = playerSessions.get(id); if (sock) sock.emit(event, data)] *)
Definition emit_if_connected (st : State) (sid : SocketId) (msg : ServerMsg)
  : list Effect :=
  if map_has sid (playerSessions st) then [Emit sid msg] else [].

(** [notifyPlayers(matchId, event, data)] *)
Definition notifyPlayers (st : State) (mid : MatchId) (msg : ServerMsg)
  : list Effect :=
  match map_get mid (activeMatches st) with
  | None => []
  | Some m =>
      emit_if_connected st (player1SocketId m) msg ++
      emit_if_connected st (player2SocketId m) msg
  end.

Definition with_matches (am : list (MatchId * Match)) (st : State) : State :=
  mkState (waitingPlayers st) am (playerSessions st) (preStakedPlayers st).

Definition with_waiting (wp : list (Stake * list PlayerData)) (st : State)
  : State :=
  mkState wp (activeMatches st) (playerSessions st) (preStakedPlayers st).

Definition with_preStaked (ps : list (Address * PreStake)) (st : State) : State :=
  mkState (waitingPlayers st) (activeMatches st) (playerSessions st) ps.

Definition with_sessions (ss : list (SocketId * unit)) (st : State) : State :=
  mkState (waitingPlayers st) (activeMatches st) ss (preStakedPlayers st).

(** [endGame(matchId, result, reason = 'NORMAL')] *)
Definition winnerAddress_of (res : string) (m : Match) : option Address :=
  if bool_decide (res = "X") then Some (player1 m)
  else if bool_decide (res = "O") then Some (player2 m)
  else None.

Definition endGame (mid : MatchId) (res : string) (reason : EndReason)
    (st : State) : State * list Effect :=
  match map_get mid (activeMatches st) with
  | None => (st, [])
  | Some m =>
      let m' := set_completed res reason m in
      let st' := with_matches (map_set mid m' (activeMatches st)) st in
      (st', notifyPlayers st' mid
              (gameEnd res (winnerAddress_of res m') reason (board m'))
            ++ [SetTimeout RETENTION mid])
  end.

(** ** Matchmaking logic *)

Definition newMatch (mid : MatchId) (waitingPlayer playerData : PlayerData)
  : Match :=
  {| matchId := mid;
     player1 := address waitingPlayer;
     player2 := address playerData;
     m_stake := parseInt (stake playerData);
     status := CREATED;
     board := replicate 9 "";
     currentPlayer := "X";
     gameActive := false;
     player1Staked := false;
     player2Staked := false;
     blockchainMatchId := None;
     moves := [];
     player1SocketId := socketId waitingPlayer;
     player2SocketId := socketId playerData;
     result := None;
     endReason := None |}.

(** [findMatch(playerData)], with the value [uuidv4()] returns as [uuid].
    [shift()] on an empty bucket yields [undefined], whose [.address] read
    throws; the empty bucket has been deleted by then. *)
Definition findMatch (uuid : MatchId) (playerData : PlayerData) (st : State)
  : State * list Effect * Completion (option Match) :=
  let stk := stake playerData in
  match map_get stk (waitingPlayers st) with
  | Some players =>
      let rest := tail players in
      let wp := if bool_decide (length rest = 0%nat)
                then map_delete stk (waitingPlayers st)
                else map_set stk rest (waitingPlayers st) in
      match head players with
      | None =>
          (with_waiting wp st, [],
           Throw "Cannot read properties of undefined (reading 'address')")
      | Some waitingPlayer =>
          let matchData := newMatch uuid waitingPlayer playerData in
          let st' := with_matches (map_set uuid matchData (activeMatches st))
                       (with_waiting wp st) in
          (st',
           emit_if_connected st' (socketId waitingPlayer) (matchFound matchData)
           ++ emit_if_connected st' (socketId playerData) (matchFound matchData),
           Normal (Some matchData))
      end
  | None =>
      let wp := if map_has stk (waitingPlayers st) then waitingPlayers st
                else map_set stk [] (waitingPlayers st) in
      let players := default [] (map_get stk wp) in
      (with_waiting (map_set stk (players ++ [playerData]) wp) st, [],
       Normal None)
  end.

(** ** Socket event payloads

    The fields a handler reads, with the types the clients send them in
    (strings for addresses, ids and markers, integers for rows and columns;
    the stake is any value of the type of stakes). *)

Record JoinData := mkJoin { j_address : Address; j_stake : Stake }.

(** What the [findMatch] handler is called with: an object that carries the
    two fields it reads, or, from a client that emits the event with no
    argument or with [null], a value that cannot be destructured. *)
Inductive Nullish := js_undefined | js_null.

Inductive JoinPayload :=
| Object (data : JoinData)
| NoObject (v : Nullish).

(** The message of the [TypeError] that [const { address, stake } =
    playerData] throws on such a value. *)
Definition destructure_error (v : Nullish) : string :=
  match v with
  | js_undefined =>
      "Cannot destructure property 'address' of 'playerData' as it is undefined."
  | js_null =>
      "Cannot destructure property 'address' of 'playerData' as it is null."
  end.

Record PreStakeConfirmedData := mkPreStakeConfirmed {
  pc_address : Address; pc_blockchainMatchId : option string }.
Record MatchCreatedData := mkMatchCreated {
  mc_matchId : MatchId; mc_playerStaked : Address;
  mc_blockchainMatchId : option string }.
Record NotifyData := mkNotify {
  n_matchId : MatchId; n_blockchainMatchId : option string;
  n_createdBy : option string }.
Record PlayerStakedData := mkPlayerStaked {
  s_matchId : MatchId; s_player : Address }.
Record MoveData := mkMoveData {
  d_matchId : MatchId; d_row : Z; d_col : Z; d_symbol : string }.
Record ForfeitData := mkForfeit { f_matchId : MatchId; f_address : Address }.

(** [String.prototype.toLowerCase], on ASCII. *)
Definition lower_ascii (c : ascii) : ascii :=
  let n := nat_of_ascii c in
  if (65 <=? n)%nat && (n <=? 90)%nat then ascii_of_nat (n + 32) else c.

Fixpoint toLowerCase (s : string) : string :=
  match s with
  | EmptyString => EmptyString
  | String c s' => String (lower_ascii c) (toLowerCase s')
  end.

(** ** Socket event handlers *)

(** [io.on('connection')]: [playerSessions.set(socket.id, socket)] *)
Definition on_connection (sid : SocketId) (st : State) : State * list Effect :=
  (with_sessions (map_set sid tt (playerSessions st)) st, []).

(** [socket.on('findMatch')].  The body is one [try] block.  It starts by
    destructuring its argument, which throws when the argument is [undefined]
    or [null]; the only other throw is the one of [findMatch] on an empty
    bucket.  An exception ends the block where it is thrown, with the writes
    made so far in place, and the [catch] branch sends the error status. *)
Definition on_findMatch (sid : SocketId) (uuid : MatchId) (now : Z)
    (playerData : JoinPayload) (st : State) : State * list Effect :=
  match playerData with
  | NoObject v =>
      (st, [Emit sid (matchmakingStatus "error"
              (String.append "Failed to start matchmaking: "
                 (destructure_error v)))])
  | Object data =>
      if map_has (j_address data) (preStakedPlayers st) then
        (st, [Emit sid (matchmakingStatus "error"
                "You already have a pending stake. Please wait or cancel.")])
      else
        let st1 := with_preStaked
                     (map_set (j_address data)
                        (mkPreStake (parseInt (j_stake data)) now sid false None)
                        (preStakedPlayers st)) st in
        let playerData := mkPlayerData (j_address data) (j_stake data) sid in
        match findMatch uuid playerData st1 with
        | (st2, out, Normal (Some _)) =>
            (st2, out ++ [Emit sid (matchmakingStatus "matched"
                                      "Opponent found! Creating match...")])
        | (st2, out, Normal None) =>
            (st2, out ++ [Emit sid (matchmakingStatus "waiting"
               "Searching for opponent... Your stake is held in escrow.")])
        | (st2, out, Throw msg) =>
            (st2, out ++ [Emit sid (matchmakingStatus "error"
                            (String.append "Failed to start matchmaking: " msg))])
        end
  end.
Arguments on_findMatch : simpl never.

(** [socket.on('preStakeConfirmed')] *)
Definition on_preStakeConfirmed (data : PreStakeConfirmedData) (st : State)
  : State * list Effect :=
  match map_get (pc_address data) (preStakedPlayers st) with
  | Some p =>
      let p' := mkPreStake (ps_stake p) (timestamp p) (ps_socketId p) true
                  (pc_blockchainMatchId data) in
      (with_preStaked (map_set (pc_address data) p' (preStakedPlayers st)) st, [])
  | None => (st, [])
  end.

(** [socket.on('matchCreated')] *)
Definition on_matchCreated (data : MatchCreatedData) (st : State)
  : State * list Effect :=
  match map_get (mc_matchId data) (activeMatches st) with
  | Some m =>
      let m1 := set_blockchainMatchId (mc_blockchainMatchId data) m in
      let m2 := if bool_decide (toLowerCase (mc_playerStaked data)
                                = toLowerCase (player1 m1))
                then set_player1Staked true m1 else m1 in
      (with_matches (map_set (mc_matchId data) m2 (activeMatches st)) st, [])
  | None => (st, [])
  end.

(** [socket.on('notifyPlayer2')] *)
Definition on_notifyPlayer2 (sid : SocketId) (data : NotifyData) (st : State)
  : State * list Effect :=
  (st, [Broadcast sid (matchCreatedOnChain (n_matchId data)
                         (n_blockchainMatchId data) (n_createdBy data))]).

(** [socket.on('playerStaked')] *)
Definition on_playerStaked (data : PlayerStakedData) (st : State)
  : State * list Effect :=
  match map_get (s_matchId data) (activeMatches st) with
  | Some m =>
      let m1 := if bool_decide (toLowerCase (s_player data)
                                = toLowerCase (player2 m))
                then set_player2Staked true m else m in
      if player1Staked m1 && player2Staked m1 then
        let m2 := set_status_active STAKED true m1 in
        let st' := with_matches (map_set (s_matchId data) m2 (activeMatches st)) st in
        (st',
         emit_if_connected st' (player1SocketId m2)
           (gameStart (s_matchId data) "X" true)
         ++ emit_if_connected st' (player2SocketId m2)
           (gameStart (s_matchId data) "O" false))
      else
        (with_matches (map_set (s_matchId data) m1 (activeMatches st)) st, [])
  | None => (st, [])
  end.

(** [players.findIndex(p)], [None] for [-1]. *)
Fixpoint findIndex {A : Type} (p : A -> bool) (l : list A) : option nat :=
  match l with
  | [] => None
  | x :: l' => if p x then Some 0%nat else S <$> findIndex p l'
  end.

(** The loop shared by cancel, disconnect and the sweep: walk the buckets in
    order, and in the first one that holds a request satisfying [p], splice
    that request out, delete the bucket if it is now empty, and stop. *)
Fixpoint find_waiting (p : PlayerData -> bool)
    (wp : list (Stake * list PlayerData))
  : option (Stake * list PlayerData * nat) :=
  match wp with
  | [] => None
  | (stk, players) :: wp' =>
      match findIndex p players with
      | Some index => Some (stk, players, index)
      | None => find_waiting p wp'
      end
  end.

Definition remove_waiting (p : PlayerData -> bool)
    (wp : list (Stake * list PlayerData)) : list (Stake * list PlayerData) :=
  match find_waiting p wp with
  | None => wp
  | Some (stk, players, index) =>
      let players' := delete index players in
      if bool_decide (length players' = 0%nat) then map_delete stk wp
      else map_set stk players' wp
  end.

Definition has_address (a : Address) (p : PlayerData) : bool :=
  bool_decide (address p = a).
Definition has_socketId (sid : SocketId) (p : PlayerData) : bool :=
  bool_decide (socketId p = sid).

(** [socket.on('cancelMatchmaking')] *)
Definition on_cancelMatchmaking (sid : SocketId) (addr : Address) (st : State)
  : State * list Effect :=
  if map_has addr (preStakedPlayers st) then
    let st1 := with_preStaked (map_delete addr (preStakedPlayers st)) st in
    let st2 := with_waiting
                 (remove_waiting (has_address addr) (waitingPlayers st1)) st1 in
    (st2, [Emit sid (matchmakingStatus "cancelled"
                       "Matchmaking cancelled. Your stake will be refunded.")])
  else (st, []).

(** [socket.on('makeMove')].  The handler reads nothing of the socket it is
    registered on. *)
Definition on_makeMove (data : MoveData) (st : State) : State * list Effect :=
  match map_get (d_matchId data) (activeMatches st) with
  | Some m =>
      if gameActive m then
        let index := (d_row data * 3 + d_col data)%Z in
        if bool_decide (board_at (board m) index = Some "") then
          let m1 := set_board_moves
                      (<[Z.to_nat index := d_symbol data]> (board m))
                      (moves m ++ [mkMove (d_row data) (d_col data) (d_symbol data)])
                      m in
          let st1 := with_matches
                       (map_set (d_matchId data) m1 (activeMatches st)) st in
          if checkWin (board m1) (d_symbol data) then
            endGame (d_matchId data) (d_symbol data) NORMAL st1
          else if checkDraw (board m1) then
            endGame (d_matchId data) "DRAW" NORMAL st1
          else
            let m2 := set_currentPlayer
                        (if bool_decide (currentPlayer m1 = "X") then "O" else "X")
                        m1 in
            let st2 := with_matches
                         (map_set (d_matchId data) m2 (activeMatches st1)) st1 in
            (st2, notifyPlayers st2 (d_matchId data)
                    (moveMade (d_row data) (d_col data) (d_symbol data)
                       (currentPlayer m2)))
        else (st, [])
      else (st, [])
  | None => (st, [])
  end.

(** [socket.on('forfeitMatch')] *)
Definition on_forfeitMatch (data : ForfeitData) (st : State)
  : State * list Effect :=
  match map_get (f_matchId data) (activeMatches st) with
  | Some m =>
      let winner := if bool_decide (f_address data = player1 m)
                    then player2 m else player1 m in
      endGame (f_matchId data) winner FORFEIT st
  | None => (st, [])
  end.

(** [socket.on('disconnect')] *)
Definition references (sid : SocketId) (entry : MatchId * Match) : bool :=
  bool_decide (player1SocketId entry.2 = sid)
  || bool_decide (player2SocketId entry.2 = sid).

Definition pre_of_socket (sid : SocketId) (entry : Address * PreStake) : bool :=
  bool_decide (ps_socketId entry.2 = sid).

Definition on_disconnect (sid : SocketId) (st : State) : State * list Effect :=
  let st1 := with_waiting
               (remove_waiting (has_socketId sid) (waitingPlayers st)) st in
  let '(st2, out) :=
    match List.find (references sid) (activeMatches st1) with
    | Some (mid, m) =>
        let winner := if bool_decide (player1SocketId m = sid)
                      then player2 m else player1 m in
        endGame mid winner DISCONNECT st1
    | None => (st1, [])
    end in
  let st3 :=
    match List.find (pre_of_socket sid) (preStakedPlayers st2) with
    | Some (addr, _) =>
        with_preStaked (map_delete addr (preStakedPlayers st2)) st2
    | None => st2
    end in
  (with_sessions (map_delete sid (playerSessions st3)) st3, out).

(** ** Timers *)

(** The [setInterval] body, with [now] the value of [Date.now()].  Only the
    entry being visited is ever deleted, so the live iteration visits every
    entry present when the pass starts. *)
Definition expired (now : Z) (preStake : PreStake) : bool :=
  (PRE_STAKE_TIMEOUT <? now - timestamp preStake)%Z.

Definition sweep_entry (now : Z) (st : State) (entry : Address * PreStake)
  : State :=
  if expired now entry.2 then
    let st1 := with_preStaked (map_delete entry.1 (preStakedPlayers st)) st in
    with_waiting (remove_waiting (has_address entry.1) (waitingPlayers st1)) st1
  else st.

Definition sweep (now : Z) (st : State) : State * list Effect :=
  (fold_left (sweep_entry now) (preStakedPlayers st) st, []).

(** The closure [endGame] hands to [setTimeout]. *)
Definition evict (mid : MatchId) (st : State) : State * list Effect :=
  (with_matches (map_delete mid (activeMatches st)) st, []).

(** ** API endpoints

    The two read-only endpoints that look at the game state. *)

(** The body of the [/stats] reply. *)
Record Stats := mkStats {
  stat_waitingPlayers : list (Stake * nat);   (* [{stake, count}] *)
  stat_activeMatches : nat;
  stat_connectedPlayers : nat;
  stat_preStakedPlayers : nat
}.

(** [app.get('/stats')] *)
Definition get_stats (st : State) : Stats :=
  {| stat_waitingPlayers :=
       (λ entry, (entry.1, length entry.2)) <$> waitingPlayers st;
     stat_activeMatches := length (activeMatches st);
     stat_connectedPlayers := length (playerSessions st);
     stat_preStakedPlayers := length (preStakedPlayers st) |}.

Inductive HttpReply :=
| Json (m : Match)                    (* 200, the match object *)
| NotFound (error : string).          (* 404 *)

(** [app.get('/matches/:matchId')] *)
Definition get_match (mid : MatchId) (st : State) : HttpReply :=
  match map_get mid (activeMatches st) with
  | Some m => Json m
  | None => NotFound "Match not found"
  end.

(** ** The server as a transition system *)

Inductive Event :=
| EvConnection (sid : SocketId)
| EvFindMatch (sid : SocketId) (uuid : MatchId) (now : Z)
              (playerData : JoinPayload)
| EvPreStakeConfirmed (sid : SocketId) (data : PreStakeConfirmedData)
| EvMatchCreated (sid : SocketId) (data : MatchCreatedData)
| EvNotifyPlayer2 (sid : SocketId) (data : NotifyData)
| EvPlayerStaked (sid : SocketId) (data : PlayerStakedData)
| EvCancelMatchmaking (sid : SocketId) (addr : Address)
| EvMakeMove (sid : SocketId) (data : MoveData)
| EvForfeitMatch (sid : SocketId) (data : ForfeitData)
| EvDisconnect (sid : SocketId)
| EvSweep (now : Z)
| EvEvict (mid : MatchId).

Definition step (ev : Event) (st : State) : State * list Effect :=
  match ev with
  | EvConnection sid => on_connection sid st
  | EvFindMatch sid uuid now playerData =>
      on_findMatch sid uuid now playerData st
  | EvPreStakeConfirmed _ data => on_preStakeConfirmed data st
  | EvMatchCreated _ data => on_matchCreated data st
  | EvNotifyPlayer2 sid data => on_notifyPlayer2 sid data st
  | EvPlayerStaked _ data => on_playerStaked data st
  | EvCancelMatchmaking sid addr => on_cancelMatchmaking sid addr st
  | EvMakeMove _ data => on_makeMove data st
  | EvForfeitMatch _ data => on_forfeitMatch data st
  | EvDisconnect sid => on_disconnect sid st
  | EvSweep now => sweep now st
  | EvEvict mid => evict mid st
  end.

Fixpoint run (evs : list Event) (st : State) : State * list Effect :=
  match evs with
  | [] => (st, [])
  | ev :: evs' =>
      let '(st1, out1) := step ev st in
      let '(st2, out2) := run evs' st1 in
      (st2, out1 ++ out2)
  end.

(** States the server can be in: any sequence of events from the empty maps.
    Events are not restricted (any message at any time, timers at any time),
    so this includes every state of a real execution. *)
Inductive reachable : State -> Prop :=
| reachable_initial : reachable initial
| reachable_step ev st : reachable st -> reachable (step ev st).1.

(** * Properties *)

(** ** Facts about the insertion-ordered map *)

Section JsMapFacts.
Context {K V : Type} `{EqDecision K}.
Implicit Types (k : K) (v : V) (m : list (K * V)).

Lemma map_get_set_eq k v m : map_get k (map_set k v m) = Some v.
Proof.
  induction m as [|[k' v'] m IH]; simpl.
  - by rewrite decide_True.
  - destruct (decide (k = k')) as [->|Hne]; simpl.
    + by rewrite decide_True.
    + by rewrite decide_False.
Qed.

Lemma map_get_set_ne k k' v m :
  k ≠ k' → map_get k' (map_set k v m) = map_get k' m.
Proof.
  intros Hne. induction m as [|[k0 v0] m IH]; simpl.
  - by rewrite decide_False.
  - destruct (decide (k = k0)) as [->|Hk]; simpl.
    + by rewrite !decide_False.
    + destruct (decide (k' = k0)); [done | apply IH].
Qed.

Lemma map_get_delete_ne k k' m :
  k ≠ k' → map_get k' (map_delete k m) = map_get k' m.
Proof.
  intros Hne. induction m as [|[k0 v0] m IH]; simpl; [done|].
  destruct (decide (k = k0)) as [->|Hk]; simpl.
  - by rewrite decide_False.
  - destruct (decide (k' = k0)); [done | apply IH].
Qed.

Lemma map_get_Some_elem k v m : map_get k m = Some v → (k, v) ∈ m.
Proof.
  induction m as [|[k0 v0] m IH]; simpl; [done|].
  destruct (decide (k = k0)) as [->|Hk].
  - intros [= ->]. left.
  - intros Hg. right. by apply IH.
Qed.

Lemma map_get_None_keys k m : map_get k m = None ↔ k ∉ map_keys m.
Proof.
  induction m as [|[k0 v0] m IH]; simpl.
  - split; [intros _; apply not_elem_of_nil | done].
  - rewrite not_elem_of_cons. destruct (decide (k = k0)) as [->|Hk].
    + split; [done | intros [? _]; done].
    + rewrite IH. tauto.
Qed.

Lemma map_has_true k m : map_has k m = true ↔ k ∈ map_keys m.
Proof.
  unfold map_has. destruct (map_get k m) eqn:Hg.
  - split; [intros _ | done].
    apply map_get_Some_elem in Hg. 
    apply list_elem_of_fmap. by exists (k, v).
  - apply map_get_None_keys in Hg. split; [done | intros; done].
Qed.

Lemma map_get_elem_NoDup k v m :
  NoDup (map_keys m) → (k, v) ∈ m → map_get k m = Some v.
Proof.
  induction m as [|[k0 v0] m IH]; simpl.
  - intros _ Hin. by apply elem_of_nil in Hin.
  - rewrite NoDup_cons. intros [Hk0 Hnd] Hin.
    apply elem_of_cons in Hin as [[= -> ->]|Hin].
    + by rewrite decide_True.
    + destruct (decide (k = k0)) as [->|Hk]; [|by apply IH].
      exfalso. apply Hk0. apply list_elem_of_fmap. by exists (k0, v).
Qed.

Lemma map_set_absent k v m :
  map_get k m = None → map_set k v m = m ++ [(k, v)].
Proof.
  induction m as [|[k0 v0] m IH]; simpl; [done|].
  destruct (decide (k = k0)); [done|]. intros Hg. by rewrite IH.
Qed.

Lemma map_keys_set_present k v m :
  k ∈ map_keys m → map_keys (map_set k v m) = map_keys m.
Proof.
  induction m as [|[k0 v0] m IH]; simpl.
  - intros Hin. by apply elem_of_nil in Hin.
  - destruct (decide (k = k0)) as [->|Hk]; [done|].
    intros Hin. apply elem_of_cons in Hin as [?|Hin]; [done|].
    change (k0 :: map_keys (map_set k v m) = k0 :: map_keys m).
    f_equal. by apply IH.
Qed.

Lemma map_keys_set k v m :
  map_keys (map_set k v m)
  = if map_has k m then map_keys m else map_keys m ++ [k].
Proof.
  destruct (map_has k m) eqn:Hh.
  - apply map_keys_set_present. by apply map_has_true.
  - unfold map_has in Hh. destruct (map_get k m) eqn:Hg; [done|].
    rewrite map_set_absent by done. by rewrite fmap_app.
Qed.

Lemma map_delete_sublist k m : map_delete k m `sublist_of` m.
Proof.
  induction m as [|[k0 v0] m IH]; simpl; [done|].
  destruct (decide (k = k0)).
  - by apply sublist_cons.
  - by apply sublist_skip.
Qed.

Lemma NoDup_keys_set k v m :
  NoDup (map_keys m) → NoDup (map_keys (map_set k v m)).
Proof.
  intros Hnd. rewrite map_keys_set. destruct (map_has k m) eqn:Hh; [done|].
  apply NoDup_app. split_and!; [done| |apply NoDup_singleton].
  intros x Hx Hx'. apply list_elem_of_singleton in Hx' as ->.
  apply map_has_true in Hx. congruence.
Qed.

Lemma NoDup_keys_delete k m :
  NoDup (map_keys m) → NoDup (map_keys (map_delete k m)).
Proof.
  intros Hnd.
  apply (sublist_NoDup _ _ Hnd (fmap_sublist fst _ _ (map_delete_sublist k m))).
Qed.

Lemma map_get_delete_eq k m :
  NoDup (map_keys m) → map_get k (map_delete k m) = None.
Proof.
  induction m as [|[k0 v0] m IH]; simpl; [done|].
  rewrite NoDup_cons. intros [Hk0 Hnd].
  destruct (decide (k = k0)) as [->|Hk]; simpl.
  - by apply map_get_None_keys.
  - rewrite decide_False by done. by apply IH.
Qed.

Lemma Forall_map_set (P : K * V → Prop) k v m :
  (∀ k', P (k', v)) → Forall P m → Forall P (map_set k v m).
Proof.
  intros Hv. induction 1 as [|[k0 v0] m HP Hm IH]; simpl.
  - by repeat constructor.
  - destruct (decide (k = k0)); constructor; auto.
Qed.

Lemma Forall_map_delete (P : K * V → Prop) k m :
  Forall P m → Forall P (map_delete k m).
Proof.
  rewrite !Forall_forall. intros Hm x Hx. apply Hm.
  eapply elem_of_sublist; [done | apply map_delete_sublist].
Qed.
End JsMapFacts.

(** ** Removing the first hit from a list

    [splice] at the [findIndex] position, [Map.delete] of a key, and the
    "find the first entry, delete it, break" loops all remove the first
    element that satisfies a test. *)

Fixpoint remove_first {A : Type} (p : A → bool) (l : list A) : list A :=
  match l with
  | [] => []
  | x :: l' => if p x then l' else x :: remove_first p l'
  end.

Section RemoveFirst.
Context {A : Type}.
Implicit Types (p : A → bool) (l : list A).

Lemma findIndex_None p l :
  findIndex p l = None ↔ Forall (λ x, p x = false) l.
Proof.
  induction l as [|x l IH]; simpl.
  - split; [constructor | done].
  - rewrite Forall_cons. destruct (p x); simpl.
    + split; [done | intros [? _]; done].
    + destruct (findIndex p l); simpl.
      * split; [done|]. intros [_ Hl]. apply IH in Hl. done.
      * split; [|done]. intros _. split; [done|]. by apply IH.
Qed.

Lemma delete_findIndex p l i :
  findIndex p l = Some i → delete i l = remove_first p l.
Proof.
  revert i. induction l as [|x l IH]; intros i; simpl; [done|].
  destruct (p x).
  - by intros [= <-].
  - destruct (findIndex p l) as [j|] eqn:Hj; simpl; [|done].
    intros [= <-]. simpl. f_equal. by apply IH.
Qed.

Lemma remove_first_app_l p l1 l2 i :
  findIndex p l1 = Some i →
  remove_first p (l1 ++ l2) = remove_first p l1 ++ l2.
Proof.
  revert i. induction l1 as [|x l1 IH]; intros i; simpl; [done|].
  destruct (p x); [done|].
  destruct (findIndex p l1) as [j|] eqn:Hj; simpl; [|done].
  intros _. f_equal. by eapply IH.
Qed.

Lemma remove_first_app_r p l1 l2 :
  findIndex p l1 = None →
  remove_first p (l1 ++ l2) = l1 ++ remove_first p l2.
Proof.
  induction l1 as [|x l1 IH]; simpl; [done|].
  destruct (p x); [done|].
  destruct (findIndex p l1); simpl; [done|].
  intros _. f_equal. by apply IH.
Qed.

Lemma remove_first_sublist p l : remove_first p l `sublist_of` l.
Proof.
  induction l as [|x l IH]; simpl; [done|].
  destruct (p x); [by apply sublist_cons | by apply sublist_skip].
Qed.

Lemma remove_first_mono p l1 l2 :
  l1 `sublist_of` l2 → remove_first p l1 `sublist_of` remove_first p l2.
Proof.
  induction 1 as [|x l1 l2 Hl IH|x l1 l2 Hl IH]; simpl.
  - done.
  - destruct (p x); [done | by apply sublist_skip].
  - destruct (p x).
    + etrans; [apply remove_first_sublist | done].
    + by apply sublist_cons.
Qed.

Lemma remove_first_fmap {B : Type} (f : A → B) (q : B → bool) l :
  f <$> remove_first (λ x, q (f x)) l = remove_first q (f <$> l).
Proof.
  induction l as [|x l IH]; [done|].
  rewrite fmap_cons. cbn [remove_first].
  destruct (q (f x)); [done|]. rewrite fmap_cons. by rewrite IH.
Qed.

Lemma remove_first_ext p q l :
  (∀ x, p x = q x) → remove_first p l = remove_first q l.
Proof.
  intros Hpq. induction l as [|x l IH]; simpl; [done|].
  by rewrite Hpq, IH.
Qed.

Lemma remove_first_keeps p l x : x ∈ l → p x = false → x ∈ remove_first p l.
Proof.
  induction l as [|y l IH]; simpl; [done|].
  intros Hin Hx. apply elem_of_cons in Hin as [->|Hin].
  - rewrite Hx. left.
  - destruct (p y); [done|]. right. by apply IH.
Qed.
End RemoveFirst.

Section MapDeleteFirst.
Context {K V : Type} `{EqDecision K}.
Implicit Types (k : K) (m : list (K * V)).

Definition key_is k (e : K * V) : bool := bool_decide (e.1 = k).

Lemma map_delete_remove_first k m : map_delete k m = remove_first (key_is k) m.
Proof.
  induction m as [|[k0 v0] m IH]; simpl; [done|]. unfold key_is at 1. simpl.
  destruct (decide (k = k0)) as [->|Hne].
  - by rewrite bool_decide_eq_true_2.
  - rewrite bool_decide_eq_false_2 by congruence. by rewrite IH.
Qed.

(** "Find the first entry that satisfies [p], delete its key": with
    distinct keys this removes exactly that entry. *)
Lemma find_delete_remove_first (p : K * V → bool) m :
  NoDup (map_keys m) →
  match List.find p m with
  | Some (k, _) => map_delete k m
  | None => m
  end = remove_first p m.
Proof.
  induction m as [|[k0 v0] m IH]; simpl; [done|].
  rewrite NoDup_cons. intros [Hk0 Hnd].
  destruct (p (k0, v0)); simpl.
  - by rewrite decide_True.
  - specialize (IH Hnd). destruct (List.find p m) as [[k v]|] eqn:Hf.
    + simpl. rewrite decide_False; [by rewrite IH|].
      intros ->. apply Hk0. apply find_some in Hf as [Hin _].
      apply list_elem_of_fmap. exists (k0, v). split; [done|].
      by apply list_elem_of_In.
    + by rewrite <- IH.
Qed.
End MapDeleteFirst.

(** ** The waiting pool *)

(** All queued requests, oldest bucket first. *)
Definition queued_of (wp : list (Stake * list PlayerData))
  : list PlayerData :=
  concat wp.*2.

Definition queued (st : State) : list PlayerData := queued_of (waitingPlayers st).

Lemma map_set_set {K V : Type} `{EqDecision K} (k : K) (v1 v2 : V) m :
  map_set k v2 (map_set k v1 m) = map_set k v2 m.
Proof.
  induction m as [|[k0 v0] m IH]; simpl.
  - by rewrite decide_True.
  - destruct (decide (k = k0)) as [->|Hne]; simpl.
    + by rewrite decide_True.
    + rewrite decide_False by done. by rewrite IH.
Qed.

Lemma find_waiting_Some p wp stk players i :
  find_waiting p wp = Some (stk, players, i) →
  (stk, players) ∈ wp ∧ findIndex p players = Some i.
Proof.
  induction wp as [|[k pl] wp IH]; simpl; [done|].
  destruct (findIndex p pl) as [j|] eqn:Hj.
  - intros [= -> -> ->]. split; [left | done].
  - intros Hf. destruct (IH Hf) as [Hin Hi]. split; [by right | done].
Qed.

Lemma queued_remove_waiting p wp :
  NoDup (map_keys wp) →
  queued_of (remove_waiting p wp) = remove_first p (queued_of wp).
Proof.
  unfold remove_waiting, queued_of.
  induction wp as [|[k pl] wp IH]; [done|].
  rewrite fmap_cons, NoDup_cons. intros [Hk Hnd]. specialize (IH Hnd).
  cbn [find_waiting fmap list_fmap concat snd].
  destruct (findIndex p pl) as [j|] eqn:Hj.
  - rewrite (remove_first_app_l _ _ _ _ Hj), <- (delete_findIndex _ _ _ Hj).
    case_bool_decide as Hlen; simpl; rewrite decide_True by done.
    + by apply nil_length_inv in Hlen as ->.
    + done.
  - rewrite (remove_first_app_r _ _ _ Hj).
    destruct (find_waiting p wp) as [[[stk players] i]|] eqn:Hf.
    + assert (stk ≠ k) as Hne.
      { intros ->. apply Hk. apply find_waiting_Some in Hf as [Hin _].
        apply list_elem_of_fmap. by exists (k, players). }
      case_bool_decide; simpl; rewrite decide_False by done;
        simpl; by rewrite <- IH.
    + simpl. by rewrite <- IH.
Qed.

Lemma remove_waiting_keys p wp :
  NoDup (map_keys wp) → NoDup (map_keys (remove_waiting p wp)).
Proof.
  intros Hnd. unfold remove_waiting.
  destruct (find_waiting p wp) as [[[stk players] i]|]; [|done].
  case_bool_decide; [by apply NoDup_keys_delete | by apply NoDup_keys_set].
Qed.

Definition nonempty_bucket (b : Stake * list PlayerData) : Prop := b.2 ≠ [].

Lemma remove_waiting_buckets p wp :
  Forall nonempty_bucket wp → Forall nonempty_bucket (remove_waiting p wp).
Proof.
  intros Hne. unfold remove_waiting.
  destruct (find_waiting p wp) as [[[stk players] i]|]; [|done].
  case_bool_decide as Hlen; [by apply Forall_map_delete|].
  apply Forall_map_set; [|done]. intros k' Hnil. apply Hlen.
  unfold nonempty_bucket in *. simpl in Hnil. by rewrite Hnil.
Qed.

Lemma queued_map_delete k wp :
  queued_of (map_delete k wp) `sublist_of` queued_of wp.
Proof.
  unfold queued_of. induction wp as [|[k0 pl] wp IH]; simpl; [done|].
  destruct (decide (k = k0)); simpl.
  - by apply sublist_inserts_l.
  - by apply sublist_app.
Qed.

Lemma queued_map_set_sublist k v v' wp :
  map_get k wp = Some v → v' `sublist_of` v →
  queued_of (map_set k v' wp) `sublist_of` queued_of wp.
Proof.
  unfold queued_of. induction wp as [|[k0 pl] wp IH]; simpl; [done|].
  destruct (decide (k = k0)); simpl.
  - intros [= ->] Hsub. by apply sublist_app.
  - intros Hg Hsub. apply sublist_app; [done | by apply IH].
Qed.

Lemma queued_app wp1 wp2 : queued_of (wp1 ++ wp2) = queued_of wp1 ++ queued_of wp2.
Proof. unfold queued_of. by rewrite fmap_app, concat_app. Qed.

(** The enqueue branch of [findMatch] appends a one-element bucket. *)
Lemma findMatch_enqueue uuid playerData st :
  map_get (stake playerData) (waitingPlayers st) = None →
  findMatch uuid playerData st
  = (with_waiting (waitingPlayers st ++ [(stake playerData, [playerData])]) st,
     [], Normal None).
Proof.
  intros Hg. unfold findMatch, map_has. rewrite Hg.
  rewrite map_get_set_eq. simpl. rewrite map_set_set.
  by rewrite map_set_absent.
Qed.

(** The pairing branch of [findMatch] takes the head of the bucket. *)
Lemma findMatch_pair uuid playerData st waitingPlayer rest :
  map_get (stake playerData) (waitingPlayers st) = Some (waitingPlayer :: rest) →
  findMatch uuid playerData st
  = let matchData := newMatch uuid waitingPlayer playerData in
    let wp := if bool_decide (length rest = 0%nat)
              then map_delete (stake playerData) (waitingPlayers st)
              else map_set (stake playerData) rest (waitingPlayers st) in
    let st' := with_matches (map_set uuid matchData (activeMatches st))
                 (with_waiting wp st) in
    (st',
     emit_if_connected st' (socketId waitingPlayer) (matchFound matchData)
     ++ emit_if_connected st' (socketId playerData) (matchFound matchData),
     Normal (Some matchData)).
Proof. intros Hg. unfold findMatch. by rewrite Hg. Qed.

(** ** The state invariant *)

Definition pd_key (p : PlayerData) : Address * SocketId :=
  (address p, socketId p).
Definition pre_key (e : Address * PreStake) : Address * SocketId :=
  (e.1, ps_socketId e.2).

(** The cell a recorded move was written to. *)
Definition move_index (mv : Move) : nat :=
  Z.to_nat (mv_row mv * 3 + mv_col mv).

(** One board write per recorded move, starting from the empty board. *)
Definition replay (mvs : list Move) : list string :=
  fold_left (λ b mv, <[move_index mv := mv_symbol mv]> b) mvs (replicate 9 "").

Record match_ok (m : Match) : Prop := {
  ok_active : gameActive m = true ↔ status m = STAKED;
  ok_replay : board m = replay (moves m)
}.

Record MatchesInv (am : list (MatchId * Match)) : Prop := {
  matches_keys : NoDup (map_keys am);
  matches_ok : Forall (λ e, match_ok e.2) am
}.

Record QueueInv (wp : list (Stake * list PlayerData))
    (pre : list (Address * PreStake)) : Prop := {
  waiting_keys : NoDup (map_keys wp);
  pre_keys : NoDup (map_keys pre);
  buckets_nonempty : Forall nonempty_bucket wp;
  queued_pre : (pd_key <$> queued_of wp) `sublist_of` (pre_key <$> pre)
}.

Record Inv (st : State) : Prop := {
  inv_matches : MatchesInv (activeMatches st);
  inv_queue : QueueInv (waitingPlayers st) (preStakedPlayers st)
}.

Lemma MatchesInv_get am k m :
  MatchesInv am → map_get k am = Some m → match_ok m.
Proof.
  intros [_ Hok] Hg. apply map_get_Some_elem in Hg.
  rewrite Forall_forall in Hok. by apply (Hok (k, m)).
Qed.

Lemma MatchesInv_set am k m :
  MatchesInv am → match_ok m → MatchesInv (map_set k m am).
Proof.
  intros [Hk Hok] Hm. split.
  - by apply NoDup_keys_set.
  - by apply Forall_map_set.
Qed.

Lemma MatchesInv_delete am k : MatchesInv am → MatchesInv (map_delete k am).
Proof.
  intros [Hk Hok]. split.
  - by apply NoDup_keys_delete.
  - by apply Forall_map_delete.
Qed.

Lemma match_ok_new uuid w p : match_ok (newMatch uuid w p).
Proof. split; [split; discriminate | reflexivity]. Qed.

Lemma match_ok_completed res reason m :
  match_ok m → match_ok (set_completed res reason m).
Proof. intros [Ha Hr]. split; [split; discriminate | exact Hr]. Qed.

Lemma match_ok_staked m : match_ok m → match_ok (set_status_active STAKED true m).
Proof. intros [Ha Hr]. split; [done | exact Hr]. Qed.

Lemma match_ok_move m i r c s :
  match_ok m → i = (r * 3 + c)%Z →
  match_ok (set_board_moves (<[Z.to_nat i := s]> (board m))
              (moves m ++ [mkMove r c s]) m).
Proof.
  intros [Ha Hr] ->. split; [exact Ha|].
  change (<[Z.to_nat (r * 3 + c) := s]> (board m)
          = replay (moves m ++ [mkMove r c s])).
  unfold replay. rewrite fold_left_app. fold (replay (moves m)).
  by rewrite <- Hr.
Qed.

Lemma match_ok_currentPlayer m x : match_ok m → match_ok (set_currentPlayer x m).
Proof. intros [Ha Hr]. split; [exact Ha | exact Hr]. Qed.

(** What [endGame] does to the state. *)
Lemma endGame_state mid res reason st :
  (endGame mid res reason st).1
  = match map_get mid (activeMatches st) with
    | Some m =>
        with_matches (map_set mid (set_completed res reason m)
                        (activeMatches st)) st
    | None => st
    end.
Proof. unfold endGame. by destruct (map_get mid (activeMatches st)). Qed.

Lemma endGame_inv mid res reason st : Inv st → Inv (endGame mid res reason st).1.
Proof.
  intros [Hm Hq]. rewrite endGame_state.
  destruct (map_get mid (activeMatches st)) as [m|] eqn:Hg; [|done].
  split; [|exact Hq]. simpl. apply MatchesInv_set; [done|].
  apply match_ok_completed. by eapply MatchesInv_get.
Qed.

Lemma endGame_queue mid res reason st :
  waitingPlayers (endGame mid res reason st).1 = waitingPlayers st
  ∧ preStakedPlayers (endGame mid res reason st).1 = preStakedPlayers st
  ∧ playerSessions (endGame mid res reason st).1 = playerSessions st.
Proof.
  rewrite endGame_state. by destruct (map_get mid (activeMatches st)).
Qed.

(** Removing the first queued request and the first pre-stake that satisfy
    the same test on (address, socket) keeps the queue invariant. *)
Lemma QueueInv_remove (q : Address * SocketId → bool) p p' wp pre :
  (∀ x, p x = q (pd_key x)) → (∀ e, p' e = q (pre_key e)) →
  QueueInv wp pre → QueueInv (remove_waiting p wp) (remove_first p' pre).
Proof.
  intros Hp Hp' [Hwk Hpk Hne Hsub]. split.
  - by apply remove_waiting_keys.
  - apply (sublist_NoDup _ _ Hpk), fmap_sublist, remove_first_sublist.
  - by apply remove_waiting_buckets.
  - rewrite queued_remove_waiting by done.
    rewrite (remove_first_ext p (λ x, q (pd_key x))) by done.
    rewrite (remove_first_ext p' (λ e, q (pre_key e))) by done.
    rewrite !remove_first_fmap. by apply remove_first_mono.
Qed.

Lemma QueueInv_cancel addr wp pre :
  QueueInv wp pre →
  QueueInv (remove_waiting (has_address addr) wp) (map_delete addr pre).
Proof.
  intros Hq. rewrite map_delete_remove_first.
  by apply (QueueInv_remove (λ k, bool_decide (k.1 = addr))).
Qed.

Lemma QueueInv_disconnect sid wp pre :
  QueueInv wp pre →
  QueueInv (remove_waiting (has_socketId sid) wp)
    (match List.find (pre_of_socket sid) pre with
     | Some (addr, _) => map_delete addr pre
     | None => pre
     end).
Proof.
  intros Hq. rewrite find_delete_remove_first by apply Hq.
  by apply (QueueInv_remove (λ k, bool_decide (k.2 = sid))).
Qed.

Lemma fmap_map_set_same {K V B : Type} `{EqDecision K} (f : K * V → B)
    (k : K) (v v' : V) m :
  map_get k m = Some v → f (k, v') = f (k, v) →
  f <$> map_set k v' m = f <$> m.
Proof.
  intros Hg Hf. induction m as [|[k0 v0] m IH]; simpl in *; [done|].
  destruct (decide (k = k0)) as [->|Hne].
  - injection Hg as ->. by rewrite !fmap_cons, Hf.
  - rewrite !fmap_cons. f_equal. by apply IH.
Qed.

Lemma findMatch_components uuid playerData st :
  let st' := (findMatch uuid playerData st).1.1 in
  preStakedPlayers st' = preStakedPlayers st
  ∧ playerSessions st' = playerSessions st
  ∧ (activeMatches st' = activeMatches st
     ∨ ∃ w, activeMatches st'
            = map_set uuid (newMatch uuid w playerData) (activeMatches st)).
Proof.
  unfold findMatch.
  destruct (map_get (stake playerData) (waitingPlayers st)) as [players|];
    [destruct players as [|w rest]|]; simpl; eauto 6.
Qed.

Lemma QueueInv_findMatch uuid playerData st e pre0 :
  pre_key e = pd_key playerData →
  NoDup (map_keys (pre0 ++ [e])) →
  QueueInv (waitingPlayers st) pre0 →
  QueueInv (waitingPlayers (findMatch uuid playerData st).1.1) (pre0 ++ [e]).
Proof.
  intros He Hnd [Hwk Hpk Hne Hsub].
  assert (∀ wp', NoDup (map_keys wp') → Forall nonempty_bucket wp' →
            queued_of wp' `sublist_of` queued_of (waitingPlayers st) →
            QueueInv wp' (pre0 ++ [e])) as Hshrink.
  { intros wp' ? ? Hq. split; [done | done | done |].
    rewrite fmap_app. apply sublist_inserts_r.
    etrans; [by apply fmap_sublist | done]. }
  destruct (map_get (stake playerData) (waitingPlayers st))
    as [players|] eqn:Hg.
  - assert (waitingPlayers (findMatch uuid playerData st).1.1
            = if bool_decide (length (tail players) = 0%nat)
              then map_delete (stake playerData) (waitingPlayers st)
              else map_set (stake playerData) (tail players)
                     (waitingPlayers st)) as ->.
    { unfold findMatch. rewrite Hg. by destruct (head players). }
    case_bool_decide as Hlen.
    + apply Hshrink;
        [by apply NoDup_keys_delete | by apply Forall_map_delete
        | apply queued_map_delete].
    + apply Hshrink; [by apply NoDup_keys_set | |].
      * apply Forall_map_set; [|done]. intros k' Hnil.
        unfold nonempty_bucket in *. simpl in Hnil. by rewrite Hnil in Hlen.
      * eapply queued_map_set_sublist; [done|].
        destruct players; [done | by apply sublist_cons].
  - rewrite findMatch_enqueue by done. simpl. split.
    + rewrite fmap_app. apply NoDup_app. split_and!; [done| |apply NoDup_singleton].
      intros x Hx Hx'. apply list_elem_of_singleton in Hx' as ->.
      by apply map_get_None_keys in Hg.
    + done.
    + apply Forall_app. split; [done|]. by repeat constructor.
    + rewrite queued_app, !fmap_app. apply sublist_app; [done|].
      unfold queued_of. simpl. by rewrite He.
Qed.

Lemma on_findMatch_state sid uuid now data st :
  (on_findMatch sid uuid now (Object data) st).1
  = if map_has (j_address data) (preStakedPlayers st) then st
    else (findMatch uuid (mkPlayerData (j_address data) (j_stake data) sid)
            (with_preStaked
               (map_set (j_address data)
                  (mkPreStake (parseInt (j_stake data)) now sid false None)
                  (preStakedPlayers st)) st)).1.1.
Proof.
  unfold on_findMatch. destruct (map_has _ _); [done|].
  by destruct (findMatch _ _ _) as [[st2 out] [[m|]|msg]].
Qed.

Lemma on_findMatch_inv sid uuid now data st :
  Inv st → Inv (on_findMatch sid uuid now (Object data) st).1.
Proof.
  intros [Hm Hq]. rewrite on_findMatch_state.
  destruct (map_has _ _) eqn:Hhas; [done|].
  assert (map_get (j_address data) (preStakedPlayers st) = None) as Hg.
  { unfold map_has in Hhas. by destruct (map_get _ _). }
  rewrite (map_set_absent _ _ _ Hg).
  set (pd := mkPlayerData _ _ _). set (st1 := with_preStaked _ _).
  destruct (findMatch_components uuid pd st1) as (Hpre & _ & Ham).
  split.
  - destruct Ham as [-> | [w ->]]; [done|].
    apply MatchesInv_set; [done | apply match_ok_new].
  - rewrite Hpre. apply QueueInv_findMatch; [done | | done].
    simpl. rewrite fmap_app. apply NoDup_app.
    split_and!; [apply Hq | | apply NoDup_singleton].
    intros x Hx Hx'. apply list_elem_of_singleton in Hx' as ->.
    by apply map_get_None_keys in Hg.
Qed.

Lemma sweep_entry_inv now st e : Inv st → Inv (sweep_entry now st e).
Proof.
  intros [Hm Hq]. unfold sweep_entry. destruct (expired now e.2); [|done].
  split; [done|]. by apply QueueInv_cancel.
Qed.

Lemma sweep_inv now st : Inv st → Inv (sweep now st).1.
Proof.
  unfold sweep. simpl. generalize (preStakedPlayers st) at 1 as l.
  intros l. revert st. induction l as [|e l IH]; intros st Hinv; [done|].
  simpl. apply IH. by apply sweep_entry_inv.
Qed.

Lemma on_disconnect_inv sid st : Inv st → Inv (on_disconnect sid st).1.
Proof.
  intros [Hm Hq]. unfold on_disconnect.
  set (st1 := with_waiting _ st).
  assert (Inv st1) as Hinv1.
  { split; [done|]. simpl. split; try apply Hq.
    - by apply remove_waiting_keys, Hq.
    - by apply remove_waiting_buckets, Hq.
    - rewrite queued_remove_waiting by apply Hq.
      etrans; [apply fmap_sublist, remove_first_sublist | apply Hq]. }
  set (r := match List.find (references sid) (activeMatches st1) with
            | Some (mid, m) => _ | None => _ end).
  assert (Inv r.1 ∧ waitingPlayers r.1 = waitingPlayers st1
          ∧ preStakedPlayers r.1 = preStakedPlayers st) as (Hr & Hw & Hp).
  { subst r. destruct (List.find _ _) as [[mid m]|]; [|done].
    split; [by apply endGame_inv|].
    destruct (endGame_queue mid
                (if bool_decide (player1SocketId m = sid)
                 then player2 m else player1 m) DISCONNECT st1)
      as (Hw & Hp & _).
    split; [exact Hw | exact Hp]. }
  destruct r as [st2 out]. simpl in *. split.
  - by destruct (List.find _ (preStakedPlayers st2)) as [[addr ?]|]; apply Hr.
  - assert (QueueInv (waitingPlayers st2)
              (match List.find (pre_of_socket sid) (preStakedPlayers st2) with
               | Some (addr, _) => map_delete addr (preStakedPlayers st2)
               | None => preStakedPlayers st2
               end)) as Hgoal.
    { rewrite Hw, Hp. by apply QueueInv_disconnect. }
    by destruct (List.find _ (preStakedPlayers st2)) as [[addr ?]|].
Qed.

(** Every handler keeps the invariant. *)
Lemma step_inv ev st : Inv st → Inv (step ev st).1.
Proof.
  intros Hinv. destruct ev as [sid|sid uuid now [data|v]|sid data|sid data
    |sid data|sid data|sid addr|sid data|sid data|sid|now|mid]; simpl.
  - (* connection *) by destruct Hinv.
  - by apply on_findMatch_inv.
  - (* findMatch without a payload *) done.
  - (* preStakeConfirmed *)
    unfold on_preStakeConfirmed.
    destruct (map_get _ _) as [p|] eqn:Hg; [|done].
    destruct Hinv as [Hm [Hwk Hpk Hne Hsub]]. split; [done|]. simpl. split.
    + done.
    + by erewrite (fmap_map_set_same fst).
    + done.
    + by erewrite (fmap_map_set_same pre_key).
  - (* matchCreated *)
    unfold on_matchCreated.
    destruct (map_get _ _) as [m|] eqn:Hg; [|done].
    destruct Hinv as [Hm Hq]. split; [|done]. simpl.
    apply MatchesInv_set; [done|].
    pose proof (MatchesInv_get _ _ _ Hm Hg) as [Ha Hr].
    case_bool_decide; by split.
  - done.
  - (* playerStaked *)
    unfold on_playerStaked.
    destruct (map_get _ _) as [m|] eqn:Hg; [|done].
    destruct Hinv as [Hm Hq].
    pose proof (MatchesInv_get _ _ _ Hm Hg) as Hok.
    set (m1 := if bool_decide _ then _ else m).
    assert (match_ok m1) as Hok1.
    { subst m1. destruct Hok. case_bool_decide; by split. }
    destruct (player1Staked m1 && player2Staked m1); simpl;
      (split; [|done]); simpl; apply MatchesInv_set; try done.
    by apply match_ok_staked.
  - (* cancelMatchmaking *)
    unfold on_cancelMatchmaking. destruct (map_has _ _); [|done].
    destruct Hinv as [Hm Hq]. split; [done|]. by apply QueueInv_cancel.
  - (* makeMove *)
    unfold on_makeMove.
    destruct (map_get _ _) as [m|] eqn:Hg; [|done].
    destruct (gameActive m); [|done].
    case_bool_decide; [|done].
    destruct Hinv as [Hm Hq].
    pose proof (MatchesInv_get _ _ _ Hm Hg) as Hok.
    set (m1 := set_board_moves _ _ m).
    assert (match_ok m1) as Hok1 by by apply match_ok_move.
    set (st1 := with_matches _ st).
    assert (Inv st1) as Hinv1.
    { split; [|done]. by apply MatchesInv_set. }
    destruct (checkWin _ _); [by apply endGame_inv|].
    destruct (checkDraw _); [by apply endGame_inv|].
    split; [|done]. simpl. apply MatchesInv_set; [apply Hinv1|].
    by apply match_ok_currentPlayer.
  - (* forfeitMatch *)
    unfold on_forfeitMatch. destruct (map_get _ _); [|done].
    by apply endGame_inv.
  - by apply on_disconnect_inv.
  - by apply sweep_inv.
  - (* eviction *)
    destruct Hinv as [Hm Hq]. split; [|done]. by apply MatchesInv_delete.
Qed.

Lemma Inv_initial : Inv initial.
Proof.
  split; split; simpl; constructor.
Qed.

Lemma reachable_inv st : reachable st → Inv st.
Proof.
  induction 1 as [|ev st Hr IH]; [apply Inv_initial | by apply step_inv].
Qed.

Lemma reachable_run evs st : reachable st → reachable (run evs st).1.
Proof.
  revert st. induction evs as [|ev evs IH]; intros st Hr; [done|].
  simpl. destruct (step ev st) as [st1 out1] eqn:Hs.
  specialize (IH st1). destruct (run evs st1) as [st2 out2]. simpl in *.
  apply IH. change st1 with (st1, out1).1. rewrite <- Hs.
  by constructor.
Qed.

(** ** Matchmaking: [findMatch] *)

Lemma map_delete_set_absent {K V : Type} `{EqDecision K} (k : K) (v : V) m :
  map_get k m = None → map_delete k (map_set k v m) = m.
Proof.
  induction m as [|[k0 v0] m IH]; simpl.
  - by rewrite decide_True.
  - destruct (decide (k = k0)) as [->|Hne]; [done|]. simpl.
    rewrite decide_False by done. intros Hg. by rewrite IH.
Qed.

(** C4: in every reachable state, [findMatch] for a request with stake S
    pairs it with the oldest request waiting in the bucket for exactly S, if
    there is one: the result is one match with status CREATED between the two,
    stored under the fresh id, and the oldest request leaves the bucket (which
    is deleted when emptied).  Otherwise the request is enqueued and no match
    is made.  Hence, starting with nobody waiting for S, of three requests for
    S the first is enqueued, the second pairs with the first, and the third is
    enqueued. *)
Theorem findMatch_fifo_exact (st : State) (uuid u2 u3 : MatchId)
    (playerData p2 p3 : PlayerData) :
  reachable st →
  match map_get (stake playerData) (waitingPlayers st) with
  | Some (oldest :: rest) =>
      let matchData := newMatch uuid oldest playerData in
      ∃ st' out,
        findMatch uuid playerData st = (st', out, Normal (Some matchData))
        ∧ player1 matchData = address oldest
        ∧ player2 matchData = address playerData
        ∧ status matchData = CREATED
        ∧ activeMatches st' = map_set uuid matchData (activeMatches st)
        ∧ (map_get uuid (activeMatches st) = None →
           activeMatches st' = activeMatches st ++ [(uuid, matchData)])
        ∧ map_get (stake playerData) (waitingPlayers st')
          = match rest with [] => None | _ => Some rest end
        ∧ ∀ k, k ≠ stake playerData →
               map_get k (waitingPlayers st') = map_get k (waitingPlayers st)
  | Some [] => False
  | None =>
      findMatch uuid playerData st
      = (with_waiting
           (waitingPlayers st ++ [(stake playerData, [playerData])]) st,
         [], Normal None)
      ∧ (stake p2 = stake playerData → stake p3 = stake playerData →
         let r1 := findMatch uuid playerData st in
         let r2 := findMatch u2 p2 r1.1.1 in
         let r3 := findMatch u3 p3 r2.1.1 in
         r1.2 = Normal None
         ∧ r2.2 = Normal (Some (newMatch u2 playerData p2))
         ∧ r3.2 = Normal None
         ∧ activeMatches r3.1.1
           = map_set u2 (newMatch u2 playerData p2) (activeMatches st)
         ∧ waitingPlayers r3.1.1 = waitingPlayers st ++ [(stake p3, [p3])])
  end.
Proof.
  intros Hreach. apply reachable_inv in Hreach as [Hm [Hwk Hpk Hne Hsub]].
  destruct (map_get (stake playerData) (waitingPlayers st))
    as [[|oldest rest]|] eqn:Hg.
  - apply map_get_Some_elem in Hg. rewrite Forall_forall in Hne.
    by apply (Hne _ Hg).
  - rewrite (findMatch_pair _ _ _ _ _ Hg). cbv zeta.
    eexists _, _. split; [reflexivity|].
    split_and!; try done.
    + intros Hfresh. simpl. by apply map_set_absent.
    + simpl. destruct rest as [|p rest]; simpl.
      * by apply map_get_delete_eq.
      * apply map_get_set_eq.
    + intros k Hk. simpl. case_bool_decide.
      * by apply map_get_delete_ne.
      * by apply map_get_set_ne.
  - split; [by apply findMatch_enqueue|].
    intros H2 H3. cbv zeta.
    rewrite (findMatch_enqueue _ _ _ Hg). simpl.
    rewrite <- (map_set_absent _ [playerData] _ Hg).
    erewrite (findMatch_pair u2 p2 _ playerData []);
      [|simpl; rewrite H2; apply map_get_set_eq].
    simpl. rewrite H2, (map_delete_set_absent _ _ _ Hg).
    rewrite findMatch_enqueue; [|simpl; by rewrite H3].
    simpl. by rewrite H3.
Qed.

(** ** Pre-commitments *)

Lemma queued_addresses_NoDup st : Inv st → NoDup (address <$> queued st).
Proof.
  intros [_ [_ Hpk _ Hsub]].
  apply (fmap_sublist fst) in Hsub. rewrite <- !list_fmap_compose in Hsub.
  by apply (sublist_NoDup _ _ Hpk).
Qed.

(** C6: in every reachable state the pre-stake tracker holds at most one
    entry per participant address (and the waiting pool at most one request
    per address), and a join request from an address that already has a
    pre-commitment is answered with the duplicate error and changes nothing:
    no pre-commitment, waiting entry or match is created. *)
Theorem one_preCommitment_per_address (st : State) (sid : SocketId)
    (uuid : MatchId) (now : Z) (data : JoinData) :
  reachable st →
  NoDup (map_keys (preStakedPlayers st))
  ∧ NoDup (address <$> queued st)
  ∧ (map_has (j_address data) (preStakedPlayers st) = true →
     on_findMatch sid uuid now (Object data) st
     = (st, [Emit sid (matchmakingStatus "error"
               "You already have a pending stake. Please wait or cancel.")])).
Proof.
  intros Hreach. apply reachable_inv in Hreach as Hinv. split_and!.
  - apply Hinv.
  - by apply queued_addresses_NoDup.
  - intros Hhas. unfold on_findMatch. by rewrite Hhas.
Qed.

(** ** The expiry sweep *)

Definition unexpired (now : Z) (e : Address * PreStake) : bool :=
  negb (expired now e.2).

Lemma map_delete_middle {K V : Type} `{EqDecision K} (k : K) (v : V) m1 m2 :
  k ∉ map_keys m1 → map_delete k (m1 ++ (k, v) :: m2) = m1 ++ m2.
Proof.
  induction m1 as [|[k0 v0] m1 IH]; simpl.
  - intros _. by rewrite decide_True.
  - rewrite not_elem_of_cons. intros [Hne Hk].
    rewrite decide_False by done. by rewrite IH.
Qed.

Lemma sweep_fold_unchanged now l st :
  activeMatches (fold_left (sweep_entry now) l st) = activeMatches st
  ∧ playerSessions (fold_left (sweep_entry now) l st) = playerSessions st.
Proof.
  revert st. induction l as [|e l IH]; intros st; [done|]. simpl.
  destruct (IH (sweep_entry now st e)) as [-> ->].
  unfold sweep_entry. by destruct (expired now e.2).
Qed.

Lemma sweep_fold_pre now l st pre1 :
  preStakedPlayers st = pre1 ++ l →
  NoDup (map_keys (pre1 ++ l)) →
  preStakedPlayers (fold_left (sweep_entry now) l st)
  = pre1 ++ List.filter (unexpired now) l.
Proof.
  revert st pre1. induction l as [|[addr p] l IH]; intros st pre1 Hpre Hnd.
  - simpl. by rewrite Hpre.
  - cbn [fold_left List.filter]. unfold unexpired at 1, sweep_entry at 2.
    cbn [fst snd]. destruct (expired now p) eqn:He; cbn [negb].
    + assert (addr ∉ map_keys pre1) as Hfresh.
      { rewrite fmap_app in Hnd. apply NoDup_app in Hnd as (_ & Hdisj & _).
        intros Hin. apply (Hdisj _ Hin). rewrite fmap_cons. left. }
      apply IH.
      * simpl. rewrite Hpre. by apply map_delete_middle.
      * rewrite fmap_app, fmap_cons in Hnd. rewrite fmap_app.
        apply NoDup_app in Hnd as (Hn1 & Hdisj & Hn2).
        apply NoDup_cons in Hn2 as [_ Hn2].
        apply NoDup_app. split_and!; [done| |done].
        intros x Hx Hx'. apply (Hdisj x Hx). by right.
    + rewrite (IH st (pre1 ++ [(addr, p)])).
      * by rewrite <- app_assoc.
      * by rewrite <- app_assoc.
      * by rewrite <- app_assoc.
Qed.

Lemma sweep_fold_keeps now l st pd :
  Inv st → pd ∈ queued st →
  (∀ e, e ∈ l → e.1 = address pd → expired now e.2 = false) →
  pd ∈ queued (fold_left (sweep_entry now) l st).
Proof.
  revert st. induction l as [|e l IH]; intros st Hinv Hin Hl; [done|].
  simpl. apply IH.
  - by apply sweep_entry_inv.
  - unfold sweep_entry. destruct (expired now e.2) eqn:He; [|done].
    unfold queued. simpl. rewrite queued_remove_waiting by apply Hinv.
    apply remove_first_keeps; [done|].
    unfold has_address. apply bool_decide_eq_false_2. intros Heq.
    specialize (Hl e). rewrite He in Hl. symmetry in Heq.
    by discriminate Hl; [left|].
  - intros e' He'. apply Hl. by right.
Qed.

(** C9, amended: the sweep body, run at time [now] in a reachable state,
    removes exactly the pre-commitments whose declared timestamp lies more
    than the 5-minute timeout before [now], keeps the others in order, and
    removes the waiting entries of the swept participants: every request still
    queued afterwards belongs to a participant whose pre-commitment has not
    expired, and every such request stays queued.  The match table is not
    touched and the sweep has no outward effect.  The timer period is 30 s. *)
Theorem sweep_removes_expired (st : State) (now : Z) :
  reachable st →
  let st' := (sweep now st).1 in
  (∀ p, expired now p = true ↔ (now - timestamp p > 5 * 60 * 1000)%Z)
  ∧ SWEEP_INTERVAL = (30 * 1000)%Z
  ∧ preStakedPlayers st' = List.filter (unexpired now) (preStakedPlayers st)
  ∧ (∀ pd, pd ∈ queued st' →
       ∃ p, map_get (address pd) (preStakedPlayers st) = Some p
            ∧ expired now p = false)
  ∧ (∀ pd p, pd ∈ queued st →
       map_get (address pd) (preStakedPlayers st) = Some p →
       expired now p = false → pd ∈ queued st')
  ∧ activeMatches st' = activeMatches st
  ∧ (sweep now st).2 = [].
Proof.
  intros Hreach st'.
  pose proof (reachable_inv _ Hreach) as Hinv.
  pose proof (sweep_inv now _ Hinv) as Hinv'. fold st' in Hinv'.
  assert (preStakedPlayers st'
          = List.filter (unexpired now) (preStakedPlayers st)) as Hpre.
  { apply (sweep_fold_pre now (preStakedPlayers st) st []); [done|].
    apply Hinv. }
  split_and!.
  - intros p. unfold expired, PRE_STAKE_TIMEOUT. rewrite Z.ltb_lt. lia.
  - reflexivity.
  - exact Hpre.
  - intros pd Hin.
    assert (pd_key pd ∈ pre_key <$> preStakedPlayers st') as Hk.
    { eapply elem_of_sublist; [|apply Hinv'].
      apply list_elem_of_fmap. by exists pd. }
    apply list_elem_of_fmap in Hk as ([addr p] & Heq & He).
    injection Heq as Ha _. rewrite Hpre in He.
    apply list_elem_of_In, filter_In in He as [He Hun].
    exists p. split.
    + apply map_get_elem_NoDup; [apply Hinv|]. rewrite Ha.
      by apply list_elem_of_In.
    + unfold unexpired in Hun. simpl in Hun. by apply negb_true_iff.
  - intros pd p Hin Hg Hun.
    apply sweep_fold_keeps; [done | done |].
    intros [addr p'] He Ha. simpl in *. subst addr.
    apply (map_get_elem_NoDup _ _ _ (pre_keys _ _ (inv_queue _ Hinv))) in He.
    congruence.
  - apply sweep_fold_unchanged.
  - reflexivity.
Qed.

(** ** Finalisation: [endGame] *)

Lemma endGame_present mid res reason st m :
  map_get mid (activeMatches st) = Some m →
  endGame mid res reason st
  = (with_matches (map_set mid (set_completed res reason m) (activeMatches st)) st,
     emit_if_connected st (player1SocketId m)
       (gameEnd res (winnerAddress_of res m) reason (board m))
     ++ emit_if_connected st (player2SocketId m)
       (gameEnd res (winnerAddress_of res m) reason (board m))
     ++ [SetTimeout RETENTION mid]).
Proof.
  intros Hg. unfold endGame, notifyPlayers. rewrite Hg. cbn [activeMatches with_matches].
  rewrite map_get_set_eq. by rewrite <- app_assoc.
Qed.

Lemma find_get {V : Type} (p : MatchId * V → bool) am mid m :
  NoDup (map_keys am) → List.find p am = Some (mid, m) →
  map_get mid am = Some m ∧ p (mid, m) = true.
Proof.
  intros Hnd Hf. apply find_some in Hf as [Hin Hp]. split; [|done].
  apply map_get_elem_NoDup; [done | by apply list_elem_of_In].
Qed.

Lemma find_map_set {V : Type} (p : MatchId * V → bool) am mid m m' :
  NoDup (map_keys am) → List.find p am = Some (mid, m) →
  p (mid, m') = true →
  List.find p (map_set mid m' am) = Some (mid, m').
Proof.
  intros Hnd Hf Hp. induction am as [|[k v] am IH]; [done|].
  rewrite fmap_cons in Hnd. apply NoDup_cons in Hnd as [Hk Hnd].
  simpl in *. destruct (decide (mid = k)) as [->|Hne].
  - simpl. by rewrite Hp.
  - simpl. destruct (p (k, v)).
    + by injection Hf as -> ->.
    + by apply IH.
Qed.

(** The participant [on_disconnect] names as winner when [sid] drops. *)
Definition survivor (sid : SocketId) (m : Match) : Address :=
  if bool_decide (player1SocketId m = sid) then player2 m else player1 m.

(** What a disconnect does to the match table: the first match, in table
    order, that references the socket is finalised, and no other. *)
Lemma on_disconnect_matches sid st :
  Inv st →
  activeMatches (on_disconnect sid st).1
  = match List.find (references sid) (activeMatches st) with
    | Some (mid, m) =>
        map_set mid (set_completed (survivor sid m) DISCONNECT m)
          (activeMatches st)
    | None => activeMatches st
    end.
Proof.
  intros Hinv. unfold on_disconnect.
  set (st1 := with_waiting _ st).
  change (activeMatches st1) with (activeMatches st).
  destruct (List.find (references sid) (activeMatches st)) as [[mid m]|] eqn:Hf.
  - apply find_get in Hf as [Hg _]; [|apply Hinv].
    cbv zeta. rewrite (endGame_present mid _ DISCONNECT st1 m) by done.
    by destruct (List.find (pre_of_socket sid) _) as [[addr ?]|].
  - by destruct (List.find (pre_of_socket sid) _) as [[addr ?]|].
Qed.

Lemma on_disconnect_output sid st mid m :
  Inv st →
  List.find (references sid) (activeMatches st) = Some (mid, m) →
  (on_disconnect sid st).2
  = emit_if_connected st (player1SocketId m)
      (gameEnd (survivor sid m) (winnerAddress_of (survivor sid m) m)
         DISCONNECT (board m))
    ++ emit_if_connected st (player2SocketId m)
      (gameEnd (survivor sid m) (winnerAddress_of (survivor sid m) m)
         DISCONNECT (board m))
    ++ [SetTimeout RETENTION mid].
Proof.
  intros Hinv Hf. unfold on_disconnect.
  set (st1 := with_waiting _ st).
  change (activeMatches st1) with (activeMatches st). rewrite Hf.
  apply find_get in Hf as [Hg _]; [|apply Hinv].
  cbv zeta. rewrite (endGame_present mid _ DISCONNECT st1 m) by done.
  by destruct (List.find (pre_of_socket sid) _) as [[addr ?]|].
Qed.

(** ** No handler calls the ledger *)

Definition no_ledger_request (out : list Effect) : Prop :=
  Forall (λ e, is_ledger_request e = false) out.

Lemma no_ledger_emit st sid msg : no_ledger_request (emit_if_connected st sid msg).
Proof.
  unfold emit_if_connected, no_ledger_request.
  destruct (map_has _ _); by repeat constructor.
Qed.

Lemma no_ledger_app out1 out2 :
  no_ledger_request out1 → no_ledger_request out2 →
  no_ledger_request (out1 ++ out2).
Proof. intros. by apply Forall_app. Qed.

Lemma no_ledger_notify st mid msg : no_ledger_request (notifyPlayers st mid msg).
Proof.
  unfold notifyPlayers. destruct (map_get _ _); [|constructor].
  apply no_ledger_app; apply no_ledger_emit.
Qed.

Lemma no_ledger_endGame mid res reason st :
  no_ledger_request (endGame mid res reason st).2.
Proof.
  unfold endGame. destruct (map_get _ _); [|constructor]. simpl.
  apply no_ledger_app; [apply no_ledger_notify | by repeat constructor].
Qed.

Lemma no_ledger_findMatch uuid pd st :
  no_ledger_request (findMatch uuid pd st).1.2.
Proof.
  unfold findMatch. destruct (map_get _ _) as [players|]; [|constructor].
  destruct (head players); [|constructor]. simpl.
  apply no_ledger_app; apply no_ledger_emit.
Qed.

Lemma step_no_ledger_request ev st : no_ledger_request (step ev st).2.
Proof.
  destruct ev as [sid|sid uuid now [data|v]|sid data|sid data
    |sid data|sid data|sid addr|sid data|sid data|sid|now|k];
    simpl; try by repeat constructor.
  - unfold on_findMatch. destruct (map_has _ _); [by repeat constructor|].
    pose proof (no_ledger_findMatch uuid
                  (mkPlayerData (j_address data) (j_stake data) sid)
                  (with_preStaked
                     (map_set (j_address data)
                        (mkPreStake (parseInt (j_stake data)) now sid false None)
                        (preStakedPlayers st)) st)) as Hf.
    destruct (findMatch _ _ _) as [[st2 out] [[m|]|msg]]; simpl in *;
      (apply no_ledger_app; [done | by repeat constructor]).
  - unfold on_preStakeConfirmed. destruct (map_get _ _); constructor.
  - unfold on_matchCreated. destruct (map_get _ _); constructor.
  - unfold on_playerStaked. destruct (map_get _ _); [|constructor].
    destruct (_ && _); [|constructor]. simpl.
    apply no_ledger_app; apply no_ledger_emit.
  - unfold on_cancelMatchmaking. destruct (map_has _ _); by repeat constructor.
  - unfold on_makeMove. destruct (map_get _ _) as [m|]; [|constructor].
    destruct (gameActive m); [|constructor].
    case_bool_decide; [|constructor].
    destruct (checkWin _ _); [apply no_ledger_endGame|].
    destruct (checkDraw _); [apply no_ledger_endGame|].
    apply no_ledger_notify.
  - unfold on_forfeitMatch. destruct (map_get _ _); [|constructor].
    apply no_ledger_endGame.
  - unfold on_disconnect.
    destruct (List.find (references sid) _) as [[mid m]|].
    + pose proof (no_ledger_endGame mid
        (if bool_decide (player1SocketId m = sid) then player2 m else player1 m)
        DISCONNECT
        (with_waiting (remove_waiting (has_socketId sid) (waitingPlayers st)) st))
        as He.
      cbv zeta. destruct (endGame _ _ _ _) as [st2 out].
      by destruct (List.find _ (preStakedPlayers st2)) as [[addr ?]|].
    + destruct (List.find _ _) as [[addr ?]|]; constructor.
Qed.

(** ** Disconnects *)

(** C10, amended: when a connection drops, the first match in table order
    that references it (whatever its status, CREATED included) becomes
    COMPLETED with reason DISCONNECT and with the other participant's address
    as result; the participants still registered are sent [gameEnd], the
    eviction timer is set, and every other match is left alone. *)
Theorem disconnect_finalizes_first_match (st : State) (sid : SocketId)
    (mid : MatchId) (m : Match) :
  reachable st →
  List.find (references sid) (activeMatches st) = Some (mid, m) →
  let r := on_disconnect sid st in
  let winner := survivor sid m in
  (∃ m', map_get mid (activeMatches r.1) = Some m'
         ∧ status m' = COMPLETED ∧ gameActive m' = false
         ∧ endReason m' = Some DISCONNECT ∧ result m' = Some winner
         ∧ board m' = board m ∧ moves m' = moves m)
  ∧ (player1SocketId m = sid → winner = player2 m)
  ∧ (player1SocketId m ≠ sid → player2SocketId m = sid ∧ winner = player1 m)
  ∧ r.2 = emit_if_connected st (player1SocketId m)
            (gameEnd winner (winnerAddress_of winner m) DISCONNECT (board m))
          ++ emit_if_connected st (player2SocketId m)
            (gameEnd winner (winnerAddress_of winner m) DISCONNECT (board m))
          ++ [SetTimeout RETENTION mid]
  ∧ ∀ mid', mid' ≠ mid →
      map_get mid' (activeMatches r.1) = map_get mid' (activeMatches st).
Proof.
  intros Hreach Hf r winner. apply reachable_inv in Hreach as Hinv.
  subst r. rewrite on_disconnect_matches, Hf by done.
  destruct (find_get _ _ _ _ (matches_keys _ (inv_matches _ Hinv)) Hf)
    as [Hg Href].
  split_and!.
  - eexists. split; [apply map_get_set_eq|]. by split_and!.
  - intros Hs. unfold winner, survivor. by rewrite bool_decide_eq_true_2.
  - intros Hs. unfold winner, survivor. rewrite bool_decide_eq_false_2 by done.
    split; [|done]. unfold references in Href. simpl in Href.
    rewrite bool_decide_eq_false_2 in Href by done.
    by apply bool_decide_eq_true in Href.
  - by apply on_disconnect_output.
  - intros mid' Hne. by apply map_get_set_ne.
Qed.

(** ** Moves *)

Definition target (data : MoveData) : Z := (d_row data * 3 + d_col data)%Z.

Definition entry_of (data : MoveData) : Move :=
  mkMove (d_row data) (d_col data) (d_symbol data).

(** The match object after the board write and the push. *)
Definition written (data : MoveData) (m : Match) : Match :=
  set_board_moves (<[Z.to_nat (target data) := d_symbol data]> (board m))
    (moves m ++ [entry_of data]) m.

Lemma on_makeMove_ignored data st :
  match map_get (d_matchId data) (activeMatches st) with
  | Some m => gameActive m = false ∨ board_at (board m) (target data) ≠ Some ""
  | None => True
  end →
  on_makeMove data st = (st, []).
Proof.
  unfold on_makeMove, target.
  destruct (map_get _ _) as [m|]; [|done].
  intros [->|Hocc]; [done|].
  destruct (gameActive m); [|done]. by rewrite bool_decide_eq_false_2.
Qed.

Lemma on_makeMove_accepted data st m :
  map_get (d_matchId data) (activeMatches st) = Some m →
  gameActive m = true →
  board_at (board m) (target data) = Some "" →
  let mid := d_matchId data in
  let m1 := written data m in
  on_makeMove data st
  = if checkWin (board m1) (d_symbol data) then
      (with_matches (map_set mid (set_completed (d_symbol data) NORMAL m1)
                       (activeMatches st)) st,
       emit_if_connected st (player1SocketId m)
         (gameEnd (d_symbol data) (winnerAddress_of (d_symbol data) m)
            NORMAL (board m1))
       ++ emit_if_connected st (player2SocketId m)
         (gameEnd (d_symbol data) (winnerAddress_of (d_symbol data) m)
            NORMAL (board m1))
       ++ [SetTimeout RETENTION mid])
    else if checkDraw (board m1) then
      (with_matches (map_set mid (set_completed "DRAW" NORMAL m1)
                       (activeMatches st)) st,
       emit_if_connected st (player1SocketId m)
         (gameEnd "DRAW" None NORMAL (board m1))
       ++ emit_if_connected st (player2SocketId m)
         (gameEnd "DRAW" None NORMAL (board m1))
       ++ [SetTimeout RETENTION mid])
    else
      let next := if bool_decide (currentPlayer m = "X") then "O" else "X" in
      (with_matches (map_set mid (set_currentPlayer next m1)
                       (activeMatches st)) st,
       emit_if_connected st (player1SocketId m)
         (moveMade (d_row data) (d_col data) (d_symbol data) next)
       ++ emit_if_connected st (player2SocketId m)
         (moveMade (d_row data) (d_col data) (d_symbol data) next)).
Proof.
  intros Hg Hact Hcell mid m1. unfold on_makeMove.
  fold (target data). rewrite Hg, Hact, bool_decide_eq_true_2 by done.
  cbv zeta. fold (entry_of data). fold (written data m). fold m1. fold mid.
  destruct (checkWin (board m1) (d_symbol data)).
  - erewrite endGame_present; [|simpl; apply map_get_set_eq].
    simpl. by rewrite map_set_set.
  - destruct (checkDraw (board m1)).
    + erewrite endGame_present; [|simpl; apply map_get_set_eq].
      simpl. by rewrite map_set_set.
    + unfold notifyPlayers. simpl. rewrite map_set_set, map_get_set_eq.
      done.
Qed.

(** In every case an accepted move leaves the match with the one cell written
    and the one entry pushed. *)
Lemma on_makeMove_accepted_match data st m :
  map_get (d_matchId data) (activeMatches st) = Some m →
  gameActive m = true →
  board_at (board m) (target data) = Some "" →
  ∃ m', map_get (d_matchId data) (activeMatches (on_makeMove data st).1) = Some m'
        ∧ board m' = <[Z.to_nat (target data) := d_symbol data]> (board m)
        ∧ moves m' = moves m ++ [entry_of data].
Proof.
  intros Hg Hact Hcell.
  rewrite (on_makeMove_accepted data st m) by done. cbv zeta.
  destruct (checkWin _ _); [|destruct (checkDraw _)];
    (eexists; split; [apply map_get_set_eq | by split]).
Qed.

Lemma board_at_Some board i s :
  board_at board i = Some s ↔ (0 ≤ i)%Z ∧ board !! Z.to_nat i = Some s.
Proof.
  unfold board_at. destruct (Z.ltb_spec i 0).
  - split; [done | intros [? _]; lia].
  - tauto.
Qed.

(** ** Win and draw in the move handler *)

(** C8, amended: on every 9-cell board [checkWin] answers true exactly when
    one of the 8 lines is fully occupied by the marker, and [checkDraw]
    answers true exactly when all 9 cells are occupied.  [checkDraw] does not
    test for a win itself: the move handler consults it only after [checkWin]
    has answered false for the marker just placed, so an accepted move ends
    in the mover's win if it completes a line, and in a draw if it does not
    and the board is full. *)
Theorem checkWin_checkDraw_spec (brd : list string) (marker : string)
    (st : State) (data : MoveData) (m : Match) :
  length brd = 9%nat →
  (checkWin brd marker = true ↔ Rules.has_line brd marker)
  ∧ (checkDraw brd = true ↔ ∀ i, (i < 9)%nat → Rules.occupied brd i)
  ∧ (map_get (d_matchId data) (activeMatches st) = Some m →
     gameActive m = true →
     board_at (board m) (target data) = Some "" →
     let final := <[Z.to_nat (target data) := d_symbol data]> (board m) in
     ∃ m', map_get (d_matchId data) (activeMatches (on_makeMove data st).1)
           = Some m'
           ∧ (checkWin final (d_symbol data) = true →
              status m' = COMPLETED ∧ result m' = Some (d_symbol data))
           ∧ (checkWin final (d_symbol data) = false →
              checkDraw final = true →
              status m' = COMPLETED ∧ result m' = Some "DRAW")
           ∧ (checkWin final (d_symbol data) = false →
              checkDraw final = false →
              status m' = status m ∧ result m' = result m)).
Proof.
  intros Hlen. split_and!.
  - apply Rules.checkWin_has_line.
  - by apply Rules.checkDraw_occupied.
  - intros Hg Hact Hcell final.
    rewrite (on_makeMove_accepted data st m) by done. cbv zeta.
    change (board (written data m)) with final.
    destruct (checkWin final (d_symbol data));
      [|destruct (checkDraw final)];
      (eexists; split; [apply map_get_set_eq|]); by split_and!.
Qed.

(** C1, amended: a move message on a running match is checked for one thing
    only, that the target cell is empty.  Whoever sends it and whatever marker
    it carries, the move is applied if the cell is empty; if the cell is
    occupied or outside the board, the state is unchanged and nothing is
    sent. *)
Theorem move_checked_for_empty_cell_only (st : State) (sid : SocketId)
    (data : MoveData) (m : Match) :
  map_get (d_matchId data) (activeMatches st) = Some m →
  gameActive m = true →
  let r := step (EvMakeMove sid data) st in
  (board_at (board m) (target data) = Some "" →
   ∃ m', map_get (d_matchId data) (activeMatches r.1) = Some m'
         ∧ board m' = <[Z.to_nat (target data) := d_symbol data]> (board m)
         ∧ moves m' = moves m ++ [entry_of data])
  ∧ (board_at (board m) (target data) ≠ Some "" → r = (st, [])).
Proof.
  intros Hg Hact r. subst r. simpl. split.
  - intros Hcell. by apply on_makeMove_accepted_match.
  - intros Hocc. apply on_makeMove_ignored. rewrite Hg. by right.
Qed.

(** C2, amended: an accepted move that completes a line for its marker, or
    fills the board, sets the match to COMPLETED with the marker (or DRAW) as
    result and reason NORMAL, sends [gameEnd] with that outcome and the final
    board to each participant connection still registered, and sets the
    eviction timer.  The server makes no request to the ledger. *)
Theorem terminal_move_completes_match (st : State) (sid : SocketId)
    (data : MoveData) (m : Match) :
  map_get (d_matchId data) (activeMatches st) = Some m →
  gameActive m = true →
  board_at (board m) (target data) = Some "" →
  let final := <[Z.to_nat (target data) := d_symbol data]> (board m) in
  let outcome := if checkWin final (d_symbol data) then d_symbol data
                 else "DRAW" in
  checkWin final (d_symbol data) = true ∨ checkDraw final = true →
  let r := step (EvMakeMove sid data) st in
  (∃ m', map_get (d_matchId data) (activeMatches r.1) = Some m'
         ∧ status m' = COMPLETED ∧ gameActive m' = false
         ∧ result m' = Some outcome ∧ endReason m' = Some NORMAL
         ∧ board m' = final)
  ∧ r.2 = emit_if_connected st (player1SocketId m)
            (gameEnd outcome (winnerAddress_of outcome m) NORMAL final)
          ++ emit_if_connected st (player2SocketId m)
            (gameEnd outcome (winnerAddress_of outcome m) NORMAL final)
          ++ [SetTimeout RETENTION (d_matchId data)]
  ∧ no_ledger_request r.2.
Proof.
  intros Hg Hact Hcell final outcome Hterm r.
  split_and!; [| |apply step_no_ledger_request].
  - subst r. simpl. rewrite (on_makeMove_accepted data st m) by done.
    cbv zeta. change (board (written data m)) with final. subst outcome.
    destruct (checkWin final (d_symbol data)).
    + eexists. split; [apply map_get_set_eq|]. by split_and!.
    + destruct Hterm as [|Hd]; [done|]. rewrite Hd.
      eexists. split; [apply map_get_set_eq|]. by split_and!.
  - subst r. simpl. rewrite (on_makeMove_accepted data st m) by done.
    cbv zeta. change (board (written data m)) with final. subst outcome.
    destruct (checkWin final (d_symbol data)); [done|].
    destruct Hterm as [|Hd]; [done|]. by rewrite Hd.
Qed.

(** C5, amended: a move on a match whose status is not the running one, and a
    move whose target cell is not empty, are dropped: the state is unchanged
    and nothing is sent.  Any other move on a running match writes the marker
    into exactly the target cell, leaves every other cell as it was, and
    appends exactly one entry to the move sequence.  In every reachable state
    the board of a match is the empty board with one write per recorded
    move. *)
Theorem move_written_once_or_dropped (st : State) (sid : SocketId)
    (data : MoveData) (m : Match) :
  reachable st →
  map_get (d_matchId data) (activeMatches st) = Some m →
  let r := step (EvMakeMove sid data) st in
  let i := Z.to_nat (target data) in
  (status m ≠ STAKED → r = (st, []))
  ∧ (board_at (board m) (target data) ≠ Some "" → r = (st, []))
  ∧ (status m = STAKED → board_at (board m) (target data) = Some "" →
     ∃ m', map_get (d_matchId data) (activeMatches r.1) = Some m'
           ∧ board m' !! i = Some (d_symbol data)
           ∧ (∀ j, j ≠ i → board m' !! j = board m !! j)
           ∧ length (board m') = length (board m)
           ∧ moves m' = moves m ++ [entry_of data])
  ∧ board m = replay (moves m)
  ∧ ∀ mid' m', map_get mid' (activeMatches r.1) = Some m' →
               board m' = replay (moves m').
Proof.
  intros Hreach Hg r i. pose proof (reachable_inv _ Hreach) as Hinv.
  pose proof (MatchesInv_get _ _ _ (inv_matches _ Hinv) Hg) as [Hact Hrep].
  split_and!.
  - intros Hst. apply on_makeMove_ignored. rewrite Hg. left.
    destruct (gameActive m); [|done]. by destruct Hst; apply Hact.
  - intros Hocc. apply on_makeMove_ignored. rewrite Hg. by right.
  - intros Hst Hcell. apply Hact in Hst.
    destruct (on_makeMove_accepted_match data st m Hg Hst Hcell)
      as (m' & Hg' & Hb & Hmv).
    exists m'. apply board_at_Some in Hcell as [_ Hcell].
    split_and!; [done | | | |done].
    + rewrite Hb. apply list_lookup_insert_eq. by eapply lookup_lt_Some.
    + intros j Hj. rewrite Hb. by apply list_lookup_insert_ne.
    + rewrite Hb. apply length_insert.
  - exact Hrep.
  - intros mid' m' Hg'.
    pose proof (step_inv (EvMakeMove sid data) st Hinv) as Hinv'.
    by apply (ok_replay _ (MatchesInv_get _ _ _ (inv_matches _ Hinv') Hg')).
Qed.

(** ** Staking and the start of the game *)

Ltac by_key H mid k :=
  destruct (decide (mid = k)) as [->|?];
  [rewrite map_get_set_eq in H; injection H as <-
  |rewrite map_get_set_ne in H by done].

(** A match that is running after a step either was running before, or the
    step is a [playerStaked] message for it that found both flags set. *)
Lemma step_gameActive_origin ev st mid m' :
  Inv st →
  map_get mid (activeMatches (step ev st).1) = Some m' →
  gameActive m' = true →
  (∃ m, map_get mid (activeMatches st) = Some m ∧ gameActive m = true)
  ∨ (∃ sid data, ev = EvPlayerStaked sid data ∧ s_matchId data = mid
                 ∧ player1Staked m' = true ∧ player2Staked m' = true
                 ∧ status m' = STAKED).
Proof.
  intros Hinv Hg' Hact.
  destruct ev as [sid|sid uuid now [data|v]|sid data|sid data
    |sid data|sid data|sid addr|sid data|sid data|sid|now|k]; simpl in Hg'.
  - eauto.
  - rewrite on_findMatch_state in Hg'. destruct (map_has _ _); [eauto|].
    match type of Hg' with
    | context [findMatch ?u ?p ?s] =>
        destruct (findMatch_components u p s) as (_ & _ & [Heq | [w Heq]])
    end; rewrite Heq in Hg'; simpl in Hg'; [eauto|].
    by_key Hg' mid uuid; [done | eauto].
  - eauto.
  - unfold on_preStakeConfirmed in Hg'.
    destruct (map_get (pc_address data) _); eauto.
  - unfold on_matchCreated in Hg'.
    destruct (map_get (mc_matchId data) _) as [m|] eqn:Hg; [|eauto].
    simpl in Hg'. by_key Hg' mid (mc_matchId data); [|eauto].
    left. exists m. split; [done|]. by case_bool_decide.
  - eauto.
  - unfold on_playerStaked in Hg'.
    destruct (map_get (s_matchId data) _) as [m|] eqn:Hg; [|eauto].
    destruct (_ && _) eqn:Hboth; simpl in Hg'.
    + by_key Hg' mid (s_matchId data); [|eauto].
      right. exists sid, data. apply andb_true_iff in Hboth as [H1 H2].
      by split_and!.
    + by_key Hg' mid (s_matchId data); [|eauto].
      left. exists m. split; [done|]. by case_bool_decide.
  - unfold on_cancelMatchmaking in Hg'. destruct (map_has _ _); eauto.
  - destruct (map_get (d_matchId data) (activeMatches st)) as [m|] eqn:Hg.
    + destruct (gameActive m) eqn:Hm.
      * destruct (decide (board_at (board m) (target data) = Some ""))
          as [Hcell|Hocc].
        -- rewrite (on_makeMove_accepted data st m) in Hg' by done.
           cbv zeta in Hg'.
           destruct (checkWin _ _); [|destruct (checkDraw _)]; simpl in Hg';
             (by_key Hg' mid (d_matchId data); [|eauto]); [done | done |].
           left. by exists m.
        -- rewrite on_makeMove_ignored in Hg'; [eauto|]. rewrite Hg. by right.
      * rewrite on_makeMove_ignored in Hg'; [eauto|]. rewrite Hg. by left.
    + rewrite on_makeMove_ignored in Hg'; [eauto|]. by rewrite Hg.
  - unfold on_forfeitMatch in Hg'.
    destruct (map_get (f_matchId data) _) as [m|] eqn:Hg; [|eauto].
    rewrite endGame_state, Hg in Hg'. simpl in Hg'.
    by_key Hg' mid (f_matchId data); [done | eauto].
  - rewrite on_disconnect_matches in Hg' by done.
    destruct (List.find _ _) as [[k m]|]; [|eauto].
    by_key Hg' mid k; [done | eauto].
  - destruct (sweep_fold_unchanged now (preStakedPlayers st) st) as [Heq _].
    unfold sweep in Hg'. simpl in Hg'. rewrite Heq in Hg'. eauto.
  - destruct (decide (mid = k)) as [->|Hne].
    + rewrite map_get_delete_eq in Hg' by apply Hinv. done.
    + rewrite map_get_delete_ne in Hg' by done. eauto.
Qed.

(** C7, amended: a match starts running only in the [playerStaked] handler,
    and there exactly when both staked flags are true once the handler has
    marked participant B; at that moment the status becomes STAKED and each
    registered participant connection is sent [gameStart], participant A with
    marker X as first mover, participant B with marker O.  Participant A's
    flag is set by the [matchCreated] handler, which never starts the game and
    sends nothing.  Both handlers only ever raise a flag, so marking a
    participant again leaves the flags as they are. *)
Theorem game_starts_in_playerStaked (st : State) (ev : Event) (mid : MatchId)
    (m' : Match) (sid : SocketId) (sdata : PlayerStakedData)
    (cdata : MatchCreatedData) (m mc : Match) :
  reachable st →
  (map_get mid (activeMatches (step ev st).1) = Some m' →
   gameActive m' = true →
   (∃ m0, map_get mid (activeMatches st) = Some m0 ∧ gameActive m0 = true)
   ∨ (∃ sid' data, ev = EvPlayerStaked sid' data ∧ s_matchId data = mid
                   ∧ player1Staked m' = true ∧ player2Staked m' = true
                   ∧ status m' = STAKED))
  ∧ (map_get (s_matchId sdata) (activeMatches st) = Some m →
     let r := step (EvPlayerStaked sid sdata) st in
     let flag2 := player2Staked m
                  || bool_decide (toLowerCase (s_player sdata)
                                  = toLowerCase (player2 m)) in
     ∃ m1, map_get (s_matchId sdata) (activeMatches r.1) = Some m1
           ∧ player1Staked m1 = player1Staked m
           ∧ player2Staked m1 = flag2
           ∧ if player1Staked m && flag2 then
               status m1 = STAKED ∧ gameActive m1 = true
               ∧ r.2 = emit_if_connected st (player1SocketId m)
                         (gameStart (s_matchId sdata) "X" true)
                       ++ emit_if_connected st (player2SocketId m)
                         (gameStart (s_matchId sdata) "O" false)
             else
               status m1 = status m ∧ gameActive m1 = gameActive m
               ∧ r.2 = [])
  ∧ (map_get (mc_matchId cdata) (activeMatches st) = Some mc →
     let r := step (EvMatchCreated sid cdata) st in
     ∃ m1, map_get (mc_matchId cdata) (activeMatches r.1) = Some m1
           ∧ player1Staked m1
             = player1Staked mc
               || bool_decide (toLowerCase (mc_playerStaked cdata)
                               = toLowerCase (player1 mc))
           ∧ player2Staked m1 = player2Staked mc
           ∧ status m1 = status mc ∧ gameActive m1 = gameActive mc
           ∧ r.2 = []).
Proof.
  intros Hreach. apply reachable_inv in Hreach as Hinv. split_and!.
  - by apply step_gameActive_origin.
  - intros Hg r flag2. subst r flag2. simpl. unfold on_playerStaked.
    rewrite Hg. case_bool_decide as Hp2; simpl.
    + rewrite orb_true_r, andb_true_r.
      destruct (player1Staked m) eqn:H1; simpl;
        (eexists; split; [apply map_get_set_eq|]); by split_and!.
    + rewrite orb_false_r.
      destruct (player1Staked m && player2Staked m) eqn:Hboth; simpl;
        (eexists; split; [apply map_get_set_eq|]); by split_and!.
  - intros Hg r. subst r. simpl. unfold on_matchCreated. rewrite Hg. simpl.
    eexists. split; [apply map_get_set_eq|].
    case_bool_decide; simpl; split_and!; try done.
    + by rewrite orb_true_r.
    + by rewrite orb_false_r.
Qed.

(** ** A match finalised by a disconnect *)

(** The events that do not concern the finished match [mid]: every event
    except a [playerStaked] message for it (which may start it again), a
    forfeit for it (which finalises it again with another reason), a join
    request that is given its id as fresh id (which overwrites it), and its
    eviction. *)
Definition leaves_finished (mid : MatchId) (ev : Event) : Prop :=
  match ev with
  | EvFindMatch _ uuid _ (Object _) => uuid ≠ mid
  | EvPlayerStaked _ data => s_matchId data ≠ mid
  | EvForfeitMatch _ data => f_matchId data ≠ mid
  | EvEvict k => k ≠ mid
  | _ => True
  end.

(** The state [endGame] leaves a match in when it is called for a
    disconnect. *)
Definition dropped (m : Match) : Prop :=
  status m = COMPLETED ∧ gameActive m = false ∧ endReason m = Some DISCONNECT.

Lemma step_stays_dropped ev st mid m :
  Inv st → leaves_finished mid ev →
  map_get mid (activeMatches st) = Some m → dropped m →
  ∃ m', map_get mid (activeMatches (step ev st).1) = Some m' ∧ dropped m'.
Proof.
  intros Hinv Hev Hg Hd.
  destruct ev as [sid|sid uuid now [data|v]|sid data|sid data
    |sid data|sid data|sid addr|sid data|sid data|sid|now|k];
    simpl in Hev; simpl.
  - by exists m.
  - rewrite on_findMatch_state. destruct (map_has _ _); [by exists m|].
    match goal with
    | |- context [findMatch ?u ?p ?s] =>
        destruct (findMatch_components u p s) as (_ & _ & [Heq | [w Heq]])
    end; rewrite Heq; simpl.
    + by exists m.
    + rewrite map_get_set_ne by done. by exists m.
  - unfold on_findMatch. simpl. by exists m.
  - unfold on_preStakeConfirmed.
    destruct (map_get (pc_address data) _); by exists m.
  - unfold on_matchCreated.
    destruct (map_get (mc_matchId data) _) as [m0|] eqn:Hg0; [|by exists m].
    simpl. destruct (decide (mc_matchId data = mid)) as [Heq|Hne].
    + rewrite Heq, map_get_set_eq. rewrite Heq, Hg in Hg0.
      injection Hg0 as <-. eexists. split; [done|]. by case_bool_decide.
    + rewrite map_get_set_ne by done. by exists m.
  - by exists m.
  - unfold on_playerStaked.
    destruct (map_get (s_matchId data) _) as [m0|]; [|by exists m].
    destruct (_ && _); simpl; rewrite map_get_set_ne by done; by exists m.
  - unfold on_cancelMatchmaking. destruct (map_has _ _); by exists m.
  - destruct (decide (d_matchId data = mid)) as [Heq|Hne].
    + rewrite on_makeMove_ignored; [by exists m|].
      rewrite Heq, Hg. left. apply Hd.
    + destruct (map_get (d_matchId data) (activeMatches st)) as [m0|] eqn:Hg0.
      * destruct (gameActive m0) eqn:Hact.
        -- destruct (decide (board_at (board m0) (target data) = Some ""))
             as [Hcell|Hocc].
           ++ rewrite (on_makeMove_accepted data st m0) by done. cbv zeta.
              destruct (checkWin _ _); [|destruct (checkDraw _)]; simpl;
                rewrite map_get_set_ne by done; by exists m.
           ++ rewrite on_makeMove_ignored; [by exists m|].
              rewrite Hg0. by right.
        -- rewrite on_makeMove_ignored; [by exists m|]. rewrite Hg0. by left.
      * rewrite on_makeMove_ignored; [by exists m|]. by rewrite Hg0.
  - unfold on_forfeitMatch.
    destruct (map_get (f_matchId data) _) as [m0|] eqn:Hg0; [|by exists m].
    rewrite endGame_state, Hg0. simpl.
    rewrite map_get_set_ne by done. by exists m.
  - rewrite on_disconnect_matches by done.
    destruct (List.find _ _) as [[k m0]|]; [|by exists m].
    destruct (decide (k = mid)) as [->|Hne].
    + rewrite map_get_set_eq. eexists. by split.
    + rewrite map_get_set_ne by done. by exists m.
  - destruct (sweep_fold_unchanged now (preStakedPlayers st) st) as [Heq _].
    unfold sweep. simpl. rewrite Heq. by exists m.
  - rewrite map_get_delete_ne by done. by exists m.
Qed.

Lemma run_step ev evs st :
  (run (ev :: evs) st).1 = (run evs (step ev st).1).1.
Proof.
  simpl. destruct (step ev st) as [st1 out1]. simpl.
  by destruct (run evs st1).
Qed.

Lemma run_inv evs st : Inv st → Inv (run evs st).1.
Proof.
  revert st. induction evs as [|ev evs IH]; intros st Hinv; [done|].
  rewrite run_step. by apply IH, step_inv.
Qed.

Lemma run_stays_dropped evs st mid m :
  Inv st → Forall (leaves_finished mid) evs →
  map_get mid (activeMatches st) = Some m → dropped m →
  ∃ m', map_get mid (activeMatches (run evs st).1) = Some m' ∧ dropped m'.
Proof.
  revert st m. induction evs as [|ev evs IH]; intros st m Hinv Hall Hg Hd.
  - by exists m.
  - apply Forall_cons in Hall as [Hev Hall]. rewrite run_step.
    destruct (step_stays_dropped ev st mid m Hinv Hev Hg Hd)
      as (m1 & Hg1 & Hd1).
    by apply (IH _ m1); [apply step_inv | | |].
Qed.

(** C3, amended: when a connection drops and the first match in table order
    that references it is running, that match at once becomes COMPLETED with
    the other participant's address as result and reason DISCONNECT.  From
    then on it stays in the table, COMPLETED, not running and with reason
    DISCONNECT, through every sequence of later events that contains no
    [playerStaked] or forfeit message for it, no join request that is given
    its id, and not its eviction: in particular through any later disconnect
    events. *)
Theorem disconnect_while_active (st : State) (sid : SocketId)
    (mid : MatchId) (m : Match) :
  reachable st →
  List.find (references sid) (activeMatches st) = Some (mid, m) →
  gameActive m = true →
  let st1 := (on_disconnect sid st).1 in
  status m = STAKED
  ∧ (∃ m1, map_get mid (activeMatches st1) = Some m1
           ∧ status m1 = COMPLETED ∧ gameActive m1 = false
           ∧ result m1 = Some (survivor sid m)
           ∧ endReason m1 = Some DISCONNECT)
  ∧ (∀ evs, Forall (leaves_finished mid) evs →
        ∃ m2, map_get mid (activeMatches (run evs st1).1) = Some m2
              ∧ status m2 = COMPLETED ∧ gameActive m2 = false
              ∧ endReason m2 = Some DISCONNECT)
  ∧ (∀ sids, ∃ m2,
        map_get mid (activeMatches (run (EvDisconnect <$> sids) st1).1)
        = Some m2
        ∧ status m2 = COMPLETED ∧ gameActive m2 = false
        ∧ endReason m2 = Some DISCONNECT).
Proof.
  intros Hreach Hf Hact st1. apply reachable_inv in Hreach as Hinv.
  assert (Inv st1) as Hinv1 by apply (step_inv (EvDisconnect sid) st Hinv).
  pose proof (matches_keys _ (inv_matches _ Hinv)) as Hnd.
  destruct (find_get _ _ _ _ Hnd Hf) as [Hg Href].
  assert (map_get mid (activeMatches st1)
          = Some (set_completed (survivor sid m) DISCONNECT m)) as Hg1.
  { subst st1. rewrite on_disconnect_matches, Hf by done.
    apply map_get_set_eq. }
  assert (dropped (set_completed (survivor sid m) DISCONNECT m)) as Hd1
    by done.
  split_and!.
  - by apply (ok_active _ (MatchesInv_get _ _ _ (inv_matches _ Hinv) Hg)).
  - eexists. split; [exact Hg1|]. by split_and!.
  - intros evs Hall.
    destruct (run_stays_dropped evs st1 mid _ Hinv1 Hall Hg1 Hd1)
      as (m2 & Hg2 & Hs & Ha & Hr).
    by exists m2.
  - intros sids.
    assert (Forall (leaves_finished mid) (EvDisconnect <$> sids)) as Hall.
    { apply Forall_fmap, Forall_forall. by intros sid2 _. }
    destruct (run_stays_dropped _ st1 mid _ Hinv1 Hall Hg1 Hd1)
      as (m2 & Hg2 & Hs & Ha & Hr).
    by exists m2.
Qed.

(** * Further properties of the server *)

(** ** Shape of the tables *)

(** What every entry of the match table looks like. *)
Record match_shape (e : MatchId * Match) : Prop := {
  shape_id : matchId e.2 = e.1;
  shape_board : length (board e.2) = 9%nat;
  shape_turn : currentPlayer e.2 = "X" ∨ currentPlayer e.2 = "O";
  shape_distinct : player1 e.2 ≠ player2 e.2
}.

(** What every bucket of the waiting pool looks like. *)
Definition bucket_shape (b : Stake * list PlayerData) : Prop :=
  ∃ p, b.2 = [p] ∧ stake p = b.1.

Record Shape (st : State) : Prop := {
  shape_matches : Forall match_shape (activeMatches st);
  shape_buckets : Forall bucket_shape (waitingPlayers st);
  shape_sessions : NoDup (map_keys (playerSessions st))
}.

Lemma Forall_map_set_key {K V : Type} `{EqDecision K} (P : K * V → Prop)
    (k : K) (v : V) m :
  P (k, v) → Forall P m → Forall P (map_set k v m).
Proof.
  intros Hv. induction 1 as [|[k0 v0] m HP Hm IH]; simpl.
  - by repeat constructor.
  - destruct (decide (k = k0)) as [->|Hne]; constructor; auto.
Qed.

Lemma shape_get am k m :
  Forall match_shape am → map_get k am = Some m → match_shape (k, m).
Proof.
  intros Hall Hg. apply map_get_Some_elem in Hg.
  rewrite Forall_forall in Hall. by apply Hall.
Qed.

(** Any change to a match that keeps its id, the size of its board, a
    marker as current player and its two participants keeps its shape. *)
Lemma match_shape_update k m m' :
  match_shape (k, m) →
  matchId m' = matchId m → length (board m') = length (board m) →
  (currentPlayer m' = currentPlayer m
   ∨ currentPlayer m' = "X" ∨ currentPlayer m' = "O") →
  player1 m' = player1 m → player2 m' = player2 m →
  match_shape (k, m').
Proof.
  intros [Hid Hb Ht Hd] Hid' Hb' Ht' H1 H2. simpl in *. split; simpl.
  - congruence.
  - congruence.
  - destruct Ht' as [->|?]; done.
  - congruence.
Qed.

Lemma shape_set_update am k m m' :
  Forall match_shape am → map_get k am = Some m →
  matchId m' = matchId m → length (board m') = length (board m) →
  (currentPlayer m' = currentPlayer m
   ∨ currentPlayer m' = "X" ∨ currentPlayer m' = "O") →
  player1 m' = player1 m → player2 m' = player2 m →
  Forall match_shape (map_set k m' am).
Proof.
  intros Hall Hg ? ? ? ? ?. apply Forall_map_set_key; [|done].
  eapply match_shape_update; [by eapply shape_get | done ..].
Qed.

Lemma endGame_shape mid res reason st :
  Forall match_shape (activeMatches st) →
  Forall match_shape (activeMatches (endGame mid res reason st).1).
Proof.
  intros Hall. rewrite endGame_state.
  destruct (map_get mid (activeMatches st)) as [m|] eqn:Hg; [|done].
  simpl. eapply shape_set_update; eauto.
Qed.

Lemma remove_waiting_shape p wp :
  Forall bucket_shape wp → Forall bucket_shape (remove_waiting p wp).
Proof.
  intros Hall. unfold remove_waiting.
  destruct (find_waiting p wp) as [[[stk players] i]|] eqn:Hf; [|done].
  apply find_waiting_Some in Hf as [Hin Hi].
  rewrite Forall_forall in Hall. destruct (Hall _ Hin) as (q & Hq & _).
  simpl in Hq. subst players. simpl in Hi.
  destruct (p q); [|done]. injection Hi as <-. simpl.
  apply Forall_map_delete. by apply Forall_forall.
Qed.

Lemma elem_of_queued_of p wp :
  p ∈ queued_of wp ↔ ∃ b, b ∈ wp ∧ p ∈ b.2.
Proof.
  unfold queued_of. induction wp as [|b wp IH]; simpl.
  - split; [by intros ?%elem_of_nil | by intros (b & ?%elem_of_nil & _)].
  - rewrite elem_of_app, IH. split.
    + intros [Hin | (b' & Hb' & Hin)].
      * exists b. split; [left | done].
      * exists b'. split; [by right | done].
    + intros (b' & Hb' & Hin). apply elem_of_cons in Hb' as [->|Hb'].
      * by left.
      * right. by exists b'.
Qed.

(** The three outcomes of [findMatch]. *)
Lemma findMatch_cases uuid playerData st :
  (∃ oldest rest,
      map_get (stake playerData) (waitingPlayers st) = Some (oldest :: rest)
      ∧ (findMatch uuid playerData st).1.1
        = with_matches
            (map_set uuid (newMatch uuid oldest playerData) (activeMatches st))
            (with_waiting
               (if bool_decide (length rest = 0%nat)
                then map_delete (stake playerData) (waitingPlayers st)
                else map_set (stake playerData) rest (waitingPlayers st)) st)
      ∧ (findMatch uuid playerData st).2
        = Normal (Some (newMatch uuid oldest playerData)))
  ∨ (map_get (stake playerData) (waitingPlayers st) = Some []
     ∧ (findMatch uuid playerData st).1.1
       = with_waiting (map_delete (stake playerData) (waitingPlayers st)) st
     ∧ ∃ msg, (findMatch uuid playerData st).2 = Throw msg)
  ∨ (map_get (stake playerData) (waitingPlayers st) = None
     ∧ findMatch uuid playerData st
       = (with_waiting
            (waitingPlayers st ++ [(stake playerData, [playerData])]) st,
          [], Normal None)).
Proof.
  destruct (map_get (stake playerData) (waitingPlayers st))
    as [[|oldest rest]|] eqn:Hg.
  - right; left. unfold findMatch. rewrite Hg. simpl. eauto.
  - left. exists oldest, rest. rewrite (findMatch_pair _ _ _ _ _ Hg). done.
  - right; right. split; [done|]. by apply findMatch_enqueue.
Qed.

Lemma on_findMatch_shape sid uuid now data st :
  Inv st → Shape st → Shape (on_findMatch sid uuid now (Object data) st).1.
Proof.
  intros Hinv [Hm Hb Hs]. rewrite on_findMatch_state.
  destruct (map_has _ _) eqn:Hhas; [done|].
  assert (j_address data ∉ map_keys (preStakedPlayers st)) as Hfresh.
  { intros Hin. apply map_has_true in Hin. congruence. }
  set (pd := mkPlayerData _ _ _). set (st1 := with_preStaked _ _).
  destruct (findMatch_cases uuid pd st1)
    as [(oldest & rest & Hg & -> & _) | [(Hg & -> & _) | (Hg & ->)]];
    simpl in *.
  - rewrite Forall_forall in Hb.
    pose proof (map_get_Some_elem _ _ _ Hg) as Hin.
    destruct (Hb _ Hin) as (q & Hq & Hstake). simpl in Hq, Hstake.
    injection Hq as <- ->. split; simpl.
    + apply Forall_map_set_key; [|done]. split; simpl; try done; [by left|].
      intros Heq. apply Hfresh. rewrite <- Heq.
      assert (pd_key oldest ∈ pre_key <$> preStakedPlayers st) as Hk.
      { eapply elem_of_sublist; [|apply Hinv].
        apply list_elem_of_fmap. exists oldest. split; [done|].
        apply elem_of_queued_of. exists (stake pd, [oldest]).
        split; [done | left]. }
      apply list_elem_of_fmap in Hk as ([a p] & Hk & Hin').
      injection Hk as -> _. apply list_elem_of_fmap. by exists (a, p).
    + apply Forall_map_delete. by apply Forall_forall.
    + done.
  - split; simpl; [done | by apply Forall_map_delete | done].
  - split; simpl; [done | | done].
    apply Forall_app. split; [done|]. repeat constructor. by exists pd.
Qed.

Lemma sweep_fold_shape now l st :
  Forall bucket_shape (waitingPlayers st) →
  Forall bucket_shape (waitingPlayers (fold_left (sweep_entry now) l st)).
Proof.
  revert st. induction l as [|e l IH]; intros st Hb; [done|].
  simpl. apply IH. unfold sweep_entry.
  destruct (expired now e.2); [|done]. simpl. by apply remove_waiting_shape.
Qed.

Ltac shape_side := try case_bool_decide; simpl; auto using length_insert.

Lemma step_shape ev st : Inv st → Shape st → Shape (step ev st).1.
Proof.
  intros Hinv Hsh. pose proof Hsh as [Hm Hb Hs].
  destruct ev as [sid|sid uuid now [data|v]|sid data|sid data
    |sid data|sid data|sid addr|sid data|sid data|sid|now|mid]; simpl.
  - split; simpl; [done | done | by apply NoDup_keys_set].
  - by apply on_findMatch_shape.
  - done.
  - unfold on_preStakeConfirmed.
    by destruct (map_get (pc_address data) _).
  - unfold on_matchCreated.
    destruct (map_get (mc_matchId data) _) as [m|] eqn:Hg; [|done].
    split; simpl; [|done|done].
    eapply shape_set_update; eauto; shape_side.
  - done.
  - unfold on_playerStaked.
    destruct (map_get (s_matchId data) _) as [m|] eqn:Hg; [|done].
    destruct (_ && _); (split; simpl; [|done|done]);
      (eapply shape_set_update; eauto; shape_side).
  - unfold on_cancelMatchmaking. destruct (map_has _ _); [|done].
    split; simpl; [done | by apply remove_waiting_shape | done].
  - destruct (map_get (d_matchId data) (activeMatches st)) as [m|] eqn:Hg.
    + destruct (gameActive m) eqn:Hact.
      * destruct (decide (board_at (board m) (target data) = Some ""))
          as [Hcell|Hocc].
        -- rewrite (on_makeMove_accepted data st m) by done. cbv zeta.
           destruct (checkWin _ _); [|destruct (checkDraw _)];
             (split; simpl; [|done|done]);
             (eapply shape_set_update; eauto; simpl;
              auto using length_insert).
           right. case_bool_decide; auto.
        -- rewrite on_makeMove_ignored; [done|]. rewrite Hg. by right.
      * rewrite on_makeMove_ignored; [done|]. rewrite Hg. by left.
    + rewrite on_makeMove_ignored; [done|]. by rewrite Hg.
  - unfold on_forfeitMatch.
    destruct (map_get (f_matchId data) _) as [m|] eqn:Hg; [|done].
    cbv zeta.
    destruct (endGame_queue (f_matchId data)
                (if bool_decide (f_address data = player1 m)
                 then player2 m else player1 m) FORFEIT st) as (Hw & _ & Hss).
    rewrite <- Hw in Hb. rewrite <- Hss in Hs.
    split; [by apply endGame_shape | exact Hb | exact Hs].
  - split.
    + rewrite on_disconnect_matches by done.
      destruct (List.find _ _) as [[k m]|] eqn:Hf; [|done].
      apply find_get in Hf as [Hg _]; [|apply Hinv].
      eapply shape_set_update; eauto.
    + assert (waitingPlayers (on_disconnect sid st).1
              = remove_waiting (has_socketId sid) (waitingPlayers st)) as ->.
      { unfold on_disconnect.
        destruct (List.find (references sid) _) as [[k m]|].
        - cbv zeta.
          pose proof (endGame_queue k
            (if bool_decide (player1SocketId m = sid)
             then player2 m else player1 m) DISCONNECT
            (with_waiting
               (remove_waiting (has_socketId sid) (waitingPlayers st)) st))
            as (Hw & _).
          destruct (endGame _ _ _ _) as [st2 out]. simpl in *.
          by destruct (List.find _ (preStakedPlayers st2)) as [[a ?]|].
        - by destruct (List.find _ _) as [[a ?]|]. }
      by apply remove_waiting_shape.
    + assert (playerSessions (on_disconnect sid st).1
              = map_delete sid (playerSessions st)) as ->.
      { unfold on_disconnect.
        destruct (List.find (references sid) _) as [[k m]|].
        - cbv zeta.
          pose proof (endGame_queue k
            (if bool_decide (player1SocketId m = sid)
             then player2 m else player1 m) DISCONNECT
            (with_waiting
               (remove_waiting (has_socketId sid) (waitingPlayers st)) st))
            as (_ & _ & Hss).
          destruct (endGame _ _ _ _) as [st2 out]. simpl in *.
          destruct (List.find _ (preStakedPlayers st2)) as [[a ?]|];
            simpl; by rewrite Hss.
        - by destruct (List.find _ _) as [[a ?]|]. }
      by apply NoDup_keys_delete.
  - unfold sweep. simpl.
    destruct (sweep_fold_unchanged now (preStakedPlayers st) st) as [Ham Hss].
    split; [by rewrite Ham | by apply sweep_fold_shape | by rewrite Hss].
  - split; simpl; [by apply Forall_map_delete | done | done].
Qed.

Lemma reachable_shape st : reachable st → Shape st.
Proof.
  induction 1 as [|ev st Hr IH].
  - split; simpl; constructor.
  - apply step_shape; [by apply reachable_inv | done].
Qed.

(** ** The query endpoints *)

(** X1: in every reachable state each entry [/stats] lists under
    [waitingPlayers] has count 1 and stands for a bucket holding a single
    request whose stake is the bucket key; no stake is listed twice, and the
    list is as long as the queue. *)
Theorem stats_queue_depth_is_one (st : State) (stk : Stake) (count : nat) :
  reachable st →
  (stk, count) ∈ stat_waitingPlayers (get_stats st) →
  count = 1%nat
  ∧ (∃ p, map_get stk (waitingPlayers st) = Some [p] ∧ stake p = stk)
  ∧ NoDup (stat_waitingPlayers (get_stats st)).*1
  ∧ length (stat_waitingPlayers (get_stats st)) = length (queued st).
Proof.
  intros Hreach Hin.
  pose proof (reachable_inv _ Hreach) as Hinv.
  pose proof (shape_buckets _ (reachable_shape _ Hreach)) as Hb.
  pose proof (waiting_keys _ _ (inv_queue _ Hinv)) as Hnd.
  simpl in Hin. apply list_elem_of_fmap in Hin as ([k players] & Heq & Hin).
  injection Heq as -> ->. simpl in *.
  rewrite Forall_forall in Hb. destruct (Hb _ Hin) as (p & Hp & Hs).
  simpl in Hp, Hs. subst players. split_and!.
  - done.
  - exists p. split; [by apply map_get_elem_NoDup | done].
  - by rewrite <- list_fmap_compose.
  - rewrite length_fmap. unfold queued, queued_of.
    clear Hin Hnd. induction (waitingPlayers st) as [|b wp IH]; [done|].
    simpl. rewrite length_app.
    destruct (Hb b) as (q & Hq & _); [left|]. rewrite Hq. simpl.
    f_equal. apply IH. intros x Hx. apply Hb. by right.
Qed.

(** X2: in every reachable state a match returned by [/matches/:matchId]
    carries the id it was asked for, has a 9-cell board that is the replay of
    its move list, has X or O as current player, and is running exactly when
    its status is STAKED; an id that is not a key of the table gets the 404
    reply. *)
Theorem get_match_well_formed (st : State) (mid : MatchId) :
  reachable st →
  match get_match mid st with
  | Json m =>
      matchId m = mid
      ∧ length (board m) = 9%nat
      ∧ board m = replay (moves m)
      ∧ (currentPlayer m = "X" ∨ currentPlayer m = "O")
      ∧ (gameActive m = true ↔ status m = STAKED)
  | NotFound msg => msg = "Match not found" ∧ mid ∉ map_keys (activeMatches st)
  end.
Proof.
  intros Hreach. unfold get_match.
  destruct (map_get mid (activeMatches st)) as [m|] eqn:Hg.
  - pose proof (reachable_inv _ Hreach) as Hinv.
    destruct (MatchesInv_get _ _ _ (inv_matches _ Hinv) Hg) as [Hact Hrep].
    destruct (shape_get _ _ _
                (shape_matches _ (reachable_shape _ Hreach)) Hg)
      as [Hid Hlen Hturn _].
    by split_and!.
  - split; [done|]. by apply map_get_None_keys.
Qed.

(** X3: in every reachable state the two participants of a match in the
    table have different addresses: the server never pairs an address with
    itself. *)
Theorem participants_differ (st : State) (mid : MatchId) (m : Match) :
  reachable st →
  map_get mid (activeMatches st) = Some m →
  player1 m ≠ player2 m.
Proof.
  intros Hreach Hg.
  apply (shape_distinct _
           (shape_get _ _ _ (shape_matches _ (reachable_shape _ Hreach)) Hg)).
Qed.

(** X4: in every reachable state, when [findMatch] makes a match, the request
    it pairs the newcomer with was the only one queued under the newcomer's
    stake value and carries that same value as its stake.  What the match
    records as stake is [parseInt] of the newcomer's value, which need not
    be the value itself. *)
Theorem paired_requests_have_equal_stake (st : State) (uuid : MatchId)
    (playerData : PlayerData) (m : Match) :
  reachable st →
  (findMatch uuid playerData st).2 = Normal (Some m) →
  ∃ oldest,
    oldest ∈ queued st
    ∧ map_get (stake playerData) (waitingPlayers st) = Some [oldest]
    ∧ stake oldest = stake playerData
    ∧ m = newMatch uuid oldest playerData
    ∧ m_stake m = parseInt (stake playerData).
Proof.
  intros Hreach Hres.
  pose proof (shape_buckets _ (reachable_shape _ Hreach)) as Hb.
  destruct (findMatch_cases uuid playerData st)
    as [(oldest & rest & Hg & _ & Hm) | [(_ & _ & msg & Hm) | (_ & Hm)]];
    rewrite Hm in Hres; [|done..].
  injection Hres as <-.
  pose proof (map_get_Some_elem _ _ _ Hg) as Hin.
  rewrite Forall_forall in Hb. destruct (Hb _ Hin) as (q & Hq & Hs).
  simpl in Hq, Hs. injection Hq as <- ->.
  exists oldest. split_and!; try done.
  - apply elem_of_queued_of. exists (stake playerData, [oldest]).
    split; [done | left].
Qed.

(** ** Joining and cancelling *)

Definition duplicate_reply : ServerMsg :=
  matchmakingStatus "error"
    "You already have a pending stake. Please wait or cancel.".
Definition matched_reply : ServerMsg :=
  matchmakingStatus "matched" "Opponent found! Creating match...".
Definition waiting_reply : ServerMsg :=
  matchmakingStatus "waiting"
    "Searching for opponent... Your stake is held in escrow.".

(** The pre-commitment the handler records for a join request. *)
Definition declared (sid : SocketId) (now : Z) (data : JoinData)
  : Address * PreStake :=
  (j_address data, mkPreStake (parseInt (j_stake data)) now sid false None).

Lemma emit_if_connected_sessions st st' sid msg :
  playerSessions st' = playerSessions st →
  emit_if_connected st' sid msg = emit_if_connected st sid msg.
Proof. unfold emit_if_connected. by intros ->. Qed.

(** The join handler on a request that passes the duplicate guard, in a
    state whose buckets are non-empty. *)
Lemma on_findMatch_accepted sid uuid now data st :
  Forall nonempty_bucket (waitingPlayers st) →
  map_has (j_address data) (preStakedPlayers st) = false →
  let pd := mkPlayerData (j_address data) (j_stake data) sid in
  let pre' := preStakedPlayers st ++ [declared sid now data] in
  on_findMatch sid uuid now (Object data) st
  = match map_get (j_stake data) (waitingPlayers st) with
    | Some (oldest :: rest) =>
        let m := newMatch uuid oldest pd in
        (mkState (if bool_decide (length rest = 0%nat)
                  then map_delete (j_stake data) (waitingPlayers st)
                  else map_set (j_stake data) rest (waitingPlayers st))
           (map_set uuid m (activeMatches st)) (playerSessions st) pre',
         emit_if_connected st (socketId oldest) (matchFound m)
         ++ emit_if_connected st sid (matchFound m) ++ [Emit sid matched_reply])
    | _ =>
        (mkState (waitingPlayers st ++ [(j_stake data, [pd])])
           (activeMatches st) (playerSessions st) pre',
         [Emit sid waiting_reply])
    end.
Proof.
  intros Hne Hhas pd pre'. unfold on_findMatch. rewrite Hhas. cbv zeta.
  assert (map_get (j_address data) (preStakedPlayers st) = None) as Hg.
  { unfold map_has in Hhas. by destruct (map_get _ _). }
  rewrite (map_set_absent _ _ _ Hg). fold (declared sid now data). fold pre'.
  fold pd. set (st1 := with_preStaked pre' st).
  change (waitingPlayers st) with (waitingPlayers st1).
  destruct (map_get (j_stake data) (waitingPlayers st1))
    as [[|oldest rest]|] eqn:Hb.
  - apply map_get_Some_elem in Hb. rewrite Forall_forall in Hne.
    by destruct (Hne _ Hb).
  - rewrite (findMatch_pair uuid pd st1 oldest rest Hb). simpl.
    rewrite <- app_assoc. f_equal.
  - by rewrite (findMatch_enqueue uuid pd st1 Hb).
Qed.



(** X6: pairing does not release the pre-commitments.  After a join request
    has been paired in a reachable state, both participants still hold their
    pre-commitment, so a new join request from either address is rejected as
    a duplicate and changes nothing (until a cancel, a disconnect or the
    sweep removes the entry). *)
Theorem paired_players_keep_preCommitment (st : State) (sid : SocketId)
    (uuid : MatchId) (now : Z) (data : JoinData) (oldest : PlayerData)
    (rest : list PlayerData) :
  reachable st →
  map_has (j_address data) (preStakedPlayers st) = false →
  map_get (j_stake data) (waitingPlayers st) = Some (oldest :: rest) →
  let st' := (on_findMatch sid uuid now (Object data) st).1 in
  preStakedPlayers st' = preStakedPlayers st ++ [declared sid now data]
  ∧ map_has (address oldest) (preStakedPlayers st') = true
  ∧ map_has (j_address data) (preStakedPlayers st') = true
  ∧ ∀ sid' uuid' now' data',
      j_address data' = address oldest ∨ j_address data' = j_address data →
      on_findMatch sid' uuid' now' (Object data') st'
      = (st', [Emit sid' duplicate_reply]).
Proof.
  intros Hreach Hhas Hg st'.
  pose proof (reachable_inv _ Hreach) as Hinv.
  assert (preStakedPlayers st'
          = preStakedPlayers st ++ [declared sid now data]) as Hpre.
  { subst st'. rewrite on_findMatch_accepted; [|apply Hinv | done].
    by rewrite Hg. }
  assert (j_address data ∈ map_keys (preStakedPlayers st')) as Hnew.
  { rewrite Hpre, fmap_app. apply elem_of_app. right. left. }
  assert (address oldest ∈ map_keys (preStakedPlayers st')) as Hold.
  { rewrite Hpre, fmap_app. apply elem_of_app. left.
    assert (pd_key oldest ∈ pre_key <$> preStakedPlayers st) as Hk.
    { eapply elem_of_sublist; [|apply Hinv].
      apply list_elem_of_fmap. exists oldest. split; [done|].
      apply elem_of_queued_of. exists (j_stake data, oldest :: rest).
      split; [by apply map_get_Some_elem | left]. }
    apply list_elem_of_fmap in Hk as ([a p] & Hk & Hin).
    injection Hk as -> _. apply list_elem_of_fmap. by exists (a, p). }
  split_and!; [done | by apply map_has_true | by apply map_has_true |].
  intros sid' uuid' now' data' Haddr. unfold on_findMatch.
  assert (map_has (j_address data') (preStakedPlayers st') = true) as ->.
  { apply map_has_true. by destruct Haddr as [-> | ->]. }
  done.
Qed.

Definition cancelled_reply : ServerMsg :=
  matchmakingStatus "cancelled"
    "Matchmaking cancelled. Your stake will be refunded.".

Lemma remove_first_unique {A B : Type} `{EqDecision B} (f : A → B) (a : B)
    (l : list A) (x : A) :
  NoDup (f <$> l) →
  x ∈ remove_first (λ y, bool_decide (f y = a)) l ↔ x ∈ l ∧ f x ≠ a.
Proof.
  induction l as [|y l IH]; cbn [remove_first].
  - intros _. split; [by intros ?%elem_of_nil | by intros [?%elem_of_nil _]].
  - rewrite fmap_cons, NoDup_cons. intros [Hy Hnd]. specialize (IH Hnd).
    case_bool_decide as Hfy.
    + rewrite elem_of_cons. split.
      * intros Hin. split; [by right|]. intros Hfx. apply Hy.
        rewrite Hfy, <- Hfx. apply list_elem_of_fmap. by exists x.
      * intros [[->|Hin] Hfx]; done.
    + rewrite !elem_of_cons, IH. split.
      * intros [->|[Hin Hfx]]; split; auto.
      * intros [[->|Hin] Hfx]; auto.
Qed.

Lemma find_waiting_app p wp l :
  Forall (λ x, p x = false) (queued_of wp) →
  find_waiting p (wp ++ l) = find_waiting p l.
Proof.
  unfold queued_of. induction wp as [|[k players] wp IH]; simpl; [done|].
  rewrite Forall_app. intros [Hp Hrest].
  apply findIndex_None in Hp. rewrite Hp. by apply IH.
Qed.

(** No queued request carries an address that has no pre-commitment. *)
Lemma queued_address_has_pre st p :
  Inv st → p ∈ queued st → address p ∈ map_keys (preStakedPlayers st).
Proof.
  intros Hinv Hin.
  assert (pd_key p ∈ pre_key <$> preStakedPlayers st) as Hk.
  { eapply elem_of_sublist; [|apply Hinv].
    apply list_elem_of_fmap. by exists p. }
  apply list_elem_of_fmap in Hk as ([a q] & Hk & Hin').
  injection Hk as -> _. apply list_elem_of_fmap. by exists (a, q).
Qed.

(** X7: cancelling looks only at the address in the message, not at the
    connection that sends it.  In a reachable state, if the address has no
    pre-commitment the message is ignored without a reply; otherwise the
    pre-commitment is deleted, the queue loses exactly the requests of that
    address, the match table and the registry are untouched (a match already
    made for the address stays), and the sender gets the "cancelled" reply. *)
Theorem cancel_releases_address (st : State) (sid : SocketId)
    (addr : Address) :
  reachable st →
  let r := on_cancelMatchmaking sid addr st in
  (map_has addr (preStakedPlayers st) = false → r = (st, []))
  ∧ (map_has addr (preStakedPlayers st) = true →
     r.2 = [Emit sid cancelled_reply]
     ∧ preStakedPlayers r.1 = map_delete addr (preStakedPlayers st)
     ∧ map_has addr (preStakedPlayers r.1) = false
     ∧ (∀ p, p ∈ queued r.1 ↔ p ∈ queued st ∧ address p ≠ addr)
     ∧ activeMatches r.1 = activeMatches st
     ∧ playerSessions r.1 = playerSessions st).
Proof.
  intros Hreach r. subst r. pose proof (reachable_inv _ Hreach) as Hinv.
  unfold on_cancelMatchmaking. split; intros Hhas; rewrite Hhas; [done|].
  simpl. split_and!; try done.
  - unfold map_has. rewrite map_get_delete_eq; [done | apply Hinv].
  - intros p. unfold queued. simpl.
    rewrite queued_remove_waiting by apply Hinv.
    apply (remove_first_unique address).
    by apply queued_addresses_NoDup.
Qed.

(** X8: join then cancel is a round trip.  In a reachable state, when an
    address without pre-commitment joins for a stake nobody is waiting for
    and is then cancelled (from any connection), the server is back in
    exactly the state it was in before the join. *)
Theorem join_then_cancel_restores (st : State) (sid sid' : SocketId)
    (uuid : MatchId) (now : Z) (data : JoinData) :
  reachable st →
  map_has (j_address data) (preStakedPlayers st) = false →
  map_get (j_stake data) (waitingPlayers st) = None →
  (on_cancelMatchmaking sid' (j_address data)
     (on_findMatch sid uuid now (Object data) st).1).1 = st.
Proof.
  intros Hreach Hhas Hg. pose proof (reachable_inv _ Hreach) as Hinv.
  assert (j_address data ∉ map_keys (preStakedPlayers st)) as Hfresh.
  { intros Hin. apply map_has_true in Hin. congruence. }
  rewrite on_findMatch_accepted; [|apply Hinv | done]. rewrite Hg.
  cbv zeta. unfold on_cancelMatchmaking. cbn [fst preStakedPlayers].
  assert (map_has (j_address data)
            (preStakedPlayers st ++ [declared sid now data]) = true) as ->.
  { apply map_has_true. rewrite fmap_app. apply elem_of_app. right. left. }
  cbn [fst with_preStaked with_waiting waitingPlayers activeMatches
       playerSessions preStakedPlayers].
  unfold declared at 1.
  rewrite (map_delete_middle (j_address data) _ (preStakedPlayers st) [])
    by done.
  unfold remove_waiting. rewrite find_waiting_app.
  - set (pd := mkPlayerData (j_address data) (j_stake data) sid).
    assert (find_waiting (has_address (j_address data)) [(j_stake data, [pd])]
            = Some (j_stake data, [pd], 0%nat)) as ->.
    { cbn [find_waiting findIndex]. unfold has_address.
      by rewrite bool_decide_eq_true_2. }
    cbn [delete list_delete length].
    rewrite bool_decide_eq_true_2 by done.
    rewrite (map_delete_middle (j_stake data) _ (waitingPlayers st) [])
      by by apply map_get_None_keys.
    rewrite !app_nil_r. by destruct st.
  - apply Forall_forall. intros p Hp. unfold has_address.
    apply bool_decide_eq_false_2. intros Heq. apply Hfresh. rewrite <- Heq.
    by apply queued_address_has_pre.
Qed.

(** ** Expiry and confirmation *)

Lemma sweep_fold_nothing_expired now l st :
  Forall (λ e, expired now e.2 = false) l →
  fold_left (sweep_entry now) l st = st.
Proof.
  revert st. induction 1 as [|e l He Hl IH]; [done|]. simpl.
  unfold sweep_entry at 2. by rewrite He.
Qed.

Lemma sweep_keeps_unexpired_pre st now :
  reachable st →
  preStakedPlayers (sweep now st).1
  = List.filter (unexpired now) (preStakedPlayers st).
Proof.
  intros Hreach.
  apply (sweep_fold_pre now (preStakedPlayers st) st []); [done|].
  apply (reachable_inv _ Hreach).
Qed.

(** X9: the sweep is idempotent.  Running the sweep body a second time with
    the same clock value on the state a first run has left (reachable state)
    changes nothing. *)
Theorem sweep_idempotent (st : State) (now : Z) :
  reachable st →
  sweep now (sweep now st).1 = ((sweep now st).1, []).
Proof.
  intros Hreach.
  pose proof (sweep_keeps_unexpired_pre st now Hreach) as Hpre.
  unfold sweep at 1. f_equal.
  apply sweep_fold_nothing_expired. rewrite Hpre.
  apply Forall_forall. intros e He.
  apply list_elem_of_In, filter_In in He as [_ He].
  unfold unexpired in He. by apply negb_true_iff.
Qed.

Lemma filter_unexpired_map_set now addr p p' pre :
  map_get addr pre = Some p → timestamp p' = timestamp p →
  map_keys (List.filter (unexpired now) (map_set addr p' pre))
  = map_keys (List.filter (unexpired now) pre).
Proof.
  intros Hg Ht. induction pre as [|[k v] pre IH]; simpl in *; [done|].
  destruct (decide (addr = k)) as [->|Hne].
  - injection Hg as ->. simpl. unfold unexpired, expired. simpl.
    rewrite Ht. by destruct (negb _).
  - simpl. destruct (unexpired now (k, v)); [|by apply IH].
    rewrite !fmap_cons. f_equal. by apply IH.
Qed.

(** X10: confirming a pre-stake does not protect it from the sweep.  The
    [preStakeConfirmed] handler sets the confirmed flag and the ledger match
    reference of the entry and nothing else: stake, declared timestamp and
    socket stay, no entry is added or moved, nothing is sent; a confirmation
    for an address without pre-commitment is ignored.  Hence, in a reachable
    state, the sweep removes the same addresses whether or not the
    confirmation has arrived. *)
Theorem confirmation_keeps_expiry (st : State) (data : PreStakeConfirmedData)
    (now : Z) :
  reachable st →
  let r := on_preStakeConfirmed data st in
  r.2 = []
  ∧ waitingPlayers r.1 = waitingPlayers st
  ∧ activeMatches r.1 = activeMatches st
  ∧ map_keys (preStakedPlayers r.1) = map_keys (preStakedPlayers st)
  ∧ (map_has (pc_address data) (preStakedPlayers st) = false → r.1 = st)
  ∧ (∀ p, map_get (pc_address data) (preStakedPlayers st) = Some p →
       map_get (pc_address data) (preStakedPlayers r.1)
       = Some (mkPreStake (ps_stake p) (timestamp p) (ps_socketId p) true
                 (pc_blockchainMatchId data)))
  ∧ (∀ addr, addr ≠ pc_address data →
       map_get addr (preStakedPlayers r.1)
       = map_get addr (preStakedPlayers st))
  ∧ map_keys (preStakedPlayers (sweep now r.1).1)
    = map_keys (preStakedPlayers (sweep now st).1).
Proof.
  intros Hreach r.
  assert (reachable r.1) as Hreach'
    by apply (reachable_step (EvPreStakeConfirmed "" data) st Hreach).
  rewrite !sweep_keeps_unexpired_pre by done. clear Hreach'.
  subst r. unfold on_preStakeConfirmed, map_has.
  destruct (map_get (pc_address data) (preStakedPlayers st)) as [p|] eqn:Hg;
    simpl; [|by split_and!].
  split_and!; try done.
  - apply map_keys_set_present. apply map_has_true. unfold map_has.
    by rewrite Hg.
  - intros q [= <-]. apply map_get_set_eq.
  - intros addr Hne. by apply map_get_set_ne.
  - by apply (filter_unexpired_map_set now _ p).
Qed.

(** ** Connections *)

Lemma on_disconnect_queue sid st :
  waitingPlayers (on_disconnect sid st).1
  = remove_waiting (has_socketId sid) (waitingPlayers st)
  ∧ playerSessions (on_disconnect sid st).1
    = map_delete sid (playerSessions st)
  ∧ preStakedPlayers (on_disconnect sid st).1
    = match List.find (pre_of_socket sid) (preStakedPlayers st) with
      | Some (addr, _) => map_delete addr (preStakedPlayers st)
      | None => preStakedPlayers st
      end.
Proof.
  unfold on_disconnect.
  destruct (List.find (references sid) _) as [[k m]|].
  - cbv zeta.
    pose proof (endGame_queue k
      (if bool_decide (player1SocketId m = sid)
       then player2 m else player1 m) DISCONNECT
      (with_waiting
         (remove_waiting (has_socketId sid) (waitingPlayers st)) st))
      as (Hw & Hp & Hss).
    destruct (endGame _ _ _ _) as [st2 out]. simpl in *. rewrite Hp.
    destruct (List.find _ (preStakedPlayers st)) as [[a ?]|]; simpl;
      by rewrite ?Hw, ?Hss, ?Hp.
  - by destruct (List.find _ _) as [[a ?]|].
Qed.

(** X11: what a disconnect cleans up.  In a reachable state, after
    connection [sid] has dropped it is no longer registered, so no later
    notification is addressed to it; the queue has lost the oldest request
    made over that connection and the tracker the oldest pre-commitment made
    over it, and nothing else; the other connections stay registered. *)
Theorem disconnect_cleans_up (st : State) (sid : SocketId) :
  reachable st →
  let st' := (on_disconnect sid st).1 in
  map_has sid (playerSessions st') = false
  ∧ (∀ msg, emit_if_connected st' sid msg = [])
  ∧ (∀ sid2, sid2 ≠ sid →
       map_has sid2 (playerSessions st') = map_has sid2 (playerSessions st))
  ∧ queued st' = remove_first (has_socketId sid) (queued st)
  ∧ preStakedPlayers st'
    = remove_first (pre_of_socket sid) (preStakedPlayers st).
Proof.
  intros Hreach st'. pose proof (reachable_inv _ Hreach) as Hinv.
  pose proof (shape_sessions _ (reachable_shape _ Hreach)) as Hss.
  destruct (on_disconnect_queue sid st) as (Hw & Hs & Hp). fold st' in Hw, Hs, Hp.
  assert (map_has sid (playerSessions st') = false) as Hgone.
  { rewrite Hs. unfold map_has. by rewrite map_get_delete_eq. }
  split_and!.
  - done.
  - intros msg. unfold emit_if_connected. by rewrite Hgone.
  - intros sid2 Hne. rewrite Hs. unfold map_has.
    by rewrite map_get_delete_ne.
  - unfold queued. rewrite Hw. apply queued_remove_waiting, Hinv.
  - rewrite Hp. apply find_delete_remove_first, Hinv.
Qed.

(** ** Forfeits, finished matches and eviction *)

(** X12: a forfeit message finalises the named match whatever its status:
    it becomes COMPLETED with reason FORFEIT and, as result, participant B's
    address if the message names participant A and participant A's address
    in every other case, also when the named address is neither participant.
    The [gameEnd] notification carries that address as winner, and a null
    [winnerAddress] unless the address happens to be the string X or O.  A
    forfeit for an id that is not in the table is ignored. *)
Theorem forfeit_names_the_other_participant (st : State) (sid : SocketId)
    (data : ForfeitData) (m : Match) :
  let r := step (EvForfeitMatch sid data) st in
  let winner := if bool_decide (f_address data = player1 m)
                then player2 m else player1 m in
  (map_get (f_matchId data) (activeMatches st) = None → r = (st, []))
  ∧ (map_get (f_matchId data) (activeMatches st) = Some m →
     r.1 = with_matches
             (map_set (f_matchId data) (set_completed winner FORFEIT m)
                (activeMatches st)) st
     ∧ r.2 = emit_if_connected st (player1SocketId m)
               (gameEnd winner (winnerAddress_of winner m) FORFEIT (board m))
             ++ emit_if_connected st (player2SocketId m)
               (gameEnd winner (winnerAddress_of winner m) FORFEIT (board m))
             ++ [SetTimeout RETENTION (f_matchId data)]
     ∧ (f_address data = player1 m → winner = player2 m)
     ∧ (f_address data ≠ player1 m → winner = player1 m)
     ∧ (winner ≠ "X" → winner ≠ "O" → winnerAddress_of winner m = None)).
Proof.
  simpl. unfold on_forfeitMatch. split; intros Hg; rewrite Hg; [done|].
  cbv zeta. rewrite (endGame_present _ _ FORFEIT st m Hg).
  split_and!; try done.
  - intros Heq. by rewrite bool_decide_eq_true_2.
  - intros Hne. by rewrite bool_decide_eq_false_2.
  - intros HX HO. unfold winnerAddress_of.
    by rewrite !bool_decide_eq_false_2.
Qed.

(** A [playerStaked] message for the match [mid]. *)
Definition restarts (mid : MatchId) (ev : Event) : Prop :=
  match ev with
  | EvPlayerStaked _ data => s_matchId data = mid
  | _ => False
  end.

(** A match that is not running stays so as long as no [playerStaked]
    message for it arrives. *)
Lemma run_stays_idle evs st mid :
  Inv st → Forall (λ ev, ¬ restarts mid ev) evs →
  (∀ m, map_get mid (activeMatches st) = Some m → gameActive m = false) →
  ∀ m, map_get mid (activeMatches (run evs st).1) = Some m →
       gameActive m = false.
Proof.
  revert st. induction evs as [|ev evs IH]; intros st Hinv Hall Hidle; [done|].
  apply Forall_cons in Hall as [Hev Hall]. rewrite run_step.
  apply IH; [by apply step_inv | done |].
  intros m' Hg'. destruct (gameActive m') eqn:Hact; [|done].
  destruct (step_gameActive_origin ev st mid m' Hinv Hg' Hact)
    as [(m & Hg & Ha) | (sid & data & -> & Hid & _)].
  - by rewrite (Hidle m Hg) in Ha.
  - by destruct Hev.
Qed.

(** X13: a finished match takes no more moves until it is started again.
    In the state [endGame] leaves, whatever the state before, a move message
    for the id is ignored: state unchanged, nothing sent.  Starting from a
    reachable state this stays so after any further sequence of events that
    contains no [playerStaked] message for the id, the one message that can
    set a match running (X15). *)
Theorem finished_match_ignores_moves (st : State) (mid : MatchId)
    (res : string) (reason : EndReason) (data : MoveData) :
  d_matchId data = mid →
  let st1 := (endGame mid res reason st).1 in
  on_makeMove data st1 = (st1, [])
  ∧ (reachable st →
     ∀ evs, Forall (λ ev, ¬ restarts mid ev) evs →
       on_makeMove data (run evs st1).1 = ((run evs st1).1, [])).
Proof.
  intros <- st1.
  assert (∀ m, map_get (d_matchId data) (activeMatches st1) = Some m →
               gameActive m = false) as Hidle.
  { intros m. subst st1. rewrite endGame_state.
    destruct (map_get (d_matchId data) (activeMatches st)) as [m0|] eqn:Hg.
    - simpl. rewrite map_get_set_eq. by intros [= <-].
    - by rewrite Hg. }
  split.
  - apply on_makeMove_ignored.
    destruct (map_get (d_matchId data) (activeMatches st1)) as [m|] eqn:Hg;
      [|done].
    left. by apply Hidle.
  - intros Hreach evs Hall. apply on_makeMove_ignored.
    destruct (map_get (d_matchId data) (activeMatches (run evs st1).1))
      as [m|] eqn:Hg; [|done].
    left. apply (run_stays_idle evs st1 (d_matchId data)); [|done..].
    by apply endGame_inv, reachable_inv.
Qed.

(** X14: an evicted id is dead.  In a reachable state, after the eviction
    timer of a match has fired, the lookup endpoint answers 404 for its id,
    and move, forfeit, stake-confirmation and match-creation messages for
    that id are all ignored without a reply; every other match is still
    there. *)
Theorem evicted_match_is_gone (st : State) (mid : MatchId) :
  reachable st →
  let st' := (step (EvEvict mid) st).1 in
  get_match mid st' = NotFound "Match not found"
  ∧ (∀ sid data, d_matchId data = mid →
       step (EvMakeMove sid data) st' = (st', []))
  ∧ (∀ sid data, f_matchId data = mid →
       step (EvForfeitMatch sid data) st' = (st', []))
  ∧ (∀ sid data, s_matchId data = mid →
       step (EvPlayerStaked sid data) st' = (st', []))
  ∧ (∀ sid data, mc_matchId data = mid →
       step (EvMatchCreated sid data) st' = (st', []))
  ∧ (∀ mid', mid' ≠ mid → get_match mid' st' = get_match mid' st).
Proof.
  intros Hreach st'. pose proof (reachable_inv _ Hreach) as Hinv.
  assert (map_get mid (activeMatches st') = None) as Hgone.
  { subst st'. simpl. apply map_get_delete_eq, Hinv. }
  split_and!.
  - unfold get_match. by rewrite Hgone.
  - intros sid data <-. simpl. unfold on_makeMove. by rewrite Hgone.
  - intros sid data <-. simpl. unfold on_forfeitMatch. by rewrite Hgone.
  - intros sid data <-. simpl. unfold on_playerStaked. by rewrite Hgone.
  - intros sid data <-. simpl. unfold on_matchCreated. by rewrite Hgone.
  - intros mid' Hne. unfold get_match. subst st'. simpl.
    by rewrite map_get_delete_ne.
Qed.

(** X15: finishing a match does not clear its staked flags, and the
    [playerStaked] handler does not look at the status.  So when both flags
    of a match are set, a [playerStaked] message for it that arrives after
    [endGame] (and before the eviction) makes the match run again: status
    STAKED, moves accepted, board and move list as they were, the recorded
    result still in place, and the start signal is sent again.  The address
    in the message need not belong to a participant. *)
Theorem playerStaked_restarts_finished_match (st : State) (mid : MatchId)
    (m : Match) (res : string) (reason : EndReason) (sid : SocketId)
    (data : PlayerStakedData) :
  map_get mid (activeMatches st) = Some m →
  player1Staked m = true → player2Staked m = true →
  s_matchId data = mid →
  let st1 := (endGame mid res reason st).1 in
  let r := step (EvPlayerStaked sid data) st1 in
  (∃ m1, map_get mid (activeMatches st1) = Some m1
         ∧ status m1 = COMPLETED ∧ gameActive m1 = false)
  ∧ (∃ m', map_get mid (activeMatches r.1) = Some m'
           ∧ status m' = STAKED ∧ gameActive m' = true
           ∧ board m' = board m ∧ moves m' = moves m
           ∧ result m' = Some res ∧ endReason m' = Some reason)
  ∧ r.2 = emit_if_connected st (player1SocketId m) (gameStart mid "X" true)
          ++ emit_if_connected st (player2SocketId m)
               (gameStart mid "O" false).
Proof.
  intros Hg H1 H2 <- st1 r. subst r st1.
  rewrite (endGame_present _ _ _ _ _ Hg). simpl.
  unfold on_playerStaked. simpl. rewrite map_get_set_eq.
  assert (∀ b : bool, player1Staked
            (if b then set_player2Staked true (set_completed res reason m)
             else set_completed res reason m)
          && player2Staked
               (if b then set_player2Staked true (set_completed res reason m)
                else set_completed res reason m) = true) as Hboth.
  { intros []; simpl; by rewrite H1, ?H2. }
  rewrite Hboth. simpl. split_and!.
  - eexists. split; [done|]. by split.
  - eexists. split; [apply map_get_set_eq|].
    by case_bool_decide.
  - by case_bool_decide.
Qed.

(** ** How a match evolves *)

(** What any handler may do to a match that stays in the table. *)
Record evolves (m m' : Match) : Prop := {
  ev_id : matchId m' = matchId m;
  ev_player1 : player1 m' = player1 m;
  ev_player2 : player2 m' = player2 m;
  ev_stake : m_stake m' = m_stake m;
  ev_socket1 : player1SocketId m' = player1SocketId m;
  ev_socket2 : player2SocketId m' = player2SocketId m;
  ev_cells : ∀ i s, board m !! i = Some s → s ≠ "" → board m' !! i = Some s;
  ev_moves : moves m `prefix_of` moves m';
  ev_flag1 : player1Staked m = true → player1Staked m' = true;
  ev_flag2 : player2Staked m = true → player2Staked m' = true;
  ev_status : status m' = CREATED → status m = CREATED
}.

Lemma evolves_refl m : evolves m m.
Proof. by split. Qed.

(** An update that leaves board, move list and identity alone. *)
Lemma evolves_bookkeeping m m' :
  matchId m' = matchId m → player1 m' = player1 m → player2 m' = player2 m →
  m_stake m' = m_stake m → player1SocketId m' = player1SocketId m →
  player2SocketId m' = player2SocketId m →
  board m' = board m → moves m' = moves m →
  (player1Staked m = true → player1Staked m' = true) →
  (player2Staked m = true → player2Staked m' = true) →
  (status m' = CREATED → status m = CREATED) →
  evolves m m'.
Proof.
  intros ? ? ? ? ? ? Hb Hmv ? ? ?. split; try done.
  - intros i s. by rewrite Hb.
  - by rewrite Hmv.
Qed.

Lemma evolves_written data m (f : Match → Match) :
  board_at (board m) (target data) = Some "" →
  (∀ x, matchId (f x) = matchId x ∧ player1 (f x) = player1 x
        ∧ player2 (f x) = player2 x ∧ m_stake (f x) = m_stake x
        ∧ player1SocketId (f x) = player1SocketId x
        ∧ player2SocketId (f x) = player2SocketId x
        ∧ board (f x) = board x ∧ moves (f x) = moves x
        ∧ player1Staked (f x) = player1Staked x
        ∧ player2Staked (f x) = player2Staked x
        ∧ (status (f x) = CREATED → status x = CREATED)) →
  evolves m (f (written data m)).
Proof.
  intros Hcell Hf.
  destruct (Hf (written data m))
    as (Hid & Hp1 & Hp2 & Hstk & Hs1 & Hs2 & Hb & Hmv & Hf1 & Hf2 & Hst).
  apply board_at_Some in Hcell as [_ Hcell].
  split; rewrite ?Hid, ?Hp1, ?Hp2, ?Hstk, ?Hs1, ?Hs2, ?Hf1, ?Hf2; try done.
  - intros i s Hi Hs. rewrite Hb. simpl.
    rewrite list_lookup_insert_ne; [done|]. intros <-. congruence.
  - rewrite Hmv. simpl. by apply prefix_app_r.
Qed.

(** A join request that reaches [uuidv4()] and is given [mid] as fresh id:
    the one event that can put another match object under the key [mid]. *)
Definition reuses_id (mid : MatchId) (ev : Event) : Prop :=
  match ev with
  | EvFindMatch _ uuid _ (Object _) => uuid = mid
  | _ => False
  end.

Ltac same_match Hg Hg' :=
  simpl in Hg'; rewrite Hg in Hg'; injection Hg' as <-; apply evolves_refl.

Lemma step_evolves ev st mid m m' :
  Inv st → ¬ reuses_id mid ev →
  map_get mid (activeMatches st) = Some m →
  map_get mid (activeMatches (step ev st).1) = Some m' →
  evolves m m'.
Proof.
  intros Hinv Hid Hg Hg'.
  destruct ev as [sid|sid uuid now [data|v]|sid data|sid data
    |sid data|sid data|sid addr|sid data|sid data|sid|now|k]; simpl in Hg'.
  - same_match Hg Hg'.
  - rewrite on_findMatch_state in Hg'. destruct (map_has _ _).
    + same_match Hg Hg'.
    + match type of Hg' with
      | context [findMatch ?u ?p ?s] =>
          destruct (findMatch_components u p s) as (_ & _ & [Heq | [w Heq]])
      end; rewrite Heq in Hg'; simpl in Hg'.
      * same_match Hg Hg'.
      * rewrite map_get_set_ne in Hg' by (intros ->; by apply Hid).
        same_match Hg Hg'.
  - unfold on_findMatch in Hg'. same_match Hg Hg'.
  - unfold on_preStakeConfirmed in Hg'.
    destruct (map_get (pc_address data) _); same_match Hg Hg'.
  - unfold on_matchCreated in Hg'.
    destruct (map_get (mc_matchId data) _) as [m0|] eqn:Hg0; simpl in Hg'.
    + by_key Hg' mid (mc_matchId data).
      * rewrite Hg in Hg0. injection Hg0 as <-.
        case_bool_decide; by apply evolves_bookkeeping.
      * same_match Hg Hg'.
    + same_match Hg Hg'.
  - same_match Hg Hg'.
  - unfold on_playerStaked in Hg'.
    destruct (map_get (s_matchId data) _) as [m0|] eqn:Hg0.
    + destruct (_ && _); simpl in Hg';
        (by_key Hg' mid (s_matchId data);
         [rewrite Hg in Hg0; injection Hg0 as <-;
          case_bool_decide; by apply evolves_bookkeeping
         |same_match Hg Hg']).
    + same_match Hg Hg'.
  - unfold on_cancelMatchmaking in Hg'. destruct (map_has _ _);
      simpl in Hg'; same_match Hg Hg'.
  - destruct (map_get (d_matchId data) (activeMatches st)) as [m0|] eqn:Hg0.
    + destruct (gameActive m0) eqn:Hact.
      * destruct (decide (board_at (board m0) (target data) = Some ""))
          as [Hcell|Hocc].
        -- rewrite (on_makeMove_accepted data st m0) in Hg' by done.
           cbv zeta in Hg'.
           destruct (checkWin _ _); [|destruct (checkDraw _)]; simpl in Hg';
             (by_key Hg' mid (d_matchId data);
              [rewrite Hg in Hg0; injection Hg0 as <-
              |same_match Hg Hg']).
           ++ by apply (evolves_written data m
                          (set_completed (d_symbol data) NORMAL)).
           ++ by apply (evolves_written data m (set_completed "DRAW" NORMAL)).
           ++ apply (evolves_written data m
                       (set_currentPlayer
                          (if bool_decide (currentPlayer m = "X")
                           then "O" else "X"))); done.
        -- rewrite on_makeMove_ignored in Hg'; [|rewrite Hg0; by right].
           same_match Hg Hg'.
      * rewrite on_makeMove_ignored in Hg'; [|rewrite Hg0; by left].
        same_match Hg Hg'.
    + rewrite on_makeMove_ignored in Hg'; [|by rewrite Hg0].
      same_match Hg Hg'.
  - unfold on_forfeitMatch in Hg'.
    destruct (map_get (f_matchId data) _) as [m0|] eqn:Hg0.
    + rewrite endGame_state, Hg0 in Hg'. simpl in Hg'.
      by_key Hg' mid (f_matchId data).
      * rewrite Hg in Hg0. injection Hg0 as <-.
        by apply evolves_bookkeeping.
      * same_match Hg Hg'.
    + same_match Hg Hg'.
  - rewrite on_disconnect_matches in Hg' by done.
    destruct (List.find _ _) as [[k m0]|] eqn:Hf.
    + apply find_get in Hf as [Hg0 _]; [|apply Hinv].
      by_key Hg' mid k.
      * rewrite Hg in Hg0. injection Hg0 as <-.
        by apply evolves_bookkeeping.
      * same_match Hg Hg'.
    + same_match Hg Hg'.
  - destruct (sweep_fold_unchanged now (preStakedPlayers st) st) as [Heq _].
    unfold sweep in Hg'. simpl in Hg'. rewrite Heq in Hg'.
    same_match Hg Hg'.
  - destruct (decide (mid = k)) as [->|Hne].
    + rewrite map_get_delete_eq in Hg' by apply Hinv. done.
    + rewrite map_get_delete_ne in Hg' by done. same_match Hg Hg'.
Qed.

(** X16: an occupied cell is never overwritten and a recorded move is never
    dropped.  In a reachable state, for every event except a join request
    whose fresh id is the id of this match, if the match is still in the
    table after the event then every cell that held a marker holds the same
    marker, and the old move list is a prefix of the new one. *)
Theorem occupied_cells_are_kept (st : State) (ev : Event) (mid : MatchId)
    (m m' : Match) :
  reachable st → ¬ reuses_id mid ev →
  map_get mid (activeMatches st) = Some m →
  map_get mid (activeMatches (step ev st).1) = Some m' →
  (∀ i s, board m !! i = Some s → s ≠ "" → board m' !! i = Some s)
  ∧ moves m `prefix_of` moves m'.
Proof.
  intros Hreach Hid Hg Hg'.
  destruct (step_evolves ev st mid m m' (reachable_inv _ Hreach) Hid Hg Hg').
  by split.
Qed.

(** X17: the identity of a match is fixed and its staking only advances.
    Under the same conditions the id, the two participants, their sockets
    and the stake of a match never change, a staked flag that is set stays
    set, and the status never goes back to CREATED. *)
Theorem match_identity_is_fixed (st : State) (ev : Event) (mid : MatchId)
    (m m' : Match) :
  reachable st → ¬ reuses_id mid ev →
  map_get mid (activeMatches st) = Some m →
  map_get mid (activeMatches (step ev st).1) = Some m' →
  matchId m' = matchId m
  ∧ player1 m' = player1 m ∧ player2 m' = player2 m
  ∧ player1SocketId m' = player1SocketId m
  ∧ player2SocketId m' = player2SocketId m
  ∧ m_stake m' = m_stake m
  ∧ (player1Staked m = true → player1Staked m' = true)
  ∧ (player2Staked m = true → player2Staked m' = true)
  ∧ (status m' = CREATED → status m = CREATED).
Proof.
  intros Hreach Hid Hg Hg'.
  destruct (step_evolves ev st mid m m' (reachable_inv _ Hreach) Hid Hg Hg').
  by split_and!.
Qed.

(** X18: the marker of a move is not checked.  A move whose marker is the
    empty string is accepted on an empty cell like any other: the board is
    left exactly as it was while the move list grows by one entry, and if
    the board then has a line of three empty cells the match is finished at
    once with the empty string as result. *)
Theorem empty_marker_move (st : State) (data : MoveData) (m : Match) :
  map_get (d_matchId data) (activeMatches st) = Some m →
  gameActive m = true →
  board_at (board m) (target data) = Some "" →
  d_symbol data = "" →
  ∃ m', map_get (d_matchId data) (activeMatches (on_makeMove data st).1)
        = Some m'
        ∧ board m' = board m
        ∧ moves m' = moves m ++ [entry_of data]
        ∧ (Rules.has_line (board m) "" →
           status m' = COMPLETED ∧ result m' = Some ""
           ∧ endReason m' = Some NORMAL).
Proof.
  intros Hg Hact Hcell Hsym.
  assert (<[Z.to_nat (target data) := d_symbol data]> (board m) = board m)
    as Hsame.
  { rewrite Hsym. apply list_insert_id.
    by apply board_at_Some in Hcell as [_ Hcell]. }
  rewrite (on_makeMove_accepted data st m) by done. cbv zeta.
  change (board (written data m))
    with (<[Z.to_nat (target data) := d_symbol data]> (board m)).
  rewrite Hsame.
  destruct (checkWin (board m) (d_symbol data)) eqn:Hwin.
  - eexists. split; [apply map_get_set_eq|]. simpl. rewrite Hsame, Hsym.
    by split_and!.
  - assert (¬ Rules.has_line (board m) "") as Hno.
    { rewrite <- Rules.checkWin_has_line, <- Hsym. congruence. }
    destruct (checkDraw (board m));
      (eexists; split; [apply map_get_set_eq|]); simpl; rewrite Hsame;
      by split_and!.
Qed.

(** ** Who is sent what *)











(** ** Connections that come and go *)

Lemma find_none_Forall {A : Type} (p : A → bool) (l : list A) :
  Forall (λ x, p x = false) l → List.find p l = None.
Proof. induction 1 as [|x l Hx Hl IH]; simpl; [done|]. by rewrite Hx. Qed.

(** X20: a connection that does nothing leaves no trace.  If a socket id is
    not registered and nothing in the tables refers to it (as for a fresh
    id), then connecting and disconnecting it returns the server to exactly
    the state before, and sends nothing. *)
Theorem connect_then_disconnect_restores (st : State) (sid : SocketId) :
  map_has sid (playerSessions st) = false →
  Forall (λ p, socketId p ≠ sid) (queued st) →
  Forall (λ e, references sid e = false) (activeMatches st) →
  Forall (λ e, ps_socketId e.2 ≠ sid) (preStakedPlayers st) →
  run [EvConnection sid; EvDisconnect sid] st = (st, []).
Proof.
  intros Hs Hq Hm Hp. simpl. unfold on_disconnect. simpl.
  assert (remove_waiting (has_socketId sid) (waitingPlayers st)
          = waitingPlayers st) as ->.
  { unfold remove_waiting.
    rewrite <- (app_nil_r (waitingPlayers st)) at 1.
    rewrite find_waiting_app; [done|].
    eapply Forall_impl; [exact Hq|]. intros p Hne. unfold has_socketId.
    by apply bool_decide_eq_false_2. }
  rewrite (find_none_Forall _ _ Hm). simpl.
  rewrite find_none_Forall.
  - simpl. unfold map_has in Hs.
    destruct (map_get sid (playerSessions st)) eqn:Hg; [done|].
    rewrite (map_set_absent _ _ _ Hg).
    rewrite (map_delete_middle sid tt (playerSessions st) [])
      by by apply map_get_None_keys.
    rewrite app_nil_r. by destruct st.
  - eapply Forall_impl; [exact Hp|]. intros e Hne. unfold pre_of_socket.
    by apply bool_decide_eq_false_2.
Qed.

(** ** The queue and the tracker *)

(** X21: every queued request is backed by a pre-commitment.  In a reachable
    state each request in the waiting pool belongs to an address that holds
    a pre-commitment made over the same connection, and no two queued
    requests share an address; so [/stats] never reports more waiting
    entries than pre-staked players. *)
Theorem queued_requests_are_precommitted (st : State) (p : PlayerData) :
  reachable st →
  p ∈ queued st →
  (∃ ps, map_get (address p) (preStakedPlayers st) = Some ps
         ∧ ps_socketId ps = socketId p)
  ∧ (∀ q, q ∈ queued st → address q = address p → q = p)
  ∧ (length (stat_waitingPlayers (get_stats st))
     ≤ stat_preStakedPlayers (get_stats st))%nat.
Proof.
  intros Hreach Hin. pose proof (reachable_inv _ Hreach) as Hinv.
  split_and!.
  - assert (pd_key p ∈ pre_key <$> preStakedPlayers st) as Hk.
    { eapply elem_of_sublist; [|apply Hinv].
      apply list_elem_of_fmap. by exists p. }
    apply list_elem_of_fmap in Hk as ([a ps] & Hk & Hin').
    injection Hk as -> Hs. exists ps. split; [|done].
    apply map_get_elem_NoDup; [apply Hinv | done].
  - intros q Hq Ha.
    pose proof (queued_addresses_NoDup st Hinv) as Hnd.
    apply list_elem_of_lookup in Hin as [i Hi].
    apply list_elem_of_lookup in Hq as [j Hj].
    assert (i = j) as ->; [|congruence].
    eapply NoDup_lookup; [exact Hnd | |];
      rewrite list_lookup_fmap; [by rewrite Hi | rewrite Hj; simpl; by rewrite Ha].
  - simpl. rewrite length_fmap.
    pose proof (shape_buckets _ (reachable_shape _ Hreach)) as Hb.
    assert (length (waitingPlayers st) = length (queued st)) as ->.
    { unfold queued, queued_of. clear Hin.
      induction (waitingPlayers st) as [|b wp IH]; [done|].
      apply Forall_cons in Hb as [(q & Hq & _) Hb].
      simpl. rewrite length_app, Hq. simpl. f_equal. by apply IH. }
    rewrite <- (length_fmap pd_key (queued st)).
    rewrite <- (length_fmap pre_key (preStakedPlayers st)).
    apply sublist_length, Hinv.
Qed.


(** ** Turns and timers *)

(** X23: the turn marker alternates with the accepted moves, not with the
    markers played.  In a reachable state an accepted move that ends nothing
    flips [currentPlayer] between X and O, whatever marker the move carried,
    and announces the new value as [nextPlayer] to the registered
    participants; a move that ends the match leaves [currentPlayer] as it
    was. *)
Theorem turn_marker_alternates (st : State) (data : MoveData) (m : Match) :
  reachable st →
  map_get (d_matchId data) (activeMatches st) = Some m →
  gameActive m = true →
  board_at (board m) (target data) = Some "" →
  let final := <[Z.to_nat (target data) := d_symbol data]> (board m) in
  let r := on_makeMove data st in
  ∃ m', map_get (d_matchId data) (activeMatches r.1) = Some m'
        ∧ if checkWin final (d_symbol data) || checkDraw final then
            currentPlayer m' = currentPlayer m ∧ gameActive m' = false
          else
            currentPlayer m' ≠ currentPlayer m
            ∧ (currentPlayer m' = "X" ∨ currentPlayer m' = "O")
            ∧ gameActive m' = true
            ∧ r.2 = emit_if_connected st (player1SocketId m)
                      (moveMade (d_row data) (d_col data) (d_symbol data)
                         (currentPlayer m'))
                    ++ emit_if_connected st (player2SocketId m)
                      (moveMade (d_row data) (d_col data) (d_symbol data)
                         (currentPlayer m')).
Proof.
  intros Hreach Hg Hact Hcell final r. subst r.
  destruct (shape_get _ _ _ (shape_matches _ (reachable_shape _ Hreach)) Hg)
    as [_ _ Hturn _]. simpl in Hturn.
  rewrite (on_makeMove_accepted data st m) by done. cbv zeta.
  change (board (written data m)) with final.
  destruct (checkWin final (d_symbol data)); simpl.
  - eexists. split; [apply map_get_set_eq | by split].
  - destruct (checkDraw final); simpl.
    + eexists. split; [apply map_get_set_eq | by split].
    + eexists. split; [apply map_get_set_eq|]. simpl.
      destruct Hturn as [-> | ->]; simpl; split_and!; auto; discriminate.
Qed.

Lemma no_timer_in_emit st sid msg d k :
  SetTimeout d k ∉ emit_if_connected st sid msg.
Proof.
  unfold emit_if_connected. destruct (map_has _ _).
  - by intros [=]%list_elem_of_singleton.
  - apply not_elem_of_nil.
Qed.

Lemma no_timer_findMatch uuid pd st d k :
  SetTimeout d k ∉ (findMatch uuid pd st).1.2.
Proof.
  unfold findMatch. destruct (map_get _ _) as [players|];
    [|apply not_elem_of_nil].
  destruct (head players); [|apply not_elem_of_nil]. simpl.
  intros [Hin|Hin]%elem_of_app; by apply no_timer_in_emit in Hin.
Qed.

Lemma timer_of_endGame mid res reason st d k :
  SetTimeout d k ∈ (endGame mid res reason st).2 →
  d = RETENTION ∧ k = mid
  ∧ ∃ m, map_get mid (activeMatches (endGame mid res reason st).1) = Some m
         ∧ status m = COMPLETED ∧ gameActive m = false.
Proof.
  unfold endGame, notifyPlayers.
  destruct (map_get mid (activeMatches st)) as [m|] eqn:Hg;
    [|by intros ?%elem_of_nil].
  cbn [fst snd activeMatches with_matches]. rewrite map_get_set_eq.
  rewrite !elem_of_app. intros [[Hin|Hin]|Hin].
  - by apply no_timer_in_emit in Hin.
  - by apply no_timer_in_emit in Hin.
  - apply list_elem_of_singleton in Hin as [= -> ->].
    split; [done|]. split; [done|]. by eexists.
Qed.

(** X24: an eviction timer is only ever set for a match that the same event
    has just finished.  Whenever a handler calls [setTimeout], the delay is
    60 seconds and the match the timer is for is in the table with status
    COMPLETED and not running. *)
Theorem eviction_timer_follows_finalisation (st : State) (ev : Event)
    (delay : Z) (mid : MatchId) :
  SetTimeout delay mid ∈ (step ev st).2 →
  delay = 60000%Z
  ∧ ∃ m, map_get mid (activeMatches (step ev st).1) = Some m
         ∧ status m = COMPLETED ∧ gameActive m = false.
Proof.
  assert (∀ k res reason s,
            SetTimeout delay mid ∈ (endGame k res reason s).2 →
            delay = 60000%Z
            ∧ ∃ m, map_get mid (activeMatches (endGame k res reason s).1)
                   = Some m
                   ∧ status m = COMPLETED ∧ gameActive m = false) as Hend.
  { intros k res reason s Hin.
    by apply timer_of_endGame in Hin as (-> & -> & ?). }
  destruct ev as [sid|sid uuid now [data|v]|sid data|sid data
    |sid data|sid data|sid addr|sid data|sid data|sid|now|k]; simpl; intros Hin.
  - by apply elem_of_nil in Hin.
  - exfalso. unfold on_findMatch in Hin. destruct (map_has _ _).
    + by apply list_elem_of_singleton in Hin.
    + pose proof (no_timer_findMatch uuid
                    (mkPlayerData (j_address data) (j_stake data) sid)
                    (with_preStaked
                       (map_set (j_address data)
                          (mkPreStake (parseInt (j_stake data)) now sid
                             false None) (preStakedPlayers st)) st)
                    delay mid) as Hf.
      destruct (findMatch _ _ _) as [[st2 out] [[m|]|e]]; simpl in *;
        (apply elem_of_app in Hin as [Hin|Hin]; [done|]);
        by apply list_elem_of_singleton in Hin.
  - exfalso. unfold on_findMatch in Hin. simpl in Hin.
    by apply list_elem_of_singleton in Hin.
  - exfalso. unfold on_preStakeConfirmed in Hin.
    destruct (map_get _ _); by apply elem_of_nil in Hin.
  - exfalso. unfold on_matchCreated in Hin.
    destruct (map_get _ _); by apply elem_of_nil in Hin.
  - by apply list_elem_of_singleton in Hin.
  - exfalso. unfold on_playerStaked in Hin.
    destruct (map_get _ _) as [m|]; [|by apply elem_of_nil in Hin].
    destruct (_ && _); [|by apply elem_of_nil in Hin]. simpl in Hin.
    apply elem_of_app in Hin as [Hin|Hin]; by apply no_timer_in_emit in Hin.
  - exfalso. unfold on_cancelMatchmaking in Hin. destruct (map_has _ _).
    + by apply list_elem_of_singleton in Hin.
    + by apply elem_of_nil in Hin.
  - unfold on_makeMove in *.
    destruct (map_get _ _) as [m|]; [|by apply elem_of_nil in Hin].
    destruct (gameActive m); [|by apply elem_of_nil in Hin].
    case_bool_decide; [|by apply elem_of_nil in Hin].
    cbv zeta in *.
    destruct (checkWin _ _); [by apply Hend|].
    destruct (checkDraw _); [by apply Hend|].
    exfalso. unfold notifyPlayers in Hin. destruct (map_get _ _);
      [|by apply elem_of_nil in Hin].
    apply elem_of_app in Hin as [Hin|Hin]; by apply no_timer_in_emit in Hin.
  - unfold on_forfeitMatch in *.
    destruct (map_get _ _) as [m|]; [|by apply elem_of_nil in Hin].
    by apply Hend.
  - unfold on_disconnect in *.
    destruct (List.find (references sid) _) as [[k m]|].
    + cbv zeta in *.
      pose proof (Hend k
        (if bool_decide (player1SocketId m = sid) then player2 m else player1 m)
        DISCONNECT
        (with_waiting (remove_waiting (has_socketId sid) (waitingPlayers st))
           st)) as He.
      destruct (endGame _ _ _ _) as [st2 out].
      destruct (List.find _ (preStakedPlayers st2)) as [[addr ?]|];
        by apply He.
    + destruct (List.find _ _) as [[addr ?]|]; by apply elem_of_nil in Hin.
  - by apply elem_of_nil in Hin.
  - by apply elem_of_nil in Hin.
Qed.

End Server.

(** * Scenarios

    Concrete runs of the server: executions that contradict a claim as it
    is stated, and instances of the theorems above.  The stakes in them are
    the numbers 100 and 250, as a client that sends [parseFloat] of its input
    sends them; on these two [parseInt] returns its argument. *)

Inductive ScenarioStake := stake_100 | stake_250.

Definition ScenarioStake_eq_dec : EqDecision ScenarioStake.
Proof. solve_decision. Defined.

#[global] Instance ScenarioStake_js : JsStake ScenarioStake :=
  {| stake_eq_dec := ScenarioStake_eq_dec; parseInt := λ s, s |}.

Definition Trace : Type := list (@Event ScenarioStake).

(** ** One request waiting *)

(** A reachable state in which one request for stake 100 is waiting. *)
Definition trace_one_waiting : Trace :=
  [ EvConnection "s1"; EvConnection "s2";
    EvFindMatch "s1" "u0" 1000 (Object (mkJoin "0xA" stake_100)) ].

Definition st_one_waiting : State :=
  Eval vm_compute in (run trace_one_waiting initial).1.

Ltac computed := vm_compute; reflexivity.

Lemma st_one_waiting_reachable : reachable st_one_waiting.
Proof.
  assert (st_one_waiting = (run trace_one_waiting initial).1) as ->
    by computed.
  apply reachable_run, reachable_initial.
Qed.

Lemma findMatch_fifo_exact_witness :
  (reachable st_one_waiting
   ∧ (findMatch "m1" (mkPlayerData "0xB" stake_100 "s2") st_one_waiting).2
     = Normal (Some (newMatch "m1" (mkPlayerData "0xA" stake_100 "s1")
                       (mkPlayerData "0xB" stake_100 "s2"))))
  ∧ (reachable initial
     ∧ (findMatch "m2" (mkPlayerData "0xB" stake_100 "s2")
          (findMatch "m1" (mkPlayerData "0xA" stake_100 "s1") initial).1.1).2
       = Normal (Some (newMatch "m2" (mkPlayerData "0xA" stake_100 "s1")
                         (mkPlayerData "0xB" stake_100 "s2")))).
Proof.
  split.
  - split; [exact st_one_waiting_reachable|].
    destruct (findMatch_fifo_exact st_one_waiting "m1" "m2" "m3"
                (mkPlayerData "0xB" stake_100 "s2")
                (mkPlayerData "0xC" stake_100 "s3")
                (mkPlayerData "0xD" stake_100 "s4") st_one_waiting_reachable)
      as (st' & out & Hf & _).
    rewrite Hf. reflexivity.
  - split; [exact reachable_initial|].
    destruct (findMatch_fifo_exact initial "m1" "m2" "m3"
                (mkPlayerData "0xA" stake_100 "s1")
                (mkPlayerData "0xB" stake_100 "s2")
                (mkPlayerData "0xC" stake_100 "s3") reachable_initial)
      as [_ Hseq].
    destruct (Hseq eq_refl eq_refl) as (_ & H2 & _). exact H2.
Defined.

Lemma one_preCommitment_per_address_witness :
  reachable st_one_waiting
  ∧ map_has "0xA" (preStakedPlayers st_one_waiting) = true
  ∧ (on_findMatch "s2" "m1" 2000 (Object (mkJoin "0xA" stake_250))
       st_one_waiting).1
    = st_one_waiting.
Proof.
  split; [exact st_one_waiting_reachable|].
  assert (map_has "0xA" (preStakedPlayers st_one_waiting) = true) as Hhas
    by computed.
  split; [exact Hhas|].
  destruct (one_preCommitment_per_address st_one_waiting "s2" "m1" 2000
              (mkJoin "0xA" stake_250) st_one_waiting_reachable)
    as (_ & _ & Hdup).
  rewrite (Hdup Hhas). reflexivity.
Defined.

(** C9, as stated, fails: the pre-commitment of 0xA, declared at time 1000,
    is swept at time 400000, and the sweep issues no refund request. *)
Lemma sweep_requests_no_refund :
  ∃ addr p,
    (addr, p) ∈ preStakedPlayers st_one_waiting
    ∧ expired 400000 p = true
    ∧ map_has addr (preStakedPlayers (sweep 400000 st_one_waiting).1) = false
    ∧ ¬ ∃ amount,
          RequestPreStakeRefund addr amount ∈ (sweep 400000 st_one_waiting).2.
Proof.
  exists "0xA", (mkPreStake stake_100 1000 "s1" false None).
  split_and!; [left | computed | computed |].
  intros [amount Hin]. vm_compute in Hin. by apply elem_of_nil in Hin.
Qed.

Lemma sweep_removes_expired_witness :
  reachable st_one_waiting
  ∧ preStakedPlayers (sweep 400000 st_one_waiting).1 = []
  ∧ mkPlayerData "0xA" stake_100 "s1" ∈ queued (sweep 301000 st_one_waiting).1.
Proof.
  split; [exact st_one_waiting_reachable|]. split.
  - destruct (sweep_removes_expired st_one_waiting 400000
                st_one_waiting_reachable) as (_ & _ & Hpre & _).
    rewrite Hpre. computed.
  - destruct (sweep_removes_expired st_one_waiting 301000
                st_one_waiting_reachable) as (_ & _ & _ & _ & Hkeep & _).
    apply (Hkeep (mkPlayerData "0xA" stake_100 "s1")
             (mkPreStake stake_100 1000 "s1" false None)).
    + vm_compute. left.
    + computed.
    + computed.
Defined.

(** ** A running match *)

(** Two connections paired at stake 100, both staked: match m1 is running. *)
Definition trace_active : Trace :=
  [ EvConnection "s1"; EvConnection "s2";
    EvFindMatch "s1" "u0" 1000 (Object (mkJoin "0xA" stake_100));
    EvFindMatch "s2" "m1" 2000 (Object (mkJoin "0xB" stake_100));
    EvMatchCreated "s1" (mkMatchCreated "m1" "0xa" (Some "7"));
    EvPlayerStaked "s2" (mkPlayerStaked "m1" "0xb") ].

Definition st_active : State :=
  Eval vm_compute in (run trace_active initial).1.

Lemma st_active_reachable : reachable st_active.
Proof.
  assert (st_active = (run trace_active initial).1) as -> by computed.
  apply reachable_run, reachable_initial.
Qed.

(** The same two connections paired twice, under two addresses each; the
    second match, m2, is running, the first, m1, has not been staked yet. *)
Definition trace_two_matches : Trace :=
  [ EvConnection "s1"; EvConnection "s2";
    EvFindMatch "s1" "u0" 1000 (Object (mkJoin "0xA" stake_100));
    EvFindMatch "s2" "m1" 2000 (Object (mkJoin "0xB" stake_100));
    EvFindMatch "s1" "u1" 3000 (Object (mkJoin "0xC" stake_100));
    EvFindMatch "s2" "m2" 4000 (Object (mkJoin "0xD" stake_100));
    EvMatchCreated "s1" (mkMatchCreated "m2" "0xC" (Some "8"));
    EvPlayerStaked "s2" (mkPlayerStaked "m2" "0xD") ].

Definition st_two_matches : State :=
  Eval vm_compute in (run trace_two_matches initial).1.

Lemma st_two_matches_reachable : reachable st_two_matches.
Proof.
  assert (st_two_matches = (run trace_two_matches initial).1) as ->
    by computed.
  apply reachable_run, reachable_initial.
Qed.

(** C10, as stated, fails: connection s1 is referenced by m1 and by m2; when
    it drops, m1 is finalised and m2 is left as it was. *)
Lemma disconnect_skips_second_match :
  ∃ m, map_get "m2" (activeMatches st_two_matches) = Some m
       ∧ references "s1" ("m2", m) = true
       ∧ map_get "m2" (activeMatches (on_disconnect "s1" st_two_matches).1)
         = Some m
       ∧ status m ≠ COMPLETED
       ∧ endReason m = None.
Proof.
  eexists. split; [computed|]. split_and!; [computed | computed | |].
  - vm_compute. discriminate.
  - computed.
Qed.

Lemma disconnect_finalizes_first_match_witness :
  reachable st_two_matches
  ∧ List.find (references "s1") (activeMatches st_two_matches)
    = Some ("m1", newMatch "m1" (mkPlayerData "0xA" stake_100 "s1")
                    (mkPlayerData "0xB" stake_100 "s2"))
  ∧ ∃ m', map_get "m1" (activeMatches (on_disconnect "s1" st_two_matches).1)
          = Some m' ∧ status m' = COMPLETED.
Proof.
  split; [exact st_two_matches_reachable|].
  assert (List.find (references "s1") (activeMatches st_two_matches)
          = Some ("m1", newMatch "m1" (mkPlayerData "0xA" stake_100 "s1")
                          (mkPlayerData "0xB" stake_100 "s2"))) as Hfirst
    by computed.
  split; [exact Hfirst|].
  destruct (disconnect_finalizes_first_match st_two_matches "s1" "m1" _
              st_two_matches_reachable Hfirst)
    as ((m' & Hg & Hs & _) & _).
  exists m'. split; [exact Hg | exact Hs].
Defined.

(** C3, as stated, fails: after s1 drops from the running match m1 (winner
    0xB), the drop of s2 finds m1 again, overwrites the winner with 0xA and
    notifies again, so the second disconnect event is not a no-op. *)
Lemma second_disconnect_refinalizes :
  let st1 := (on_disconnect "s1" st_active).1 in
  let r2 := on_disconnect "s2" st1 in
  (∃ m, map_get "m1" (activeMatches st_active) = Some m ∧ gameActive m = true)
  ∧ (∃ m1, map_get "m1" (activeMatches st1) = Some m1
           ∧ status m1 = COMPLETED ∧ result m1 = Some "0xB")
  ∧ (∃ m2, map_get "m1" (activeMatches r2.1) = Some m2
           ∧ result m2 = Some "0xA")
  ∧ activeMatches r2.1 ≠ activeMatches st1
  ∧ r2.2 ≠ [].
Proof.
  cbv zeta. split_and!.
  - eexists. split; computed.
  - eexists. split_and!; computed.
  - eexists. split; computed.
  - vm_compute. discriminate.
  - vm_compute. discriminate.
Qed.

(** The match object of m1 in [st_active]. *)
Definition m1_active : Match :=
  Eval vm_compute in
    default (newMatch "m1" (mkPlayerData "0xA" stake_100 "s1")
               (mkPlayerData "0xB" stake_100 "s2"))
      (map_get "m1" (activeMatches st_active)).

Lemma disconnect_while_active_witness :
  reachable st_active
  ∧ List.find (references "s1") (activeMatches st_active)
    = Some ("m1", m1_active)
  ∧ gameActive m1_active = true
  ∧ ∃ m2,
      map_get "m1"
        (activeMatches
           (run [ EvDisconnect "s2";
                  EvMakeMove "s2" (mkMoveData "m1" 0 0 "O");
                  EvSweep 400000 ]
              (on_disconnect "s1" st_active).1).1) = Some m2
      ∧ status m2 = COMPLETED ∧ endReason m2 = Some DISCONNECT.
Proof.
  assert (List.find (references "s1") (activeMatches st_active)
          = Some ("m1", m1_active)) as Hfirst by computed.
  split; [exact st_active_reachable|].
  split; [exact Hfirst|]. split; [reflexivity|].
  pose proof (disconnect_while_active st_active "s1" "m1" m1_active
                st_active_reachable Hfirst eq_refl) as Hc.
  cbv zeta in Hc. destruct Hc as (_ & _ & Hlater & _).
  destruct (Hlater [ EvDisconnect "s2";
                     EvMakeMove "s2" (mkMoveData "m1" 0 0 "O");
                     EvSweep 400000 ]) as (m2 & Hg & Hs & _ & Hr).
  - repeat constructor.
  - exists m2. split; [exact Hg|]. split; [exact Hs | exact Hr].
Defined.

(** ** Moves on the running match *)

(** The running match m1 one move before X completes the top row. *)
Definition trace_before_win : Trace :=
  [ EvMakeMove "s1" (mkMoveData "m1" 0 0 "X");
    EvMakeMove "s2" (mkMoveData "m1" 1 1 "O");
    EvMakeMove "s1" (mkMoveData "m1" 0 1 "X");
    EvMakeMove "s2" (mkMoveData "m1" 2 2 "O") ].

Definition st_before_win : State :=
  Eval vm_compute in (run trace_before_win st_active).1.

Lemma st_before_win_reachable : reachable st_before_win.
Proof.
  assert (st_before_win = (run trace_before_win st_active).1) as ->
    by computed.
  apply reachable_run, st_active_reachable.
Qed.

(** The match object of m1 in that state. *)
Definition m1_before_win : Match :=
  Eval vm_compute in
    default (newMatch "m1" (mkPlayerData "0xA" stake_100 "s1")
               (mkPlayerData "0xB" stake_100 "s2"))
      (map_get "m1" (activeMatches st_before_win)).

Lemma st_before_win_m1 :
  map_get "m1" (activeMatches st_before_win) = Some m1_before_win.
Proof. computed. Qed.

Lemma checkWin_checkDraw_spec_witness :
  (checkWin Rules.full_with_line "X" = true
   ↔ Rules.has_line Rules.full_with_line "X")
  ∧ (checkDraw Rules.full_with_line = true
     ↔ ∀ i, (i < 9)%nat → Rules.occupied Rules.full_with_line i)
  ∧ ∃ m', map_get "m1"
            (activeMatches
               (on_makeMove (mkMoveData "m1" 0 2 "X") st_before_win).1)
          = Some m'
          ∧ result m' = Some "X".
Proof.
  destruct (checkWin_checkDraw_spec Rules.full_with_line "X" st_before_win
              (mkMoveData "m1" 0 2 "X") m1_before_win eq_refl)
    as (Hw & Hd & Hmv).
  split; [exact Hw|]. split; [exact Hd|].
  destruct (Hmv st_before_win_m1 eq_refl eq_refl) as (m' & Hg & Hwin & _).
  exists m'. split; [exact Hg|]. apply Hwin. computed.
Defined.

(** [st_active] with a third connection, s3, that takes no part in m1. *)
Definition st_spectator : State :=
  Eval vm_compute in (step (EvConnection "s3") st_active).1.

Lemma st_spectator_m1 :
  map_get "m1" (activeMatches st_spectator) = Some m1_active.
Proof. computed. Qed.

(** C1, as stated, fails: on the running match m1 (participants on s1 and s2,
    X to move), a move with marker O sent from s3, a connection that takes no
    part in the match, is applied. *)
Lemma foreign_out_of_turn_move_applied :
  let r := step (EvMakeMove "s3" (mkMoveData "m1" 0 0 "O")) st_spectator in
  ∃ m m',
    map_get "m1" (activeMatches st_spectator) = Some m
    ∧ gameActive m = true ∧ currentPlayer m = "X"
    ∧ player1SocketId m ≠ "s3" ∧ player2SocketId m ≠ "s3"
    ∧ map_get "m1" (activeMatches r.1) = Some m'
    ∧ board m' = ["O"; ""; ""; ""; ""; ""; ""; ""; ""]
    ∧ moves m' = [mkMove 0 0 "O"].
Proof.
  cbv zeta. eexists _, _. split; [computed|].
  split_and!; try computed; vm_compute; discriminate.
Qed.

Lemma move_checked_for_empty_cell_only_witness :
  (map_get "m1" (activeMatches st_spectator) = Some m1_active
   ∧ gameActive m1_active = true)
  ∧ ∃ m', map_get "m1"
            (activeMatches
               (step (EvMakeMove "s3" (mkMoveData "m1" 1 1 "O"))
                  st_spectator).1)
          = Some m'
          ∧ moves m' = [mkMove 1 1 "O"].
Proof.
  split; [split; [exact st_spectator_m1 | reflexivity]|].
  destruct (move_checked_for_empty_cell_only st_spectator "s3"
              (mkMoveData "m1" 1 1 "O") m1_active st_spectator_m1 eq_refl)
    as [Hacc _].
  destruct (Hacc eq_refl) as (m' & Hg & _ & Hmv).
  exists m'. split; [exact Hg | exact Hmv].
Defined.

(** C2, as stated, fails: the winning move completes the match and notifies
    both connections, and no settlement request follows. *)
Lemma win_requests_no_settlement :
  let r := step (EvMakeMove "s1" (mkMoveData "m1" 0 2 "X")) st_before_win in
  (∃ m', map_get "m1" (activeMatches r.1) = Some m'
         ∧ status m' = COMPLETED ∧ result m' = Some "X")
  ∧ r.2 = [ Emit "s1" (gameEnd "X" (Some "0xA") NORMAL
                         ["X"; "X"; "X"; ""; "O"; ""; ""; ""; "O"]);
            Emit "s2" (gameEnd "X" (Some "0xA") NORMAL
                         ["X"; "X"; "X"; ""; "O"; ""; ""; ""; "O"]);
            SetTimeout 60000 "m1" ]
  ∧ ¬ ∃ mid stk a b winner, RequestSettlement mid stk a b winner ∈ r.2.
Proof.
  cbv zeta. split_and!.
  - eexists. split_and!; computed.
  - computed.
  - intros (mid & stk & a & b & winner & Hin). vm_compute in Hin.
    repeat (apply elem_of_cons in Hin as [Hin|Hin]; [discriminate|]).
    by apply elem_of_nil in Hin.
Qed.

Lemma terminal_move_completes_match_witness :
  (map_get "m1" (activeMatches st_before_win) = Some m1_before_win
   ∧ gameActive m1_before_win = true
   ∧ board_at (board m1_before_win) 2 = Some ""
   ∧ checkWin (<[2%nat := "X"]> (board m1_before_win)) "X" = true)
  ∧ no_ledger_request
      (step (EvMakeMove "s1" (mkMoveData "m1" 0 2 "X")) st_before_win).2.
Proof.
  split; [split_and!; [exact st_before_win_m1 | computed ..]|].
  apply (terminal_move_completes_match st_before_win "s1"
           (mkMoveData "m1" 0 2 "X") m1_before_win st_before_win_m1
           eq_refl eq_refl).
  left. computed.
Defined.

(** ** A match that has not been staked *)

(** Two connections paired at stake 100; nobody has staked yet. *)
Definition trace_created : Trace :=
  [ EvConnection "s1"; EvConnection "s2";
    EvFindMatch "s1" "u0" 1000 (Object (mkJoin "0xA" stake_100));
    EvFindMatch "s2" "m1" 2000 (Object (mkJoin "0xB" stake_100)) ].

Definition st_created : State :=
  Eval vm_compute in (run trace_created initial).1.

Lemma st_created_reachable : reachable st_created.
Proof.
  assert (st_created = (run trace_created initial).1) as -> by computed.
  apply reachable_run, reachable_initial.
Qed.

(** C5, as stated, fails: a move on a match that is not running, and a move
    on an occupied cell, are dropped without any answer to anybody, so no
    typed error is raised. *)
Lemma rejected_moves_get_no_answer :
  (∃ m, map_get "m1" (activeMatches st_created) = Some m
        ∧ status m = CREATED
        ∧ step (EvMakeMove "s1" (mkMoveData "m1" 0 0 "X")) st_created
          = (st_created, []))
  ∧ (∃ m, map_get "m1" (activeMatches st_before_win) = Some m
          ∧ status m = STAKED
          ∧ board_at (board m) (target (mkMoveData "m1" 0 0 "O")) = Some "X"
          ∧ step (EvMakeMove "s2" (mkMoveData "m1" 0 0 "O")) st_before_win
            = (st_before_win, [])).
Proof.
  split; eexists; split_and!; computed.
Qed.

Lemma move_written_once_or_dropped_witness :
  reachable st_before_win
  ∧ map_get "m1" (activeMatches st_before_win) = Some m1_before_win
  ∧ board m1_before_win = replay (moves m1_before_win)
  ∧ (status m1_before_win = STAKED
     ∧ board_at (board m1_before_win) (target (mkMoveData "m1" 0 2 "X"))
       = Some ""
     ∧ ∃ m', map_get "m1"
               (activeMatches
                  (step (EvMakeMove "s1" (mkMoveData "m1" 0 2 "X"))
                     st_before_win).1) = Some m'
             ∧ length (moves m') = 5%nat)
  ∧ (board_at (board m1_before_win) (target (mkMoveData "m1" 0 0 "O"))
     ≠ Some ""
     ∧ step (EvMakeMove "s2" (mkMoveData "m1" 0 0 "O")) st_before_win
       = (st_before_win, [])).
Proof.
  split; [exact st_before_win_reachable|].
  split; [exact st_before_win_m1|].
  destruct (move_written_once_or_dropped st_before_win "s1"
              (mkMoveData "m1" 0 2 "X") m1_before_win st_before_win_reachable
              st_before_win_m1) as (_ & _ & Hacc & Hrep & _).
  destruct (move_written_once_or_dropped st_before_win "s2"
              (mkMoveData "m1" 0 0 "O") m1_before_win st_before_win_reachable
              st_before_win_m1) as (_ & Hocc & _).
  split; [exact Hrep|]. split.
  - split; [reflexivity|]. split; [reflexivity|].
    destruct (Hacc eq_refl eq_refl) as (m' & Hg & _ & _ & _ & Hmv).
    exists m'. split; [exact Hg|]. rewrite Hmv. reflexivity.
  - assert (board_at (board m1_before_win) (target (mkMoveData "m1" 0 0 "O"))
            ≠ Some "") as Hne by (vm_compute; discriminate).
    split; [exact Hne | exact (Hocc Hne)].
Defined.

(** C7, as stated, fails: when participant B's confirmation comes first and
    A's second, the second flag is set by [matchCreated], which starts
    nothing: both flags are true, the match is still CREATED, and no start
    signal is sent. *)
Lemma both_staked_without_start :
  let st1 := (step (EvPlayerStaked "s2" (mkPlayerStaked "m1" "0xB")) st_created).1 in
  let r := step (EvMatchCreated "s1" (mkMatchCreated "m1" "0xA" (Some "7"))) st1 in
  ∃ m1 m2,
    map_get "m1" (activeMatches st1) = Some m1
    ∧ player1Staked m1 = false ∧ player2Staked m1 = true
    ∧ map_get "m1" (activeMatches r.1) = Some m2
    ∧ player1Staked m2 = true ∧ player2Staked m2 = true
    ∧ status m2 = CREATED ∧ gameActive m2 = false
    ∧ r.2 = [].
Proof.
  cbv zeta. eexists _, _. split_and!; computed.
Qed.

(** Match m1 after participant A's confirmation only. *)
Definition st_half_staked : State :=
  Eval vm_compute in
    (step (EvMatchCreated "s1" (mkMatchCreated "m1" "0xA" (Some "7")))
       st_created).1.

Lemma st_half_staked_reachable : reachable st_half_staked.
Proof.
  assert (st_half_staked
          = (step (EvMatchCreated "s1" (mkMatchCreated "m1" "0xA" (Some "7")))
               st_created).1) as -> by computed.
  apply reachable_step, st_created_reachable.
Qed.

(** The match object of m1 in [st_half_staked]. *)
Definition m1_half_staked : Match :=
  set_player1Staked true
    (set_blockchainMatchId (Some "7")
       (newMatch "m1" (mkPlayerData "0xA" stake_100 "s1")
          (mkPlayerData "0xB" stake_100 "s2"))).

Lemma st_half_staked_m1 :
  map_get "m1" (activeMatches st_half_staked) = Some m1_half_staked.
Proof. computed. Qed.

Lemma game_starts_in_playerStaked_witness :
  reachable st_half_staked
  ∧ (map_get "m1" (activeMatches st_half_staked) = Some m1_half_staked
     ∧ player1Staked m1_half_staked = true
     ∧ player2Staked m1_half_staked = false)
  ∧ (step (EvPlayerStaked "s2" (mkPlayerStaked "m1" "0xB")) st_half_staked).2
    = [ Emit "s1" (gameStart "m1" "X" true);
        Emit "s2" (gameStart "m1" "O" false) ].
Proof.
  split; [exact st_half_staked_reachable|].
  split; [split_and!; [exact st_half_staked_m1 | reflexivity ..]|].
  destruct (game_starts_in_playerStaked st_half_staked
              (EvPlayerStaked "s2" (mkPlayerStaked "m1" "0xB")) "m1"
              (newMatch "m1" (mkPlayerData "0xA" stake_100 "s1")
                 (mkPlayerData "0xB" stake_100 "s2"))
              "s2" (mkPlayerStaked "m1" "0xB")
              (mkMatchCreated "m1" "0xA" (Some "7"))
              m1_half_staked m1_half_staked
              st_half_staked_reachable) as (_ & Hstart & _).
  destruct (Hstart st_half_staked_m1) as (m1 & _ & _ & _ & Hif).
  vm_compute in Hif. destruct Hif as (_ & _ & Hout).
  vm_compute. exact Hout.
Defined.

(** ** Instances of the further properties *)

Lemma stats_queue_depth_is_one_witness :
  reachable st_one_waiting
  ∧ (stake_100, 1%nat) ∈ stat_waitingPlayers (get_stats st_one_waiting)
  ∧ length (stat_waitingPlayers (get_stats st_one_waiting))
    = length (queued st_one_waiting).
Proof.
  assert ((stake_100, 1%nat) ∈ stat_waitingPlayers (get_stats st_one_waiting))
    as Hin by (vm_compute; left).
  split; [exact st_one_waiting_reachable|]. split; [exact Hin|].
  apply (stats_queue_depth_is_one st_one_waiting stake_100 1
           st_one_waiting_reachable Hin).
Defined.

Lemma get_match_well_formed_witness :
  reachable st_before_win
  ∧ get_match "m1" st_before_win = Json m1_before_win
  ∧ length (board m1_before_win) = 9%nat.
Proof.
  assert (get_match "m1" st_before_win = Json m1_before_win) as Hg
    by computed.
  split; [exact st_before_win_reachable|]. split; [exact Hg|].
  pose proof (get_match_well_formed st_before_win "m1"
                st_before_win_reachable) as H.
  rewrite Hg in H. apply H.
Defined.

Lemma participants_differ_witness :
  reachable st_two_matches
  ∧ (∃ m, map_get "m2" (activeMatches st_two_matches) = Some m
          ∧ player1 m ≠ player2 m).
Proof.
  split; [exact st_two_matches_reachable|].
  eexists. split; [computed|].
  eapply (participants_differ st_two_matches "m2");
    [exact st_two_matches_reachable | computed].
Defined.

Lemma paired_requests_have_equal_stake_witness :
  reachable st_one_waiting
  ∧ ∃ oldest,
      map_get stake_100 (waitingPlayers st_one_waiting) = Some [oldest]
      ∧ stake oldest = stake_100.
Proof.
  split; [exact st_one_waiting_reachable|].
  assert ((findMatch "m1" (mkPlayerData "0xB" stake_100 "s2") st_one_waiting).2
          = Normal (Some (newMatch "m1" (mkPlayerData "0xA" stake_100 "s1")
                            (mkPlayerData "0xB" stake_100 "s2")))) as Hres
    by computed.
  destruct (paired_requests_have_equal_stake st_one_waiting "m1"
              (mkPlayerData "0xB" stake_100 "s2") _ st_one_waiting_reachable Hres)
    as (oldest & _ & Hg & Hs & _).
  exists oldest. split; [exact Hg | exact Hs].
Defined.


Lemma paired_players_keep_preCommitment_witness :
  reachable st_one_waiting
  ∧ map_has "0xB" (preStakedPlayers st_one_waiting) = false
  ∧ map_get stake_100 (waitingPlayers st_one_waiting)
    = Some [mkPlayerData "0xA" stake_100 "s1"]
  ∧ map_has "0xA"
      (preStakedPlayers
         (on_findMatch "s2" "m1" 2000 (Object (mkJoin "0xB" stake_100))
            st_one_waiting).1)
    = true.
Proof.
  assert (map_has "0xB" (preStakedPlayers st_one_waiting) = false) as Hhas
    by computed.
  assert (map_get stake_100 (waitingPlayers st_one_waiting)
          = Some [mkPlayerData "0xA" stake_100 "s1"]) as Hg by computed.
  split; [exact st_one_waiting_reachable|].
  split; [exact Hhas|]. split; [exact Hg|].
  apply (paired_players_keep_preCommitment st_one_waiting "s2" "m1" 2000
           (mkJoin "0xB" stake_100) _ _ st_one_waiting_reachable Hhas Hg).
Defined.

Lemma cancel_releases_address_witness :
  reachable st_one_waiting
  ∧ map_has "0xA" (preStakedPlayers st_one_waiting) = true
  ∧ map_has "0xA"
      (preStakedPlayers (on_cancelMatchmaking "s2" "0xA" st_one_waiting).1)
    = false.
Proof.
  assert (map_has "0xA" (preStakedPlayers st_one_waiting) = true) as Hhas
    by computed.
  split; [exact st_one_waiting_reachable|]. split; [exact Hhas|].
  destruct (cancel_releases_address st_one_waiting "s2" "0xA"
              st_one_waiting_reachable) as [_ Hdel].
  apply (Hdel Hhas).
Defined.

Lemma join_then_cancel_restores_witness :
  reachable st_one_waiting
  ∧ map_has "0xB" (preStakedPlayers st_one_waiting) = false
  ∧ map_get stake_250 (waitingPlayers st_one_waiting) = None
  ∧ (on_cancelMatchmaking "s1" "0xB"
       (on_findMatch "s2" "m1" 2000 (Object (mkJoin "0xB" stake_250))
          st_one_waiting).1).1
    = st_one_waiting.
Proof.
  assert (map_has "0xB" (preStakedPlayers st_one_waiting) = false) as Hhas
    by computed.
  assert (map_get stake_250 (waitingPlayers st_one_waiting) = None) as Hg
    by computed.
  split; [exact st_one_waiting_reachable|].
  split; [exact Hhas|]. split; [exact Hg|].
  apply (join_then_cancel_restores st_one_waiting "s2" "s1" "m1" 2000
           (mkJoin "0xB" stake_250) st_one_waiting_reachable Hhas Hg).
Defined.

Lemma sweep_idempotent_witness :
  reachable st_one_waiting
  ∧ sweep 400000 (sweep 400000 st_one_waiting).1
    = ((sweep 400000 st_one_waiting).1, []).
Proof.
  split; [exact st_one_waiting_reachable|].
  apply (sweep_idempotent st_one_waiting 400000 st_one_waiting_reachable).
Defined.

Lemma confirmation_keeps_expiry_witness :
  reachable st_one_waiting
  ∧ preStakedPlayers
      (sweep 400000
         (on_preStakeConfirmed (mkPreStakeConfirmed "0xA" (Some "7"))
            st_one_waiting).1).1 = [].
Proof.
  split; [exact st_one_waiting_reachable|].
  destruct (confirmation_keeps_expiry st_one_waiting
              (mkPreStakeConfirmed "0xA" (Some "7")) 400000
              st_one_waiting_reachable) as (_ & _ & _ & _ & _ & _ & _ & Hk).
  assert (map_keys (preStakedPlayers (sweep 400000 st_one_waiting).1) = [])
    as Hnil by computed.
  rewrite Hnil in Hk. exact (fmap_nil_inv _ _ Hk).
Defined.

Lemma disconnect_cleans_up_witness :
  reachable st_one_waiting
  ∧ queued (on_disconnect "s1" st_one_waiting).1 = []
  ∧ preStakedPlayers (on_disconnect "s1" st_one_waiting).1 = [].
Proof.
  split; [exact st_one_waiting_reachable|].
  destruct (disconnect_cleans_up st_one_waiting "s1"
              st_one_waiting_reachable) as (_ & _ & _ & Hq & Hp).
  split; [rewrite Hq | rewrite Hp]; computed.
Defined.

Lemma forfeit_names_the_other_participant_witness :
  map_get "m1" (activeMatches st_created)
  = Some (newMatch "m1" (mkPlayerData "0xA" stake_100 "s1")
            (mkPlayerData "0xB" stake_100 "s2"))
  ∧ (step (EvForfeitMatch "s2" (mkForfeit "m1" "0xB")) st_created).2
    = [ Emit "s1" (gameEnd "0xA" None FORFEIT (replicate 9 ""));
        Emit "s2" (gameEnd "0xA" None FORFEIT (replicate 9 ""));
        SetTimeout RETENTION "m1" ].
Proof.
  assert (map_get "m1" (activeMatches st_created)
          = Some (newMatch "m1" (mkPlayerData "0xA" stake_100 "s1")
                    (mkPlayerData "0xB" stake_100 "s2"))) as Hg by computed.
  split; [exact Hg|].
  destruct (forfeit_names_the_other_participant st_created "s2"
              (mkForfeit "m1" "0xB")
              (newMatch "m1" (mkPlayerData "0xA" stake_100 "s1")
                 (mkPlayerData "0xB" stake_100 "s2"))) as [_ Hpresent].
  destruct (Hpresent Hg) as (_ & Hout & _). rewrite Hout. computed.
Defined.

Lemma finished_match_ignores_moves_witness :
  reachable st_before_win
  ∧ on_makeMove (mkMoveData "m1" 2 0 "O")
      (run [ EvDisconnect "s2";
             EvMatchCreated "s1" (mkMatchCreated "m1" "0xA" (Some "7")) ]
         (endGame "m1" "X" NORMAL st_before_win).1).1
    = ((run [ EvDisconnect "s2";
              EvMatchCreated "s1" (mkMatchCreated "m1" "0xA" (Some "7")) ]
          (endGame "m1" "X" NORMAL st_before_win).1).1, []).
Proof.
  split; [exact st_before_win_reachable|].
  pose proof (finished_match_ignores_moves st_before_win "m1" "X" NORMAL
                (mkMoveData "m1" 2 0 "O") eq_refl) as Hc.
  cbv zeta in Hc. destruct Hc as [_ Hlater].
  apply (Hlater st_before_win_reachable).
  repeat (constructor; [intros []|]). constructor.
Defined.

Lemma evicted_match_is_gone_witness :
  reachable st_active
  ∧ get_match "m1" (step (EvEvict "m1") st_active).1
    = NotFound "Match not found".
Proof.
  split; [exact st_active_reachable|].
  apply (evicted_match_is_gone st_active "m1" st_active_reachable).
Defined.

Lemma playerStaked_restarts_finished_match_witness :
  map_get "m1" (activeMatches st_before_win) = Some m1_before_win
  ∧ ∃ m', map_get "m1"
            (activeMatches
               (step (EvPlayerStaked "s1" (mkPlayerStaked "m1" "0xA"))
                  (endGame "m1" "0xB" FORFEIT st_before_win).1).1) = Some m'
          ∧ gameActive m' = true.
Proof.
  split; [exact st_before_win_m1|].
  destruct (playerStaked_restarts_finished_match st_before_win "m1"
              m1_before_win "0xB" FORFEIT "s1" (mkPlayerStaked "m1" "0xA")
              st_before_win_m1 eq_refl eq_refl eq_refl)
    as (_ & (m' & Hg & _ & Hact & _) & _).
  exists m'. split; [exact Hg | exact Hact].
Defined.

Lemma occupied_cells_are_kept_witness :
  reachable st_before_win
  ∧ ¬ reuses_id (Stake := ScenarioStake) "m1"
        (EvMakeMove "s2" (mkMoveData "m1" 0 0 "O"))
  ∧ map_get "m1" (activeMatches st_before_win) = Some m1_before_win
  ∧ board m1_before_win !! 0%nat = Some "X".
Proof.
  assert (¬ reuses_id (Stake := ScenarioStake) "m1"
              (EvMakeMove "s2" (mkMoveData "m1" 0 0 "O")))
    as Hid by (intros []).
  assert (map_get "m1"
            (activeMatches
               (step (EvMakeMove "s2" (mkMoveData "m1" 0 0 "O"))
                  st_before_win).1) = Some m1_before_win) as Hg' by computed.
  split; [exact st_before_win_reachable|]. split; [exact Hid|].
  split; [exact st_before_win_m1|].
  destruct (occupied_cells_are_kept st_before_win _ "m1" _ _
              st_before_win_reachable Hid st_before_win_m1 Hg')
    as [Hcells _].
  apply (Hcells 0%nat "X"); [reflexivity | discriminate].
Defined.

Lemma match_identity_is_fixed_witness :
  reachable st_active
  ∧ ¬ reuses_id (Stake := ScenarioStake) "m1" (EvDisconnect "s1")
  ∧ map_get "m1" (activeMatches st_active) = Some m1_active
  ∧ ∃ m', map_get "m1" (activeMatches (step (EvDisconnect "s1") st_active).1)
          = Some m'
          ∧ player1SocketId m' = "s1".
Proof.
  assert (¬ reuses_id (Stake := ScenarioStake) "m1" (EvDisconnect "s1"))
    as Hid by (intros []).
  assert (map_get "m1" (activeMatches st_active) = Some m1_active) as Hg
    by computed.
  split; [exact st_active_reachable|]. split; [exact Hid|].
  split; [exact Hg|]. eexists. split; [computed|].
  eapply eq_trans;
    [apply (match_identity_is_fixed st_active (EvDisconnect "s1") "m1"
              m1_active _ st_active_reachable Hid Hg); computed
    |reflexivity].
Defined.

Lemma empty_marker_move_witness :
  map_get "m1" (activeMatches st_active) = Some m1_active
  ∧ ∃ m', map_get "m1"
            (activeMatches
               (on_makeMove (mkMoveData "m1" 0 0 "") st_active).1) = Some m'
          ∧ status m' = COMPLETED ∧ result m' = Some "".
Proof.
  assert (map_get "m1" (activeMatches st_active) = Some m1_active) as Hg
    by computed.
  split; [exact Hg|].
  destruct (empty_marker_move st_active (mkMoveData "m1" 0 0 "") m1_active
              Hg eq_refl eq_refl eq_refl) as (m' & Hg' & _ & _ & Hline).
  exists m'. split; [exact Hg'|].
  destruct Hline as (Hs & Hr & _); [|by split].
  apply Rules.checkWin_has_line. computed.
Defined.


Lemma connect_then_disconnect_restores_witness :
  run [EvConnection "s3"; EvDisconnect "s3"] st_active = (st_active, []).
Proof.
  apply (connect_then_disconnect_restores st_active "s3").
  - computed.
  - vm_compute. constructor.
  - vm_compute. repeat constructor.
  - vm_compute. repeat constructor; discriminate.
Defined.

Lemma queued_requests_are_precommitted_witness :
  reachable st_one_waiting
  ∧ mkPlayerData "0xA" stake_100 "s1" ∈ queued st_one_waiting
  ∧ ∃ ps, map_get "0xA" (preStakedPlayers st_one_waiting) = Some ps
          ∧ ps_socketId ps = "s1".
Proof.
  assert (mkPlayerData "0xA" stake_100 "s1" ∈ queued st_one_waiting) as Hin
    by (vm_compute; left).
  split; [exact st_one_waiting_reachable|]. split; [exact Hin|].
  apply (queued_requests_are_precommitted st_one_waiting _
           st_one_waiting_reachable Hin).
Defined.


Lemma turn_marker_alternates_witness :
  reachable st_active
  ∧ map_get "m1" (activeMatches st_active) = Some m1_active
  ∧ ∃ m', map_get "m1"
            (activeMatches (on_makeMove (mkMoveData "m1" 1 1 "X") st_active).1)
          = Some m'
          ∧ currentPlayer m' = "O".
Proof.
  assert (map_get "m1" (activeMatches st_active) = Some m1_active) as Hg
    by computed.
  split; [exact st_active_reachable|]. split; [exact Hg|].
  destruct (turn_marker_alternates st_active (mkMoveData "m1" 1 1 "X")
              m1_active st_active_reachable Hg eq_refl eq_refl)
    as (m' & Hg' & Hif).
  exists m'. split; [exact Hg'|].
  vm_compute in Hg'. injection Hg' as <-. reflexivity.
Defined.

Lemma eviction_timer_follows_finalisation_witness :
  SetTimeout 60000 "m1"
  ∈ (step (EvForfeitMatch "s1" (mkForfeit "m1" "0xA")) st_active).2
  ∧ ∃ m, map_get "m1"
           (activeMatches
              (step (EvForfeitMatch "s1" (mkForfeit "m1" "0xA")) st_active).1)
         = Some m
         ∧ status m = COMPLETED.
Proof.
  assert (SetTimeout 60000 "m1"
          ∈ (step (EvForfeitMatch "s1" (mkForfeit "m1" "0xA")) st_active).2)
    as Hin by (vm_compute; do 2 right; left).
  split; [exact Hin|].
  destruct (eviction_timer_follows_finalisation st_active _ _ _ Hin)
    as (_ & m & Hg & Hs & _).
  exists m. split; [exact Hg | exact Hs].
Defined.
